(** * FlashGraph / FlashMatrix: k-core peeling and sparse-matrix block tasks

    A shallow embedding of the parts of the repository that the
    specification's testable statements are about:

    - [src/matrix/sparse_matrix.h], [src/matrix/sparse_matrix.cpp]:
      compute tasks and their page-aligned I/O requests, block execution
      orders (sequential and Hilbert), the [sparse_matrix] variants and
      [transpose];
    - [src/matrix/sparse_matrix_format.cpp]: [sparse_matrix_index];
    - [src/apps/k-core/k_core.cpp]: the k-core vertex program, its queries
      and its command line;
    - [src/flash-graph/test-algs/test_algs.cpp]: [run_kcore];
    - [src/flash-graph/graph_engine.h]: [get_vertex_edges] and the callback
      and query interfaces.

    Machine integers are carried as [Z] with their wrap-around written where
    the code can reach it; vectors are lists read with stdpp's lookup; sizes
    that index vectors are [nat].

    Part I holds the definitions, Part II the lemmas and theorems. *)

From Stdlib Require Import ZArith Lia Ascii.
From stdpp Require Import base numbers option list sorting strings.

Local Open Scope Z_scope.

(** * Part I: the program *)

(** ** Machine integers and the log *)

(** [vsize_t] and [vertex_id_t] are 32-bit unsigned, [size_t] is 64-bit
    unsigned. *)
Definition vsize_max : Z := 2 ^ 32.
Definition size_max : Z := 2 ^ 64.

Definition to_vsize (x : Z) : Z := x mod vsize_max.
Definition to_size (x : Z) : Z := x mod size_max.

(** The error log written through [BOOST_LOG_TRIVIAL(error)]. *)
Definition log := list string.

(** ** Page arithmetic and I/O requests ([sparse_matrix.h]) *)

(** Modelled from the spec: the macros [ROUND_PAGE] and [ROUNDUP_PAGE] and the
    constant [PAGE_SIZE] come from a header that is not among the sources.
    The specification describes them as "round down start, round up end" to
    page boundaries; [PAGE_SIZE] is a parameter. *)
Definition ROUND_PAGE (PAGE_SIZE off : Z) : Z := off - off mod PAGE_SIZE.

(** Modelled from the spec: see [ROUND_PAGE]. *)
Definition ROUNDUP_PAGE (PAGE_SIZE off : Z) : Z :=
  ROUND_PAGE PAGE_SIZE (off + PAGE_SIZE - 1).

(** [safs::data_loc_t]. *)
Record data_loc_t := { get_file_id : Z; get_offset : Z }.

(** [matrix_io]: the part of the matrix one task covers, with the location
    and the size of its bytes in the file. *)
Record matrix_io := {
  get_loc : data_loc_t;
  get_size : Z;
  io_num_rows : nat;
  io_num_cols : nat;
}.

(** [safs::io_request]; the buffer pointer is left out and [READ] is the only
    access method the tasks use. *)
Record io_request := {
  req_loc : data_loc_t;
  req_size : Z;
}.

(** The fields [io], [off] and [buf_size] that [fg_row_compute_task] and
    [block_compute_task] compute in their constructors ([sparse_matrix.h]
    63-68 and 122-128, [sparse_matrix.cpp] 141-144). The sum
    [orig_off - off + io.get_size()] is evaluated in [size_t]. *)
Record task_buf := {
  io : matrix_io;
  off : Z;
  buf_size : Z;
}.

Definition task_buf_init (PAGE_SIZE : Z) (_io : matrix_io) : task_buf :=
  let orig_off := get_offset (get_loc _io) in
  let off := ROUND_PAGE PAGE_SIZE orig_off in
  {| io := _io;
     off := off;
     buf_size := to_size (ROUNDUP_PAGE PAGE_SIZE
                            (to_size (orig_off - off + get_size _io))) |}.

(** [fg_row_compute_task::fg_row_compute_task]. *)
Definition fg_row_compute_task (PAGE_SIZE : Z) (_io : matrix_io) : task_buf :=
  task_buf_init PAGE_SIZE _io.

(** [get_request], the same text in both task classes. *)
Definition get_request (t : task_buf) : io_request :=
  {| req_loc := {| get_file_id := get_file_id (get_loc (io t));
                   get_offset := off t |};
     req_size := buf_size t |}.

(** ** Block execution orders ([sparse_matrix.cpp] 38-128) *)

(** [block_2d_size]. *)
Record block_2d_size := { bs_num_rows : nat; bs_num_cols : nat }.

(** A [sparse_block_2d] as far as the ordering sees it: its coordinates in
    the block grid. The vector handed to [exec] holds pointers, a null pointer
    being [None]. *)
Record sparse_block_2d := { get_block_row_idx : nat; get_block_col_idx : nat }.

Global Instance sparse_block_2d_eq_dec : EqDecision sparse_block_2d.
Proof. solve_decision. Defined.

(** [hilbert_exec_order::coordinate_order]; [operator<] compares [order]
    only. *)
Record coordinate_order := { coo : nat * nat; order : nat }.

Definition coordinate_order_lt (a b : coordinate_order) : Prop :=
  (order a < order b)%nat.

(** What [std::sort] leaves between neighbours: the later element is not
    less than the earlier one. *)
Definition coordinate_order_le (a b : coordinate_order) : Prop :=
  (order a <= order b)%nat.

Global Instance coordinate_order_le_dec : RelDecision coordinate_order_le.
Proof. intros a b. unfold coordinate_order_le. apply _. Defined.

(** [std::sort] with [operator<]: stdpp's merge sort on the order key. The
    theorems below use two facts about it only, the ones the C++ standard
    promises: the result is a permutation of the input and is ascending. *)
Definition std_sort (l : list coordinate_order) : list coordinate_order :=
  merge_sort coordinate_order_le l.

(** The two nested loops of the constructor, pushing one entry per grid
    coordinate in row-major order. *)
Definition grid_row (hilbert_xy2d : nat -> nat -> nat -> nat) (n i : nat)
  : list coordinate_order :=
  (fun j => {| coo := (i, j); order := hilbert_xy2d n i j |}) <$> seq 0 n.

Definition grid_orders (hilbert_xy2d : nat -> nat -> nat -> nat) (n : nat)
  : list coordinate_order :=
  seq 0 n ≫= grid_row hilbert_xy2d n.

(** The two implementations of the interface [block_exec_order]. *)
Inductive block_exec_order :=
| seq_exec_order
| hilbert_exec_order_obj (n : nat) (hilbert_orders : list coordinate_order).

(** [hilbert_exec_order::hilbert_exec_order]. The function [hilbert_xy2d]
    is declared in [hilbert_curve.h], which is not among the sources, and is
    a parameter. *)
Definition hilbert_exec_order (hilbert_xy2d : nat -> nat -> nat -> nat)
    (n : nat) : block_exec_order :=
  hilbert_exec_order_obj n (std_sort (grid_orders hilbert_xy2d n)).

Definition is_valid_size (o : block_exec_order) (height width : nat) : bool :=
  match o with
  | seq_exec_order => true
  | hilbert_exec_order_obj n _ =>
      bool_decide (n = height) && bool_decide (n = width)
  end.

(** The result of [exec]: the returned flag, what was logged, and the calls
    of [task.run_on_block] in the order they were made. *)
Record exec_result := {
  exec_ok : bool;
  exec_log : log;
  run_on_block_calls : list sparse_block_2d;
}.

(** The index into the row-major vector that [exec] computes for an entry. *)
Definition block_idx (n : nat) (o : coordinate_order) : nat :=
  (fst (coo o) * n + snd (coo o))%nat.

Definition exec (o : block_exec_order) (blocks : list (option sparse_block_2d))
  : exec_result :=
  match o with
  | seq_exec_order =>
      {| exec_ok := true; exec_log := [];
         run_on_block_calls := omap id blocks |}
  | hilbert_exec_order_obj n hilbert_orders =>
      if bool_decide (length blocks ≠ length hilbert_orders) then
        {| exec_ok := false;
           exec_log := ["The number of blocks need to be n^2"%string];
           run_on_block_calls := [] |}
      else
        {| exec_ok := true; exec_log := [];
           run_on_block_calls :=
             omap (fun o => mjoin (blocks !! block_idx n o)) hilbert_orders |}
  end.

(** ** Block compute tasks ([sparse_matrix.cpp] 130-164) *)

(** [ceil(((double) a) / b)] on sizes. Both operands are far below [2^53],
    where the division in [double] followed by [ceil] is the integer ceiling;
    a zero [b] has no defined result. *)
Definition ceil_div (a b : nat) : option nat :=
  if bool_decide (b = 0%nat) then None
  else Some ((a + b - 1) / b)%nat.

(** The members of a [block_compute_task] that the first part of its
    constructor sets. The pointer [buf] is not modelled; [block_rows] is in
    [block_compute_task_obj] below. *)
Record block_compute_task := {
  bct_buf : task_buf;
  block_size : block_2d_size;
  bct_num_block_rows : nat;
  exec_order : block_exec_order;
}.

(** The first part of [block_compute_task::block_compute_task]
    ([sparse_matrix.cpp] 130-144), which sets every member but [block_rows]
    from the [matrix_io], the block size of the matrix and the order; the
    rest of the constructor is [block_compute_task_new] below. [order] is a
    shared pointer: [None] is the empty pointer, and [order->is_valid_size]
    on it has no defined behaviour, which the result [None] stands for. An
    order whose [is_valid_size] fails for the strip is replaced by the
    sequential one. *)
Definition block_compute_task_init (PAGE_SIZE : Z) (_io : matrix_io)
    (mat_block_size : block_2d_size) (order : option block_exec_order)
  : option block_compute_task :=
  num_block_rows ← ceil_div (io_num_rows _io) (bs_num_rows mat_block_size);
  order ← order;
  Some {| bct_buf := task_buf_init PAGE_SIZE _io;
          block_size := mat_block_size;
          bct_num_block_rows := num_block_rows;
          exec_order :=
            if is_valid_size order num_block_rows num_block_rows
            then order else seq_exec_order |}.

(** ** The sparse matrix index ([sparse_matrix_format.cpp]) *)

Record matrix_header := {
  header_num_rows : nat;
  header_num_cols : nat;
  get_2d_block_size : block_2d_size;
}.

(** A [sparse_matrix_index] object: the header followed by the array [offs]
    it was allocated with. *)
Record sparse_matrix_index := {
  get_header : matrix_header;
  offs : list Z;
}.

Section SparseMatrixIndex.

(** [block_2d_size::cal_num_block_rows] is declared outside the sources and
    is a parameter. *)
Variable cal_num_block_rows : block_2d_size -> nat -> nat.

(** [sparse_matrix_index::create]; [alloc_ok] tells whether
    [posix_memalign] succeeded. *)
Definition sparse_matrix_index_create (alloc_ok : bool)
    (header : matrix_header) (offs : list Z)
  : option sparse_matrix_index * log :=
  let block_size := get_2d_block_size header in
  if bool_decide (length offs ≠
        (cal_num_block_rows block_size (header_num_rows header) + 1)%nat)
  then (None, ["There are an incorrect number of offsets"%string])
  else if negb alloc_ok
  then (None, ["Can't allocate memory"%string])
  else (Some {| get_header := header; offs := offs |}, []).

(** [sparse_matrix_index::get_num_block_rows]. *)
Definition get_num_block_rows (idx : sparse_matrix_index) : nat :=
  let block_size := get_2d_block_size (get_header idx) in
  cal_num_block_rows block_size (header_num_rows (get_header idx)).

(** Modelled from the spec: [get_num_entries] is declared in
    [sparse_matrix_format.h], which is not among the sources. [create] stores
    one offset per block row plus one, "the end of the last block row", and
    [dump] writes [get_size(get_num_entries())] bytes of the object, so the
    number of entries is the number of block rows plus one. *)
Definition get_num_entries (idx : sparse_matrix_index) : nat :=
  (get_num_block_rows idx + 1)%nat.

(** [sparse_matrix_index::get_block_row_off]. The first component is [None]
    when the read [offs[idx]] falls outside the stored array. *)
Definition get_block_row_off (this : sparse_matrix_index) (idx : nat)
  : option Z * log :=
  if bool_decide (get_num_entries this ≤ idx)%nat
  then (Some (-1), ["get_block_row_off: out of range."%string])
  else (offs this !! idx, []).

End SparseMatrixIndex.

(** What [sparse_matrix_index::load] finds under the name it is given: no
    file that opens, a file of which nothing can be read, or the bytes of a
    file, which are a header and the offsets that follow it. *)
Inductive index_file :=
| index_file_missing
| index_file_unreadable
| index_file_content (header : matrix_header) (offs : list Z).

(** [sparse_matrix_index::load] ([sparse_matrix_format.cpp] 110-130): the
    bytes of the file become the object as they are; the number of offsets
    is not compared with the header. The file name and [strerror] that the
    two messages are formatted with are left out. *)
Definition sparse_matrix_index_load (file : index_file)
  : option sparse_matrix_index * log :=
  match file with
  | index_file_missing => (None, ["can't open %1%: %2%"%string])
  | index_file_unreadable => (None, ["can't read %1%: %2%"%string])
  | index_file_content header offs =>
      (Some {| get_header := header; offs := offs |}, [])
  end.

(** ** The sparse matrix classes ([sparse_matrix.h], [sparse_matrix.cpp]) *)

(** The data members of the base class [sparse_matrix]. *)
Record sparse_matrix_base := {
  is_fg : bool;
  nrows : Z;
  ncols : Z;
  symmetric : bool;
}.

(** The constructor for the FlashGraph format. *)
Definition sparse_matrix_fg (num_vertices : Z) (symmetric : bool)
  : sparse_matrix_base :=
  {| is_fg := true; nrows := num_vertices; ncols := num_vertices;
     symmetric := symmetric |}.

(** The constructor for the native 2D-partitioned format. *)
Definition sparse_matrix_2d (nrows ncols : Z) (symmetric : bool)
  : sparse_matrix_base :=
  {| is_fg := false; nrows := nrows; ncols := ncols; symmetric := symmetric |}.

(** [sparse_matrix::transpose]. *)
Definition sparse_matrix_transpose (b : sparse_matrix_base)
  : sparse_matrix_base :=
  let tmp := nrows b in
  {| is_fg := is_fg b; nrows := ncols b; ncols := tmp;
     symmetric := symmetric b |}.

(** The members of a [block_sparse_matrix]; the I/O factory is a handle that
    no computation here reads. *)
Record block_sparse_matrix_obj := {
  bsm_base : sparse_matrix_base;
  bsm_block_size : block_2d_size;
  bsm_index : sparse_matrix_index;
}.

(** The four classes derived from [sparse_matrix]. *)
Inductive sparse_matrix :=
| fg_sparse_sym_matrix (base : sparse_matrix_base) (blocks : list Z)
| fg_sparse_asym_matrix (base : sparse_matrix_base)
    (out_blocks in_blocks : list Z) (transposed : bool)
| block_sparse_matrix (m : block_sparse_matrix_obj)
| block_sparse_asym_matrix (base : sparse_matrix_base)
    (block_size : block_2d_size) (mat t_mat : block_sparse_matrix_obj).

Definition base_of (m : sparse_matrix) : sparse_matrix_base :=
  match m with
  | fg_sparse_sym_matrix b _ => b
  | fg_sparse_asym_matrix b _ _ _ => b
  | block_sparse_matrix o => bsm_base o
  | block_sparse_asym_matrix b _ _ _ => b
  end.

Definition get_num_rows (m : sparse_matrix) : Z := nrows (base_of m).
Definition get_num_cols (m : sparse_matrix) : Z := ncols (base_of m).
Definition is_symmetric (m : sparse_matrix) : bool := symmetric (base_of m).

(** The virtual method [transpose] in each class. *)
Definition transpose (m : sparse_matrix) : sparse_matrix :=
  match m with
  | fg_sparse_sym_matrix b blocks => fg_sparse_sym_matrix b blocks
  | fg_sparse_asym_matrix b out_blocks in_blocks transposed =>
      fg_sparse_asym_matrix (sparse_matrix_transpose b) out_blocks in_blocks
        (negb transposed)
  | block_sparse_matrix o => block_sparse_matrix o
  | block_sparse_asym_matrix b bs mat t_mat =>
      let tmp := mat in
      block_sparse_asym_matrix (sparse_matrix_transpose b) bs t_mat tmp
  end.

(** The index that [init_io_gens] reads in the asymmetric FlashGraph
    matrix: [transposed ? in_blocks : out_blocks]. *)
Definition fg_asym_io_blocks (m : sparse_matrix) : option (list Z) :=
  match m with
  | fg_sparse_asym_matrix _ out_blocks in_blocks transposed =>
      Some (if transposed then in_blocks else out_blocks)
  | _ => None
  end.

(** The constructors as [sparse_matrix::create] calls them. *)
Definition create_fg_sym (num_vertices : Z) (blocks : list Z) : sparse_matrix :=
  fg_sparse_sym_matrix (sparse_matrix_fg num_vertices true) blocks.

Definition create_fg_asym (num_vertices : Z) (out_blocks in_blocks : list Z)
  : sparse_matrix :=
  fg_sparse_asym_matrix (sparse_matrix_fg num_vertices false)
    out_blocks in_blocks false.

Definition new_block_sparse_matrix (index : sparse_matrix_index)
  : block_sparse_matrix_obj :=
  let h := get_header index in
  {| bsm_base := sparse_matrix_2d (Z.of_nat (header_num_rows h))
                   (Z.of_nat (header_num_cols h)) true;
     bsm_block_size := get_2d_block_size h;
     bsm_index := index |}.

Definition create_block (index : sparse_matrix_index) : sparse_matrix :=
  block_sparse_matrix (new_block_sparse_matrix index).

Definition create_block_asym (index t_index : sparse_matrix_index)
  : sparse_matrix :=
  let h := get_header index in
  block_sparse_asym_matrix
    (sparse_matrix_2d (Z.of_nat (header_num_rows h))
       (Z.of_nat (header_num_cols h)) false)
    (get_2d_block_size h)
    (new_block_sparse_matrix index) (new_block_sparse_matrix t_index).

(** ** Choosing the multiply order ([sparse_matrix.cpp] 610-626) *)

Section MultiplyOrder.

(** The test [log2_nbr != floor(log2_nbr)] is made on [double]s through the
    C library; [log2_is_whole n] stands for [log2(n) == floor(log2(n))] and
    is a parameter, as are [hilbert_xy2d] and the configuration flag
    [matrix_conf.use_hilbert_order()]. *)
Variable log2_is_whole : nat -> bool.
Variable hilbert_xy2d : nat -> nat -> nat -> nat.
Variable use_hilbert_order : bool.

(** [block_sparse_matrix::get_multiply_order]; [None] is the empty
    pointer. *)
Definition block_get_multiply_order (num_block_rows num_block_cols : nat)
  : option block_exec_order * log :=
  if bool_decide (num_block_rows ≠ num_block_cols) then
    (None, ["hilbert order requires a square."%string])
  else if negb (log2_is_whole num_block_rows) then
    (None, ["hilbert order requires a dimension of 2^n"%string])
  else if use_hilbert_order then
    (Some (hilbert_exec_order hilbert_xy2d num_block_rows), [])
  else
    (Some seq_exec_order, []).

(** The virtual method [get_multiply_order] in each class. *)
Definition get_multiply_order (m : sparse_matrix)
    (num_block_rows num_block_cols : nat) : option block_exec_order * log :=
  match m with
  | fg_sparse_sym_matrix _ _ => (Some seq_exec_order, [])
  | fg_sparse_asym_matrix _ _ _ _ => (Some seq_exec_order, [])
  | block_sparse_matrix _ =>
      block_get_multiply_order num_block_rows num_block_cols
  | block_sparse_asym_matrix _ _ mat _ =>
      block_get_multiply_order num_block_rows num_block_cols
  end.

End MultiplyOrder.

(** ** The graph and the k-core vertex ([k_core.cpp] 35-119) *)

(** [vertex_id_t]; ids index the vertex store and the graph file. *)
Abbreviation vertex_id_t := nat (only parsing).

Inductive edge_type := IN_EDGE | OUT_EDGE | BOTH_EDGES.

(** A [page_vertex]: the adjacency view of one vertex of a directed graph,
    its in-neighbours and its out-neighbours in file order. The graph file is
    the list of these views, indexed by vertex id. *)
Record page_vertex := {
  in_neighbors : list vertex_id_t;
  out_neighbors : list vertex_id_t;
}.

Abbreviation graph_file := (list page_vertex) (only parsing).

Definition neighbors (v : page_vertex) (E : edge_type) : list vertex_id_t :=
  match E with
  | IN_EDGE => in_neighbors v
  | OUT_EDGE => out_neighbors v
  | BOTH_EDGES => in_neighbors v ++ out_neighbors v
  end.

Definition get_num_edges (v : page_vertex) (E : edge_type) : nat :=
  length (neighbors v E).

(** [get_neigh_seq_it(E, start, end)]: the neighbours at positions
    [start] to [end - 1]. *)
Definition get_neigh_seq_it (v : page_vertex) (E : edge_type)
    (start end_ : nat) : list vertex_id_t :=
  take (end_ - start) (drop start (neighbors v E)).

(** Modelled from the spec: the vertex index file and the tools that build
    it are not among the sources. The index gives, per vertex, the number of
    in-edges and of out-edges of the vertex in the graph file. *)
Definition index_get_num_in_edges (g : graph_file) (id : vertex_id_t) : Z :=
  Z.of_nat (length (from_option in_neighbors [] (g !! id))).

(** Modelled from the spec: see [index_get_num_in_edges]. *)
Definition index_get_num_out_edges (g : graph_file) (id : vertex_id_t) : Z :=
  Z.of_nat (length (from_option out_neighbors [] (g !! id))).

(** Modelled from the spec: a directed graph given by its edge list
    [(src, dst)] over the vertices [0 .. n-1], as the end-to-end scenarios
    give it: an edge is an out-edge of its source and an in-edge of its
    destination. The specification counts a self-loop once in the degree of
    its vertex: an edge [(v, v)] is kept once, among the out-edges of [v]. *)
Definition graph_of_edges (n : nat) (edges : list (nat * nat)) : graph_file :=
  (fun v =>
     {| in_neighbors :=
          fst <$> filter (fun e => snd e = v /\ fst e ≠ v) edges;
        out_neighbors := snd <$> filter (fun e => fst e = v) edges |})
  <$> seq 0 n.

(** The state of a [kcore_vertex]: [id] and [num_in_edges] from the base
    classes [compute_vertex] and [compute_directed_vertex], then the two
    members of the class. *)
Record kcore_vertex := {
  get_id : vertex_id_t;
  get_num_in_edges : Z;
  deleted : bool;
  degree : Z;
}.

(** The constructor [kcore_vertex(id, index)]. *)
Definition kcore_vertex_new (index : graph_file) (id : vertex_id_t)
  : kcore_vertex :=
  {| get_id := id;
     get_num_in_edges := index_get_num_in_edges index id;
     deleted := false;
     degree := to_vsize (index_get_num_in_edges index id
                         + index_get_num_out_edges index id) |}.

Definition is_deleted (v : kcore_vertex) : bool := deleted v.

Definition _delete (v : kcore_vertex) : kcore_vertex :=
  {| get_id := get_id v; get_num_in_edges := get_num_in_edges v;
     deleted := true; degree := degree v |}.

Definition get_degree (v : kcore_vertex) : Z := degree v.

(** [kcore_vertex::run(prog)]. The result is the list of vertex ids handed
    to [request_vertices]; the vertex itself does not change. *)
Definition kcore_vertex_run (CURRENT_K : Z) (v : kcore_vertex)
  : list vertex_id_t :=
  if bool_decide (degree v > CURRENT_K) then []
  else if negb (is_deleted v) then [get_id v]
  else [].

(** [multicast_delete_msg]: the destinations of the multicast, one delivery
    of [deleted_message] per neighbour of the given kind. *)
Definition multicast_delete_msg (vertex : page_vertex) (E : edge_type)
  : list vertex_id_t :=
  let num_dests := get_num_edges vertex E in
  get_neigh_seq_it vertex E 0 num_dests.

(** [kcore_vertex::run(prog, vertex)]: the new state of the vertex and the
    destinations of the messages it sent, in sending order. *)
Definition kcore_vertex_run_on_vertex (CURRENT_K : Z) (v : kcore_vertex)
    (vertex : page_vertex) : kcore_vertex * list vertex_id_t :=
  if is_deleted v then (v, [])
  else if bool_decide (get_degree v < CURRENT_K) then
    (_delete v,
     multicast_delete_msg vertex IN_EDGE ++ multicast_delete_msg vertex OUT_EDGE)
  else (v, []).

(** [kcore_vertex::run_on_message]; [degree--] is on a [vsize_t]. *)
Definition kcore_vertex_run_on_message (v : kcore_vertex) : kcore_vertex :=
  if is_deleted v then v
  else {| get_id := get_id v; get_num_in_edges := get_num_in_edges v;
          deleted := deleted v; degree := to_vsize (degree v - 1) |}.

(** Modelled from the spec: [compute_vertex::get_num_edges] is declared in
    [graph_engine.h] and defined outside the sources; it is the number of
    edges of the vertex, in-edges and out-edges together. *)
Definition compute_vertex_get_num_edges (g : graph_file) (v : kcore_vertex)
  : Z :=
  to_vsize (index_get_num_in_edges g (get_id v)
            + index_get_num_out_edges g (get_id v)).

(** [compute_directed_vertex::get_num_out_edges] ([graph_engine.h] 149). *)
Definition get_num_out_edges (g : graph_file) (v : kcore_vertex) : Z :=
  to_vsize (compute_vertex_get_num_edges g v - get_num_in_edges v).

(** [activate_k_filter::keep] ([k_core.cpp] 280-283). *)
Definition activate_k_filter_keep (g : graph_file) (min : Z) (v : kcore_vertex)
  : bool :=
  bool_decide (to_vsize (get_num_in_edges v + get_num_out_edges g v) < min).

(** ** The level loop of the engine *)

(** The state the level loop works on: the vertex state store indexed by
    vertex id, the vertices active in the level about to run, and the
    messages sent in the previous level, each given by its destination. *)
Record level_state := {
  vertex_states : list kcore_vertex;
  current : list vertex_id_t;
  inbox : list vertex_id_t;
}.

(** Modelled from the spec: the engine ([graph_engine.cpp], the worker
    threads and the message fabric) is not among the sources. Delivery of
    one message: [run_on_message] on the destination vertex. *)
Definition deliver_message (vs : list kcore_vertex) (dst : vertex_id_t)
  : list kcore_vertex :=
  alter kcore_vertex_run_on_message dst vs.

(** Modelled from the spec: when the read of a requested vertex [rid]
    completes, the worker calls [run(prog, adjacency_view)] on the requesting
    vertex [vid]; the messages it sends are appended to the outgoing
    buffer. *)
Definition complete_request (g : graph_file) (CURRENT_K : Z) (vid : vertex_id_t)
    (acc : list kcore_vertex * list vertex_id_t) (rid : vertex_id_t)
  : list kcore_vertex * list vertex_id_t :=
  match g !! rid, acc.1 !! vid with
  | Some pv, Some v =>
      let r := kcore_vertex_run_on_vertex CURRENT_K v pv in
      (<[vid := r.1]> acc.1, acc.2 ++ r.2)
  | _, _ => acc
  end.

(** Modelled from the spec: a worker runs one active vertex: [run(prog)],
    then [complete_request] for every vertex it requested. *)
Definition process_vertex (g : graph_file) (CURRENT_K : Z)
    (acc : list kcore_vertex * list vertex_id_t) (vid : vertex_id_t)
  : list kcore_vertex * list vertex_id_t :=
  match acc.1 !! vid with
  | None => acc
  | Some v =>
      foldl (complete_request g CURRENT_K vid) acc (kcore_vertex_run CURRENT_K v)
  end.

(** Modelled from the spec: one level. The messages of the previous level
    are delivered before any [run] of this level; every active vertex runs
    once; the messages sent are delivered in the next level, whose active
    set is the set of their destinations, each taken once. *)
Definition run_level (g : graph_file) (CURRENT_K : Z) (st : level_state)
  : level_state :=
  let vs1 := foldl deliver_message (vertex_states st) (inbox st) in
  let r := foldl (process_vertex g CURRENT_K) (vs1, []) (current st) in
  {| vertex_states := r.1; current := remove_dups r.2; inbox := r.2 |}.

(** Modelled from the spec: [graph_engine::start(filter)] activates the
    vertices the filter keeps. *)
Definition start (g : graph_file) (keep : kcore_vertex -> bool)
    (vs : list kcore_vertex) : level_state :=
  {| vertex_states := vs;
     current := get_id <$> filter (fun v => keep v = true) vs;
     inbox := [] |}.

(** Modelled from the spec: [graph_engine::wait4complete] returns when a
    level ends with no vertex active for the next one. [fuel] bounds the
    number of levels; [None] means the bound was reached first. *)
Fixpoint wait4complete (fuel : nat) (g : graph_file) (CURRENT_K : Z)
    (st : level_state) : option (list kcore_vertex) :=
  match fuel with
  | O => None
  | S fuel =>
      let st' := run_level g CURRENT_K st in
      match current st' with
      | [] => Some (vertex_states st')
      | _ => wait4complete fuel g CURRENT_K st'
      end
  end.

(** One pass of the loop body of [main] up to [wait4complete]: peel with
    the given [CURRENT_K]. *)
Definition kcore_peel (fuel : nat) (g : graph_file) (CURRENT_K : Z)
    (vs : list kcore_vertex) : option (list kcore_vertex) :=
  wait4complete fuel g CURRENT_K
    (start g (activate_k_filter_keep g CURRENT_K) vs).

(** ** The graph engine as queries see it ([graph_engine.h]) *)

(** [in_mem_vertex_info], of which [get_vertex_edges] reads the size of the
    vertex in the graph file. *)
Record in_mem_vertex_info := { get_ext_mem_size : Z }.

Record graph_engine := {
  vertex_header_size : Z;
  vertex_infos : list in_mem_vertex_info;
  num_threads : nat;
}.

Definition sizeof_vertex_id_t : Z := 4.

(** [graph_engine::get_vertex_info]: the entry of the index. *)
Definition get_vertex_info (graph : graph_engine) (id : vertex_id_t)
  : in_mem_vertex_info :=
  default {| get_ext_mem_size := 0 |} (vertex_infos graph !! id).

(** [graph_engine::get_vertex_edges] ([graph_engine.h] 403-406); the result
    is a [vsize_t]. The size of a vertex in the file is not below the size of
    its header, so the subtraction does not wrap around. *)
Definition get_vertex_edges (graph : graph_engine) (id : vertex_id_t) : Z :=
  let info := get_vertex_info graph id in
  to_vsize ((get_ext_mem_size info - vertex_header_size graph)
            / sizeof_vertex_id_t).

(** Modelled from the spec: the external-memory vertex format is not among
    the sources. [get_vertex_edges] reads it as a header followed by one
    [vertex_id_t] per edge, which is the size given here to a vertex of a
    directed graph. *)
Definition directed_vertex_ext_mem_size (header_size : Z) (pv : page_vertex)
  : Z :=
  header_size
  + sizeof_vertex_id_t * Z.of_nat (length (in_neighbors pv)
                                   + length (out_neighbors pv)).

(** Modelled from the spec: [graph_engine::create] scans the index and
    builds the engine over the graph file. *)
Definition graph_engine_create (header_size : Z) (nthreads : nat)
    (g : graph_file) : graph_engine :=
  {| vertex_header_size := header_size;
     vertex_infos :=
       (fun pv => {| get_ext_mem_size :=
                       directed_vertex_ext_mem_size header_size pv |}) <$> g;
     num_threads := nthreads |}.

(** Modelled from the spec: the vertex state store is created at engine
    construction, one [kcore_vertex] per vertex of the index. *)
Definition create_vertex_states (g : graph_file) : list kcore_vertex :=
  kcore_vertex_new g <$> seq 0 (length g).

(** The interface [vertex_query]: [run] and [merge] update the query they
    are called on, [clone] makes a new one. *)
Class vertex_query (Q : Type) := {
  query_run : graph_engine -> kcore_vertex -> Q -> Q;
  query_merge : graph_engine -> Q -> Q -> Q;
  query_clone : Q -> Q;
}.

(** Modelled from the spec: [graph_engine::query_on_all] clones the query
    once per worker, runs each clone over the vertices of that worker's
    partition and merges the clones into the query one after the other.
    [parts] are the partitions, one list of vertices per worker. *)
Definition query_on_all {Q} `{vertex_query Q} (graph : graph_engine)
    (parts : list (list kcore_vertex)) (query : Q) : Q :=
  foldl (fun q part =>
           query_merge graph q
             (foldl (fun c v => query_run graph v c) (query_clone query) part))
        query parts.

(** Modelled from the spec: the partitioner, here the modulo one: worker
    [i] of [nthreads] owns the vertices whose id is [i] modulo [nthreads]. *)
Definition worker_partitions (nthreads : nat) (vs : list kcore_vertex)
  : list (list kcore_vertex) :=
  (fun i => filter (fun v => (get_id v mod nthreads)%nat = i) vs)
  <$> seq 0 nthreads.

(** ** The queries of the k-core program ([k_core.cpp] 142-199) *)

Record count_vertex_query := { get_num : Z }.

Definition count_vertex_query_new : count_vertex_query := {| get_num := 0 |}.

Definition count_vertex_query_run (graph : graph_engine) (v : kcore_vertex)
    (this : count_vertex_query) : count_vertex_query :=
  if is_deleted v then {| get_num := to_size (get_num this + 1) |}
  else this.

Definition count_vertex_query_merge (graph : graph_engine)
    (this q : count_vertex_query) : count_vertex_query :=
  {| get_num := to_size (get_num this + get_num q) |}.

Global Instance count_vertex_query_is_query : vertex_query count_vertex_query :=
  {| query_run := count_vertex_query_run;
     query_merge := count_vertex_query_merge;
     query_clone := fun _ => count_vertex_query_new |}.

Record max_degree_query := { get_max_degree : Z }.

Definition max_degree_query_new : max_degree_query := {| get_max_degree := 0 |}.

Definition max_degree_query_run (graph : graph_engine) (v : kcore_vertex)
    (this : max_degree_query) : max_degree_query :=
  if bool_decide (get_vertex_edges graph (get_id v) > get_max_degree this)
  then {| get_max_degree := get_vertex_edges graph (get_id v) |}
  else this.

Definition max_degree_query_merge (graph : graph_engine)
    (this mdq : max_degree_query) : max_degree_query :=
  if bool_decide (get_max_degree this < get_max_degree mdq)
  then {| get_max_degree := get_max_degree mdq |}
  else this.

Global Instance max_degree_query_is_query : vertex_query max_degree_query :=
  {| query_run := max_degree_query_run;
     query_merge := max_degree_query_merge;
     query_clone := fun _ => max_degree_query_new |}.

(** ** The command lines *)

(** The C library's [atol], which is [strtol] in base 10: leading white
    space, an optional sign, then decimal digits up to the first other
    character; a number outside the range of [long] gives [LONG_MAX] or
    [LONG_MIN]. *)
Definition is_digit (c : ascii) : bool :=
  let n := nat_of_ascii c in
  bool_decide (48 <= n)%nat && bool_decide (n <= 57)%nat.

Definition is_space (c : ascii) : bool :=
  let n := nat_of_ascii c in
  bool_decide (n = 32)%nat || (bool_decide (9 <= n)%nat && bool_decide (n <= 13)%nat).

Definition LONG_MAX : Z := 2 ^ 63 - 1.
Definition LONG_MIN : Z := - 2 ^ 63.

Fixpoint atol_digits (s : string) (acc : Z) : Z :=
  match s with
  | String c s' =>
      if is_digit c
      then atol_digits s' (acc * 10 + (Z.of_nat (nat_of_ascii c) - 48))
      else acc
  | EmptyString => acc
  end.

(** The number that the sign and the digits denote. *)
Fixpoint atol_number (s : string) : Z :=
  match s with
  | String c s' =>
      if is_space c then atol_number s'
      else if bool_decide (c = "-"%char) then - atol_digits s' 0
      else if bool_decide (c = "+"%char) then atol_digits s' 0
      else atol_digits s 0
  | EmptyString => 0
  end.

Definition atol (s : string) : Z :=
  Z.max LONG_MIN (Z.min LONG_MAX (atol_number s)).

(** What a command line did. [cli_exit code] is a call of [exit(code)]
    made before any engine exists; a process that calls [exit(-1)] ends
    with status 255. *)
Inductive cli_result (A : Type) :=
| cli_exit (code : Z) (err : list string)
| cli_abort
| cli_run (a : A).
Arguments cli_exit {A} code err.
Arguments cli_abort {A}.
Arguments cli_run {A} a.

(** *** [getopt] *)

(** One return of [getopt]: the option character and [optarg]. *)
Record getopt_return := { opt : ascii; optarg : string }.

(** Whether the option string lists [c], and whether it gives it an
    argument: [None] when [c] is not an option, [Some true] when a colon
    follows it. *)
Fixpoint getopt_takes_arg (optstring : string) (c : ascii) : option bool :=
  match optstring with
  | EmptyString => None
  | String c' rest =>
      if bool_decide (c' = c) && negb (bool_decide (c = ":"%char)) then
        Some (match rest with
              | String ":" _ => true
              | _ => false
              end)
      else getopt_takes_arg rest c
  end.

(** The returns of [getopt] for the option characters of one element of
    [argv] after its dash. [next] is the element that follows, if there is
    one; the second component tells whether an option took it as its
    argument. An option with an argument takes the rest of the element, or,
    when nothing is left of it, the next element; a character that is not
    an option, or an option whose argument is missing, is returned as ['?']. *)
Fixpoint getopt_element (optstring : string) (chars : string)
    (next : option string) : list getopt_return * bool :=
  match chars with
  | EmptyString => ([], false)
  | String c rest =>
      match getopt_takes_arg optstring c with
      | None =>
          let r := getopt_element optstring rest next in
          ({| opt := "?"; optarg := "" |} :: r.1, r.2)
      | Some false =>
          let r := getopt_element optstring rest next in
          ({| opt := c; optarg := "" |} :: r.1, r.2)
      | Some true =>
          match rest with
          | String _ _ => ([{| opt := c; optarg := rest |}], false)
          | EmptyString =>
              match next with
              | Some a => ([{| opt := c; optarg := a |}], true)
              | None => ([{| opt := "?"; optarg := "" |}], false)
              end
          end
      end
  end.

(** Modelled from the manual of the C library: the returns of [getopt] up
    to its -1, over the elements of [argv] after [argv[0]], for an option
    string that starts with a letter. An element that starts with a dash and
    is longer than the dash holds options; ["--"] ends the scan; any other
    element is an operand, which the scan passes over and goes on from. *)
Fixpoint getopt (optstring : string) (args : list string)
  : list getopt_return :=
  match args with
  | [] => []
  | a :: rest =>
      if bool_decide (a = "--"%string) then []
      else
        match a with
        | String "-" (String c chars) =>
            let r := getopt_element optstring (String c chars) (head rest) in
            match rest with
            | [] => r.1
            | next :: rest' =>
                r.1 ++ (if r.2 then getopt optstring rest'
                        else getopt optstring rest)
            end
        | _ => getopt optstring rest
        end
  end.

(** *** [run_kcore] of the test driver ([test_algs.cpp] 455-493) *)

Record run_kcore_opts := { opt_k : Z; opt_kmax : Z; opt_skips : bool }.

(** The body of the [getopt] loop of [run_kcore] over the returns of
    [getopt]: [-d], [-k value] and [-m value], any other return printing
    the usage and aborting. [size_t k = atol(...)]. *)
Fixpoint run_kcore_switch (opts : list getopt_return) (o : run_kcore_opts)
  : option run_kcore_opts :=
  match opts with
  | [] => Some o
  | r :: rest =>
      if bool_decide (opt r = "k"%char) then
        run_kcore_switch rest
          {| opt_k := to_size (atol (optarg r)); opt_kmax := opt_kmax o;
             opt_skips := opt_skips o |}
      else if bool_decide (opt r = "m"%char) then
        run_kcore_switch rest
          {| opt_k := opt_k o; opt_kmax := to_size (atol (optarg r));
             opt_skips := opt_skips o |}
      else if bool_decide (opt r = "d"%char) then
        run_kcore_switch rest
          {| opt_k := opt_k o; opt_kmax := opt_kmax o; opt_skips := false |}
      else None
  end.

(** The [getopt] loop of [run_kcore] on the arguments that follow the
    name of the algorithm, with the option string ["dk:m:"]. *)
Definition run_kcore_getopt (args : list string) (o : run_kcore_opts)
  : option run_kcore_opts :=
  run_kcore_switch (getopt "dk:m:" args) o.

(** [run_kcore]: [cli_run o] is the call [compute_kcore(graph, k, kmax,
    skips)], which creates and starts the engine. *)
Definition run_kcore (args : list string) : cli_result run_kcore_opts :=
  match run_kcore_getopt args
          {| opt_k := 2; opt_kmax := 0; opt_skips := true |} with
  | None => cli_abort
  | Some o =>
      if bool_decide (opt_k o < 2) then
        cli_exit (-1) ["[Error]: kmin cannot be < 2"%string]
      else cli_run o
  end.

(** *** [main] of the k-core application ([k_core.cpp] 218-321) *)

(** One result line: the [CURRENT_K] and the count that [printf] shows. *)
Record result_line := { line_k : Z; line_in_k_core : Z }.

(** What [main] did once its arguments were accepted: the [kmax] it
    announced and the result lines, or [None] when the bound on levels or on
    loop iterations was reached. [main] then returns 0. *)
Record main_run := {
  run_kmin : Z;
  run_kmax : Z;
  run_lines : option (list result_line);
}.

(** The [for] loop over [CURRENT_K], a [vsize_t] counter. [iters] bounds
    the number of iterations and [fuel] the levels of each run. *)
Fixpoint kcore_loop (iters fuel : nat) (g : graph_file) (graph : graph_engine)
    (CURRENT_K kmax : Z) (vs : list kcore_vertex) (lines : list result_line)
  : option (list result_line) :=
  if bool_decide (CURRENT_K <= kmax) then
    match iters with
    | O => None
    | S iters =>
        vs' ← kcore_peel fuel g CURRENT_K vs;
        let cvq :=
          query_on_all graph (worker_partitions (num_threads graph) vs')
            count_vertex_query_new in
        let in_k_core := get_num cvq in
        kcore_loop iters fuel g graph (to_vsize (CURRENT_K + 1)) kmax vs'
          (lines ++ [{| line_k := CURRENT_K; line_in_k_core := in_k_core |}])
    end
  else Some lines.

(** [main] on the arguments that remain after the [getopt] loop,
    [conf_file graph_file index_file kmin [kmax]]. The graph [g] is the
    content of the graph and index files; [header_size] and [nthreads] come
    from the graph format and the configuration. *)
Definition main (header_size : Z) (nthreads iters fuel : nat) (g : graph_file)
    (argv : list string) : cli_result main_run :=
  let argc := length argv in
  if bool_decide (argc < 4)%nat then cli_exit (-1) []
  else
    let kmin := to_vsize (atol (default ""%string (argv !! 3%nat))) in
    let graph := graph_engine_create header_size nthreads g in
    let vs := create_vertex_states g in
    let kmax :=
      if bool_decide (4 < argc)%nat
      then to_vsize (atol (default ""%string (argv !! 4%nat)))
      else
        get_max_degree
          (query_on_all graph (worker_partitions nthreads vs)
             max_degree_query_new) in
    cli_run {| run_kmin := kmin; run_kmax := kmax;
               run_lines := kcore_loop iters fuel g graph kmin kmax vs [] |}.

(** ** The scenario graph and the Hilbert curve of the scenarios *)

(** Graph E1 of the end-to-end scenarios. *)
Definition E1 : graph_file :=
  graph_of_edges 6
    [(0, 1); (1, 2); (2, 0); (2, 3); (3, 4); (4, 5); (5, 3)]%nat.

(** Modelled from the spec: [hilbert_xy2d] of [hilbert_curve.h], which is
    not among the sources: the distance of the cell [(x, y)] along the
    Hilbert curve that fills an [n × n] grid, [n] a power of two, by the usual
    quadrant-by-quadrant conversion. [s] is the side of the quadrant looked
    at, halved [steps] times. *)
Fixpoint hilbert_xy2d_loop (steps n s x y d : nat) : nat :=
  match steps with
  | O => d
  | S steps =>
      if bool_decide (s = 0)%nat then d
      else
        let rx := if bool_decide (0 < Nat.land x s)%nat then 1%nat else 0%nat in
        let ry := if bool_decide (0 < Nat.land y s)%nat then 1%nat else 0%nat in
        let d := (d + s * s * Nat.lxor (3 * rx) ry)%nat in
        let x1 := if bool_decide (ry = 0 ∧ rx = 1)%nat then (n - 1 - x)%nat else x in
        let y1 := if bool_decide (ry = 0 ∧ rx = 1)%nat then (n - 1 - y)%nat else y in
        let x2 := if bool_decide (ry = 0)%nat then y1 else x1 in
        let y2 := if bool_decide (ry = 0)%nat then x1 else y1 in
        hilbert_xy2d_loop steps n (s / 2)%nat x2 y2 d
  end.

(** Modelled from the spec: see [hilbert_xy2d_loop]. *)
Definition hilbert_xy2d_known (n x y : nat) : nat :=
  hilbert_xy2d_loop n n (n / 2)%nat x y 0%nat.

(** The coordinates of an [n × n] grid in row-major order. *)
Definition grid_coordinates (n : nat) : list (nat * nat) :=
  seq 0 n ≫= (fun i => pair i <$> seq 0 n).

(** The entries that [exec] walks for a Hilbert order. *)
Definition hilbert_orders_of (o : block_exec_order) : list coordinate_order :=
  match o with
  | seq_exec_order => []
  | hilbert_exec_order_obj _ hilbert_orders => hilbert_orders
  end.

(** Powers of two, the dimensions a Hilbert order is meant for. *)
Definition is_power_of_two (n : nat) : bool :=
  bool_decide (n = 2 ^ Nat.log2 n)%nat.

(** The entries of a Hilbert order carry the Hilbert distance of their
    coordinates. *)
Definition keyed_by (hilbert_xy2d : nat -> nat -> nat -> nat) (n : nat)
    (e : coordinate_order) : Prop :=
  order e = hilbert_xy2d n (coo e).1 (coo e).2.

(** The vertices a query would count as alive, and as deleted. *)
Definition num_alive (vs : list kcore_vertex) : Z :=
  Z.of_nat (length (filter (fun v => is_deleted v = false) vs)).

Definition num_deleted (vs : list kcore_vertex) : Z :=
  Z.of_nat (length (filter (fun v => is_deleted v = true) vs)).

(** The largest element of a list of sizes, 0 for the empty list. *)
Definition max_of (l : list Z) : Z := foldr Z.max 0 l.

(** The invariant of one level, for a store that had [n0] alive vertices
    when the level started: no vertex came back to life, and if a message
    was sent then a vertex was deleted. *)
Definition level_progress (n0 : Z)
    (acc : list kcore_vertex * list vertex_id_t) : Prop :=
  num_alive acc.1 <= n0 /\ (acc.2 = [] \/ num_alive acc.1 < n0).

(** What a [max_degree_query] reads of a vertex. *)
Definition edges_of (graph : graph_engine) (v : kcore_vertex) : Z :=
  get_vertex_edges graph (get_id v).

(** The degree of a vertex in the graph file: in-edges plus out-edges. *)
Definition in_plus_out (pv : page_vertex) : Z :=
  Z.of_nat (length (in_neighbors pv) + length (out_neighbors pv)).

(** ** Predicates used in the statements *)

(** The request of a task whose [matrix_io] starts at [o] and has [s]
    bytes, with the buffer fields as the constructors compute them. *)
Definition page_aligned_request (PAGE_SIZE o s : Z) (r : io_request) : Prop :=
  get_offset (req_loc r) = ROUND_PAGE PAGE_SIZE o
  /\ get_offset (req_loc r) mod PAGE_SIZE = 0
  /\ (get_offset (req_loc r) <= o < get_offset (req_loc r) + PAGE_SIZE)
  /\ req_size r mod PAGE_SIZE = 0
  /\ o + s <= get_offset (req_loc r) + req_size r
  /\ get_offset (req_loc r) + req_size r < o + s + PAGE_SIZE.

(** * Part I, continued: further code of the same files, and the workload
    generators of [src/workload.h] *)

(** ** Repeated delivery of messages *)

(** [n] deliveries of a [deleted_message] to one vertex. *)
Definition deliver_n (n : nat) (v : kcore_vertex) : kcore_vertex :=
  Nat.iter n kcore_vertex_run_on_message v.

(** A query as [run] leaves it after the vertices of a list, starting from
    a new query: what one worker computes in [query_on_all]. *)
Definition max_degree_over (graph : graph_engine) (l : list kcore_vertex)
  : max_degree_query :=
  foldl (fun c v => max_degree_query_run graph v c) max_degree_query_new l.

Definition count_over (graph : graph_engine) (l : list kcore_vertex)
  : count_vertex_query :=
  foldl (fun c v => count_vertex_query_run graph v c) count_vertex_query_new l.

(** ** Block-row offsets of a matrix ([sparse_matrix.cpp] 146-163, 374-378,
    473-477, 603-608, 680-683) *)

(** What [get_block_row_offs] did: it threw, or it filled [offs] and
    logged. The vector is [None] when a read fell outside the array of the
    index. *)
Inductive block_row_offs_result :=
| unsupported_exception (msg : string)
| block_row_offs (offs : option (list Z)) (lg : log).

(** The indexes the constructor of [block_compute_task] asks for: the
    [num_block_rows + 1] block rows from [block_row_idx] on. *)
Definition block_row_idxs (block_row_idx num_block_rows : nat) : list nat :=
  (fun i => block_row_idx + i)%nat <$> seq 0 (num_block_rows + 1).

Section BlockRowOffs.

Variable cal_num_block_rows : block_2d_size -> nat -> nat.

(** [block_sparse_matrix::get_block_row_offs]: one call of
    [get_block_row_off] for each index, in the order of the vector. *)
Fixpoint block_get_block_row_offs (index : sparse_matrix_index)
    (block_row_idxs : list nat) : option (list Z) * log :=
  match block_row_idxs with
  | [] => (Some [], [])
  | idx :: rest =>
      let r := get_block_row_off cal_num_block_rows index idx in
      let rs := block_get_block_row_offs index rest in
      (x ← r.1; xs ← rs.1; Some (x :: xs), r.2 ++ rs.2)
  end.

(** The virtual method [get_block_row_offs] in each class. *)
Definition get_block_row_offs (m : sparse_matrix) (block_row_idxs : list nat)
  : block_row_offs_result :=
  match m with
  | fg_sparse_sym_matrix _ _ =>
      unsupported_exception
        "get_block_row_offs isn't supported in fg_sparse_sym_matrix"
  | fg_sparse_asym_matrix _ _ _ _ =>
      unsupported_exception
        "get_block_row_offs isn't supported in fg_sparse_asym_matrix"
  | block_sparse_matrix o =>
      let r := block_get_block_row_offs (bsm_index o) block_row_idxs in
      block_row_offs r.1 r.2
  | block_sparse_asym_matrix _ _ mat _ =>
      let r := block_get_block_row_offs (bsm_index mat) block_row_idxs in
      block_row_offs r.1 r.2
  end.

End BlockRowOffs.

(** ** The whole constructor of a block task ([sparse_matrix.cpp] 130-164) *)

(** [get_block_size] of the four classes. The member of the two classes
    in the FlashGraph format is never set. *)
Definition get_block_size (m : sparse_matrix) : option block_2d_size :=
  match m with
  | fg_sparse_sym_matrix _ _ => None
  | fg_sparse_asym_matrix _ _ _ _ => None
  | block_sparse_matrix o => Some (bsm_block_size o)
  | block_sparse_asym_matrix _ block_size _ _ => Some block_size
  end.

(** A [block_compute_task] as its constructor leaves it: the members of
    the first part, [block_rows] as offsets into the buffer [buf], and what
    [get_block_row_offs] logged. *)
Record block_compute_task_obj := {
  bct_members : block_compute_task;
  block_rows : list Z;
  bct_log : log;
}.

Section BlockComputeTaskNew.

Variable cal_num_block_rows : block_2d_size -> nat -> nat.

(** [block_compute_task::block_compute_task(io, mat, order)].
    [top_left_row_idx] is [io.get_top_left().get_row_idx()]. The result is
    [None] when the constructor does not return an object: the order is the
    empty pointer, the block size has no rows, one of the two assertions
    fails, [get_block_row_offs] throws or a read falls outside the index. *)
Definition block_compute_task_new (PAGE_SIZE : Z) (_io : matrix_io)
    (top_left_row_idx : nat) (mat : sparse_matrix)
    (order : option block_exec_order) : option block_compute_task_obj :=
  block_size ← get_block_size mat;
  t ← block_compute_task_init PAGE_SIZE _io block_size order;
  let num_block_rows := bct_num_block_rows t in
  if bool_decide ((top_left_row_idx mod bs_num_rows block_size)%nat ≠ 0%nat)
  then None
  else
    let block_row_idx := (top_left_row_idx / bs_num_rows block_size)%nat in
    match get_block_row_offs cal_num_block_rows mat
            (block_row_idxs block_row_idx num_block_rows) with
    | unsupported_exception _ => None
    | block_row_offs None _ => None
    | block_row_offs (Some offs) lg =>
        match offs !! 0%nat with
        | None => None
        | Some first =>
            if bool_decide (get_offset (get_loc _io) ≠ first) then None
            else
              Some {| bct_members := t;
                      block_rows := (fun o => o - off (bct_buf t)) <$> offs;
                      bct_log := lg |}
        end
    end.

End BlockComputeTaskNew.

(** What an index with the offsets [offs] answers for [idx]. *)
Definition offset_or_minus_one (offs : list Z) (idx : nat) : Z :=
  default (-1) (offs !! idx).

(** ** Matrix-vector multiplication on blocks ([sparse_matrix.h]
    194-227) *)

(** A [sparse_row_part] as its accessors show it: the row of the part
    inside its block and the columns of its non-zero entries inside the
    block. *)
Record sparse_row_part := {
  get_rel_row_idx : nat;
  rel_col_idxs : list nat;
}.

Section Spmv.

(** The element type [T] of the vectors, with the [0] and the [+] the
    templates use on it. A [type_mem_vector<T>] is carried as the function
    from the index to the element; [get] is its application. *)
Context {T : Type}.
Variable zero : T.
Variable add : T -> T -> T.

(** [type_mem_vector::set]. *)
Definition vector_set (v : nat -> T) (idx : nat) (x : T) : nat -> T :=
  fun k => if decide (k = idx) then x else v k.

(** [block.get_iterator()]: the row parts stored in a block. *)
Variable row_parts : sparse_block_2d -> list sparse_row_part.

(** [block_spmv_task::run_on_row_part]. *)
Definition run_on_row_part (input output : nat -> T) (rpart : sparse_row_part)
    (start_row_idx start_col_idx : nat) : nat -> T :=
  let row_idx := (start_row_idx + get_rel_row_idx rpart)%nat in
  let sum :=
    foldl (fun sum rel_col_idx => add sum (input (start_col_idx + rel_col_idx)%nat))
      zero (rel_col_idxs rpart) in
  vector_set output row_idx (add (output row_idx) sum).

(** [block_spmv_task::run_on_block]. *)
Definition run_on_block (block_size : block_2d_size) (input output : nat -> T)
    (block : sparse_block_2d) : nat -> T :=
  let start_col_idx := (get_block_col_idx block * bs_num_cols block_size)%nat in
  let start_row_idx := (get_block_row_idx block * bs_num_rows block_size)%nat in
  foldl (fun output rpart =>
           run_on_row_part input output rpart start_row_idx start_col_idx)
    output (row_parts block).

(** The output vector after [exec] of an order on a vector of blocks with
    a [block_spmv_task]. *)
Definition spmv_exec (block_size : block_2d_size) (o : block_exec_order)
    (blocks : list (option sparse_block_2d)) (input output : nat -> T)
  : nat -> T :=
  foldl (run_on_block block_size input) output
    (run_on_block_calls (exec o blocks)).

End Spmv.

(** The contribution of a row part to its row, and of a block to the
    rows of the matrix: the pairs of a row and a sum that [run_on_block]
    adds to the output. *)
Definition row_part_update {T} (zero : T) (add : T -> T -> T)
    (input : nat -> T) (start_row_idx start_col_idx : nat)
    (rpart : sparse_row_part) : nat * T :=
  ((start_row_idx + get_rel_row_idx rpart)%nat,
   foldl (fun sum rel_col_idx => add sum (input (start_col_idx + rel_col_idx)%nat))
     zero (rel_col_idxs rpart)).

Definition block_updates {T} (zero : T) (add : T -> T -> T)
    (row_parts : sparse_block_2d -> list sparse_row_part)
    (block_size : block_2d_size) (input : nat -> T) (block : sparse_block_2d)
  : list (nat * T) :=
  row_part_update zero add input
    (get_block_row_idx block * bs_num_rows block_size)%nat
    (get_block_col_idx block * bs_num_cols block_size)%nat
  <$> row_parts block.

Definition apply_update {T} (add : T -> T -> T) (output : nat -> T)
    (u : nat * T) : nat -> T :=
  vector_set output u.1 (add (output u.1) u.2).

(** ** Running a row task ([sparse_matrix.cpp] 325-340) *)

(** The loop of [fg_row_compute_task::run] over the rows of the task:
    [vsizes] are the sizes [v->get_size()] of the vertices that lie in the
    buffer one after the other from [buf_p] on. The result is the
    [buf_size] the loop leaves, or [None] when [assert(buf_size >= vsize)]
    fails or the loop reads on after the last vertex given. *)
Fixpoint fg_row_run_loop (num_rows : nat) (vsizes : list Z) (buf_size : Z)
  : option Z :=
  match num_rows with
  | O => Some buf_size
  | S num_rows =>
      match vsizes with
      | [] => None
      | vsize :: vsizes =>
          if bool_decide (buf_size >= vsize)
          then fg_row_run_loop num_rows vsizes (buf_size - vsize)
          else None
      end
  end.

(** [fg_row_compute_task::run(buf, size)]; [same_buf] tells whether the
    [buf] handed in is the buffer of the task. The task is returned as the
    call leaves it, [None] standing for a failed assertion. *)
Definition fg_row_compute_task_run (t : task_buf) (same_buf : bool)
    (size : Z) (vsizes : list Z) : option task_buf :=
  if negb same_buf then None
  else if bool_decide (buf_size t ≠ size) then None
  else
    buf_size' ← fg_row_run_loop (io_num_rows (io t)) vsizes (buf_size t);
    Some {| io := io t; off := off t; buf_size := buf_size' |}.

(** ** Initialising and destroying the matrix layer ([sparse_matrix.cpp]
    720-742) *)

(** The counter [init_count], a [size_t], and whether the I/O system of
    SAFS is initialised. *)
Record flash_matrix_state := {
  init_count : Z;
  io_system_up : bool;
}.

(** [init_flash_matrix]; [safs_ok] tells whether [safs::init_io_system]
    returns rather than throws. The flag of the result is [false] when the
    exception leaves the function. *)
Definition init_flash_matrix (safs_ok : bool) (s : flash_matrix_state)
  : flash_matrix_state * bool :=
  let count := init_count s in
  let s := {| init_count := to_size (count + 1);
              io_system_up := io_system_up s |} in
  if bool_decide (count = 0) then
    if safs_ok then
      ({| init_count := init_count s; io_system_up := true |}, true)
    else
      ({| init_count := to_size (init_count s - 1);
          io_system_up := io_system_up s |}, false)
  else (s, true).

(** [destroy_flash_matrix]. *)
Definition destroy_flash_matrix (s : flash_matrix_state) : flash_matrix_state :=
  let count := init_count s in
  let s := {| init_count := to_size (count - 1);
              io_system_up := io_system_up s |} in
  if bool_decide (count = 1) then
    {| init_count := init_count s; io_system_up := false |}
  else s.

(** The calls a program makes, and the state after them. *)
Inductive flash_matrix_call :=
| call_init (safs_ok : bool)
| call_destroy.

Definition flash_matrix_step (s : flash_matrix_state) (c : flash_matrix_call)
  : flash_matrix_state :=
  match c with
  | call_init safs_ok => (init_flash_matrix safs_ok s).1
  | call_destroy => destroy_flash_matrix s
  end.

(** The number of uses that are open after the calls: an [init] that
    returned opens one, a [destroy] closes one. [None] when a [destroy] came
    with no use open. *)
Fixpoint open_uses (n : nat) (calls : list flash_matrix_call) : option nat :=
  match calls with
  | [] => Some n
  | call_init true :: calls =>
      open_uses (S n) calls
  | call_init false :: calls =>
      match n with
      | O => open_uses O calls
      | S _ => open_uses (S n) calls
      end
  | call_destroy :: calls =>
      match n with
      | O => None
      | S n => open_uses n calls
      end
  end.

(** The sum of the sizes of the vertices of a task. *)
Definition total_size (vsizes : list Z) : Z := foldr Z.add 0 vsizes.

(** The state before any call: nothing initialised. *)
Definition flash_matrix_start : flash_matrix_state :=
  {| init_count := 0; io_system_up := false |}.

(** ** The options of the test driver ([test_algs.cpp]) *)

(** The loops below run over the returns of [getopt] up to its -1. *)

Global Instance edge_type_eq_dec : EqDecision edge_type.
Proof. solve_decision. Defined.

(** [edge_str2edge]. *)
Definition edge_str2edge (edge_type_str : string) : cli_result edge_type :=
  if negb (bool_decide (edge_type_str = ""%string)) then
    if bool_decide (edge_type_str = "IN"%string) then cli_run IN_EDGE
    else if bool_decide (edge_type_str = "OUT"%string) then cli_run OUT_EDGE
    else if bool_decide (edge_type_str = "BOTH"%string) then cli_run BOTH_EDGES
    else cli_exit 1 ["wrong edge type"%string]
  else cli_exit 1 ["wrong edge type"%string].

(** The locals of [run_diversity], [run_closeness_centrality] and
    [run_bfs] that their [getopt] loops set. *)
Record run_diversity_opts := { dv_edge_type_str : string; dv_memopt : bool }.
Record run_closeness_opts := { cl_id : Z; cl_edge_type_str : string }.
Record run_bfs_opts := { bfs_edge_type_str : string; bfs_start_vertex : Z }.

(** The [getopt] loop of [run_diversity] over ["e:m"]; another return
    prints the usage and fails [assert(0)]. *)
Fixpoint run_diversity_getopt (opts : list getopt_return)
    (o : run_diversity_opts) : option run_diversity_opts :=
  match opts with
  | [] => Some o
  | r :: rest =>
      if bool_decide (opt r = "e"%char) then
        run_diversity_getopt rest
          {| dv_edge_type_str := optarg r; dv_memopt := dv_memopt o |}
      else if bool_decide (opt r = "m"%char) then
        run_diversity_getopt rest
          {| dv_edge_type_str := dv_edge_type_str o; dv_memopt := false |}
      else None
  end.

(** [run_diversity]: [cli_run (edge, memopt)] is the call
    [compute_diversity(graph, edge, memopt)]. *)
Definition run_diversity (opts : list getopt_return)
  : cli_result (edge_type * bool) :=
  match run_diversity_getopt opts
          {| dv_edge_type_str := ""; dv_memopt := false |} with
  | None => cli_abort
  | Some o =>
      match edge_str2edge (dv_edge_type_str o) with
      | cli_run edge =>
          if bool_decide (edge = BOTH_EDGES)
          then cli_exit (-1) ["Only IN and OUT edges usable"%string]
          else cli_run (edge, dv_memopt o)
      | cli_exit code err => cli_exit code err
      | cli_abort => cli_abort
      end
  end.

(** The [getopt] loop of [run_closeness_centrality] over ["s:e:"];
    [vertex_id_t id = atol(optarg)]. *)
Fixpoint run_closeness_getopt (opts : list getopt_return)
    (o : run_closeness_opts) : option run_closeness_opts :=
  match opts with
  | [] => Some o
  | r :: rest =>
      if bool_decide (opt r = "s"%char) then
        run_closeness_getopt rest
          {| cl_id := to_vsize (atol (optarg r));
             cl_edge_type_str := cl_edge_type_str o |}
      else if bool_decide (opt r = "e"%char) then
        run_closeness_getopt rest
          {| cl_id := cl_id o; cl_edge_type_str := optarg r |}
      else None
  end.

(** [run_closeness_centrality] up to the choice of the vertices:
    [cli_run (id, edge)] is the call of [compute_closeness_centrality] on
    the vertex [id], or on all vertices when [id] is [INVALID_VERTEX_ID],
    with [edge]. [INVALID_VERTEX_ID] is defined outside the sources. *)
Definition run_closeness_centrality (INVALID_VERTEX_ID : Z)
    (opts : list getopt_return) : cli_result (Z * edge_type) :=
  match run_closeness_getopt opts
          {| cl_id := INVALID_VERTEX_ID; cl_edge_type_str := "" |} with
  | None => cli_abort
  | Some o =>
      match edge_str2edge (cl_edge_type_str o) with
      | cli_run edge => cli_run (cl_id o, edge)
      | cli_exit code err => cli_exit code err
      | cli_abort => cli_abort
      end
  end.

(** The [getopt] loop of [run_bfs] over ["e:s:"]. *)
Fixpoint run_bfs_getopt (opts : list getopt_return) (o : run_bfs_opts)
  : option run_bfs_opts :=
  match opts with
  | [] => Some o
  | r :: rest =>
      if bool_decide (opt r = "e"%char) then
        run_bfs_getopt rest
          {| bfs_edge_type_str := optarg r;
             bfs_start_vertex := bfs_start_vertex o |}
      else if bool_decide (opt r = "s"%char) then
        run_bfs_getopt rest
          {| bfs_edge_type_str := bfs_edge_type_str o;
             bfs_start_vertex := to_vsize (atol (optarg r)) |}
      else None
  end.

(** [run_bfs]: [cli_run (start_vertex, edge)] is the call
    [bfs(graph, start_vertex, edge)]. *)
Definition run_bfs (opts : list getopt_return) : cli_result (Z * edge_type) :=
  match run_bfs_getopt opts
          {| bfs_edge_type_str := ""; bfs_start_vertex := 0 |} with
  | None => cli_abort
  | Some o =>
      match edge_str2edge (bfs_edge_type_str o) with
      | cli_run edge => cli_run (bfs_start_vertex o, edge)
      | cli_exit code err => cli_exit code err
      | cli_abort => cli_abort
      end
  end.

(** The [optarg] of the last [-e] among the returns of [getopt], the
    empty string when there is none. *)
Definition last_edge_type_str (opts : list getopt_return) : string :=
  default ""%string
    (last (optarg <$> filter (fun r => opt r = "e"%char) opts)).

(** ** The algorithms of the test driver ([test_algs.cpp] 752-771 and
    847-943) *)

(** The table [supported_algs] that [print_usage] lists. *)
Definition supported_algs : list string :=
  ["cycle_triangle"; "triangle"; "local_scan"; "topK_scan"; "wcc"; "scc";
   "diameter"; "pagerank"; "pagerank2"; "sstsg"; "ts_wcc"; "kcore";
   "betweenness"; "closeness"; "overlap"; "bfs"; "louvain"]%string.

(** The chain of comparisons of [main]: the function that is run for
    [alg], [None] for the last [else]. *)
Definition dispatch (alg : string) : option string :=
  if bool_decide (alg = "cycle_triangle"%string) then Some "run_cycle_triangle"%string
  else if bool_decide (alg = "triangle"%string) then Some "run_triangle"%string
  else if bool_decide (alg = "local_scan"%string) then Some "run_local_scan"%string
  else if bool_decide (alg = "topK_scan"%string) then Some "run_topK_scan"%string
  else if bool_decide (alg = "diameter"%string) then Some "run_diameter"%string
  else if bool_decide (alg = "pagerank"%string) then Some "run_pagerank"%string
  else if bool_decide (alg = "pagerank2"%string) then Some "run_pagerank"%string
  else if bool_decide (alg = "wcc"%string) then Some "run_wcc"%string
  else if bool_decide (alg = "cc"%string) then Some "run_cc"%string
  else if bool_decide (alg = "scc"%string) then Some "run_scc"%string
  else if bool_decide (alg = "sstsg"%string) then Some "run_sstsg"%string
  else if bool_decide (alg = "ts_wcc"%string) then Some "run_ts_wcc"%string
  else if bool_decide (alg = "kcore"%string) then Some "run_kcore"%string
  else if bool_decide (alg = "betweenness"%string)
    then Some "run_betweenness_centrality"%string
  else if bool_decide (alg = "overlap"%string) then Some "run_overlap"%string
  else if bool_decide (alg = "bfs"%string) then Some "run_bfs"%string
  else if bool_decide (alg = "closeness"%string)
    then Some "run_closeness_centrality"%string
  else if bool_decide (alg = "diversity"%string) then Some "run_diversity"%string
  else if bool_decide (alg = "toposort"%string) then Some "run_topo_sort"%string
  else if bool_decide (alg = "louvain"%string) then Some "run_louvain"%string
  else None.

(** What [main] of the test driver did: it left through [exit], or it
    reached its end, after the function it ran returned or after the message
    of the last [else]; reaching the end of [main] returns 0. *)
Inductive test_algs_result :=
| test_algs_exit (code : Z)
| test_algs_end (ran : option string) (err : list string) (status : Z).

(** [main] of the test driver on the arguments after the program name;
    [graph_ok] tells whether [FG_graph::create] returns rather than
    throws. The function that is run is taken to return. *)
Definition test_algs_main (argv : list string) (graph_ok : bool)
  : test_algs_result :=
  let argc := length argv in
  if bool_decide (argc < 4)%nat then test_algs_exit (-1)
  else
    let alg := default ""%string (argv !! 3%nat) in
    if negb graph_ok then test_algs_exit (-1)
    else
      match dispatch alg with
      | Some f => test_algs_end (Some f) [] 0
      | None =>
          test_algs_end None
            [("[ERROR]: Unknown algorithm '" ++ alg ++ "'!")%string] 0
      end.

(** ** [max_val_loc] ([test_algs.cpp] 59-66) *)

(** [std::max_element] on a range that starts with [best] at position
    [best_idx] and goes on with [l] from position [i]: the first of the
    largest elements, found with [operator<]. *)
Fixpoint max_element_from (best : Z) (best_idx i : nat) (l : list Z)
  : Z * nat :=
  match l with
  | [] => (best, best_idx)
  | x :: l =>
      if bool_decide (best < x) then max_element_from x i (S i) l
      else max_element_from best best_idx (S i) l
  end.

(** [max_val_loc<size_t>]; on an empty vector [std::max_element] returns
    the end iterator and reading through it has no defined behaviour
    ([None]). *)
Definition max_val_loc (res : list Z) : option (Z * nat) :=
  match res with
  | [] => None
  | x :: l => Some (max_element_from x 0 1 l)
  end.

(** ** Workload generators ([workload.h]) *)

(** The three statements that exchange [offset[j]] and [offset[i]]; an
    index outside the array has no defined behaviour, the array is returned
    as it is. *)
Definition swap_offsets {A} (offset : list A) (j i : nat) : list A :=
  match offset !! j, offset !! i with
  | Some tmp, Some oi => <[i := tmp]> (<[j := oi]> offset)
  | _, _ => offset
  end.

(** The second loop of [rand_permute::rand_permute], from [i] down to 1.
    [random k] is what the [k]-th call of [random()] returns, a
    non-negative [long]; [call] counts the calls made so far. *)
Fixpoint rand_permute_shuffle {A} (random : nat -> Z) (call i : nat)
    (offset : list A) : list A :=
  match i with
  | O => offset
  | S i' =>
      let j := Z.to_nat (Z.rem (random call) (Z.of_nat i)) in
      rand_permute_shuffle random (S call) i' (swap_offsets offset j i)
  end.

(** [rand_permute::rand_permute(num, stride)]: the array [offset]. The
    products [i * stride] are formed in [off_t] and are far from its
    bounds. *)
Definition rand_permute (random : nat -> Z) (num : nat) (stride : Z)
  : list Z :=
  rand_permute_shuffle random 0 (num - 1)
    ((fun i => Z.of_nat i * stride) <$> seq 0 num).

(** While the shuffle is at [i]: an entry at or below [i] is still in
    its own place or belongs above [i], and no entry above [i] is in its own
    place. *)
Definition unsettled_below (i : nat) (a : list nat) : Prop :=
  forall p m, a !! p = Some m ->
    ((p <= i)%nat -> m = p \/ (i < m)%nat) /\ ((i < p)%nat -> m ≠ p).

(** *** [file_workload::swap_bytesl] ([workload.h] 217-226) *)

(** A [long] has 64 bits; [to_long] is the value of a bit pattern read as
    a [long]. *)
Definition to_long (x : Z) : Z := (x + 2 ^ 63) mod 2 ^ 64 - 2 ^ 63.

(** The eight bytes [src[0] .. src[7]] of a [long] in memory, lowest
    first as on the Intel machines the comment in the source names, and the
    [long] that eight bytes in memory stand for. *)
Definition long_bytes (num : Z) : list Z :=
  (fun i => (num / 256 ^ Z.of_nat i) mod 256) <$> seq 0 8.

Definition bytes_long (b : list Z) : Z :=
  to_long (foldr (fun x acc => x + 256 * acc) 0 b).

(** [swap_bytesl]: [dst[sizeof(long) - 1 - i] = src[i]] for every byte. *)
Definition swap_bytesl (num : Z) : Z :=
  bytes_long (reverse (long_bytes num)).

(** *** The generators ([workload.h] 18-53 and 109-156) *)

(** The interface [workload_gen]. [next_offset] returns the offset and
    the generator as the call leaves it, [None] where the call reads outside
    an array. The [long] fields are carried as integers; the sums and
    products on them are far from the bounds of [long]. *)
Class workload_gen (G : Type) := {
  next_offset : G -> option (Z * G);
  has_next : G -> bool;
}.

(** The offsets that [n] calls of [next_offset] in a row return, and the
    generator after them. *)
Fixpoint next_offsets {G} `{workload_gen G} (n : nat) (g : G)
  : option (list Z * G) :=
  match n with
  | O => Some ([], g)
  | S n =>
      r ← next_offset g;
      rs ← next_offsets n r.2;
      Some (r.1 :: rs.1, rs.2)
  end.

Record seq_workload := {
  sw_start : Z;
  sw_end : Z;
  sw_cur : Z;
  sw_entry_size : Z;
}.

Definition seq_workload_new (start end_ entry_size : Z) : seq_workload :=
  {| sw_start := start; sw_end := end_; sw_cur := start;
     sw_entry_size := entry_size |}.

Definition seq_workload_next_offset (g : seq_workload) : Z * seq_workload :=
  let next := sw_cur g in
  (next * sw_entry_size g,
   {| sw_start := sw_start g; sw_end := sw_end g; sw_cur := sw_cur g + 1;
      sw_entry_size := sw_entry_size g |}).

Global Instance seq_workload_gen : workload_gen seq_workload := {
  next_offset g := Some (seq_workload_next_offset g);
  has_next g := bool_decide (sw_cur g < sw_end g);
}.

Record local_rand_permute_workload := {
  lrp_idx : Z;
  lrp_num : Z;
  lrp_start : Z;
  lrp_permute : list Z;
}.

(** [local_rand_permute_workload(start, end, entry_size)]. *)
Definition local_rand_permute_workload_new (random : nat -> Z)
    (start end_ entry_size : Z) : local_rand_permute_workload :=
  {| lrp_permute := rand_permute random (Z.to_nat (end_ - start)) entry_size;
     lrp_start := start * entry_size;
     lrp_idx := 0;
     lrp_num := end_ - start |}.

Definition local_rand_permute_next_offset (g : local_rand_permute_workload)
  : option (Z * local_rand_permute_workload) :=
  if bool_decide (lrp_idx g >= lrp_num g) then Some (-1, g)
  else
    o ← lrp_permute g !! Z.to_nat (lrp_idx g);
    Some (o + lrp_start g,
          {| lrp_idx := lrp_idx g + 1; lrp_num := lrp_num g;
             lrp_start := lrp_start g; lrp_permute := lrp_permute g |}).

Global Instance local_rand_permute_workload_gen
  : workload_gen local_rand_permute_workload := {
  next_offset := local_rand_permute_next_offset;
  has_next g := bool_decide (lrp_idx g < lrp_num g);
}.

(** The offsets of the entries [start .. end - 1] in ascending order. *)
Definition entry_offsets (start end_ entry_size : Z) : list Z :=
  (fun i => (start + Z.of_nat i) * entry_size)
  <$> seq 0 (Z.to_nat (end_ - start)).

(** ** Checking a block ([sparse_matrix_format.cpp] 31-45) *)

(** The loop of [sparse_block_2d::verify] over the row parts the iterator
    of the block gives; [get_num_non_zeros] is the number of column indexes
    of the part. The result is [num_rows], or [None] when an assertion of
    the loop fails. *)
Fixpoint verify_loop (block_size : block_2d_size)
    (parts : list sparse_row_part) (rel_row_id num_rows : nat) : option nat :=
  match parts with
  | [] => Some num_rows
  | part :: parts =>
      if bool_decide (length (rel_col_idxs part) <= bs_num_cols block_size)%nat
      then
        if bool_decide (0 < get_rel_row_idx part)%nat
           && negb (bool_decide (rel_row_id < get_rel_row_idx part)%nat)
        then None
        else verify_loop block_size parts (get_rel_row_idx part) (S num_rows)
      else None
  end.

(** [sparse_block_2d::verify]: whether every assertion holds. *)
Definition sparse_block_2d_verify (block_size : block_2d_size)
    (parts : list sparse_row_part) : bool :=
  match verify_loop block_size parts 0 0 with
  | Some num_rows => bool_decide (num_rows <= bs_num_rows block_size)%nat
  | None => false
  end.

(** ** Multiplying by a vector ([sparse_matrix.h] 431-444) *)

(** [sparse_matrix::multiply] on a vector, as far as lengths go: the
    length of the vector that is returned, or the empty pointer and the
    error logged; the two numbers the message is formatted with are left
    out. The entries of the result are computed by [compute]. *)
Definition multiply (m : sparse_matrix) (in_length : Z) : option Z * log :=
  if bool_decide (in_length ≠ get_num_cols m) then
    (None, ["the input vector has wrong length %1%. matrix ncols: %2%"%string])
  else (Some (get_num_rows m), []).

(** * Part II: properties *)

(** ** Page-aligned requests *)

Section Rounding.

Variable PAGE_SIZE : Z.
Hypothesis PAGE_SIZE_pos : 0 < PAGE_SIZE.

Lemma ROUND_PAGE_aligned o : ROUND_PAGE PAGE_SIZE o mod PAGE_SIZE = 0.
Proof.
  unfold ROUND_PAGE.
  rewrite Zminus_mod, Z.mod_mod, Z.sub_diag by lia.
  apply Z.mod_0_l. lia.
Qed.

Lemma ROUND_PAGE_bounds o :
  ROUND_PAGE PAGE_SIZE o <= o < ROUND_PAGE PAGE_SIZE o + PAGE_SIZE.
Proof.
  unfold ROUND_PAGE. pose proof (Z.mod_pos_bound o PAGE_SIZE). lia.
Qed.

Lemma ROUNDUP_PAGE_aligned o : ROUNDUP_PAGE PAGE_SIZE o mod PAGE_SIZE = 0.
Proof. apply ROUND_PAGE_aligned. Qed.

Lemma ROUNDUP_PAGE_bounds o :
  o <= ROUNDUP_PAGE PAGE_SIZE o < o + PAGE_SIZE.
Proof.
  unfold ROUNDUP_PAGE.
  pose proof (ROUND_PAGE_bounds (o + PAGE_SIZE - 1)). lia.
Qed.

(** Rounding down gives the largest page boundary that is not above the
    offset. *)
Lemma ROUND_PAGE_greatest o b :
  b mod PAGE_SIZE = 0 -> b <= o -> b <= ROUND_PAGE PAGE_SIZE o.
Proof.
  intros Hb Hle.
  pose proof (ROUND_PAGE_bounds o) as Hr.
  pose proof (ROUND_PAGE_aligned o) as Ha.
  apply Z.div_exact in Hb; [|lia]. apply Z.div_exact in Ha; [|lia].
  destruct (Z.le_gt_cases b (ROUND_PAGE PAGE_SIZE o)) as [|Hgt]; [done|].
  assert (ROUND_PAGE PAGE_SIZE o / PAGE_SIZE < b / PAGE_SIZE) by nia.
  nia.
Qed.

(** Rounding up gives the smallest page multiple that is not below the
    size. *)
Lemma ROUNDUP_PAGE_least s b :
  b mod PAGE_SIZE = 0 -> s <= b -> ROUNDUP_PAGE PAGE_SIZE s <= b.
Proof.
  intros Hb Hle.
  pose proof (ROUNDUP_PAGE_bounds s) as Hr.
  pose proof (ROUNDUP_PAGE_aligned s) as Ha.
  apply Z.div_exact in Hb; [|lia]. apply Z.div_exact in Ha; [|lia].
  destruct (Z.le_gt_cases (ROUNDUP_PAGE PAGE_SIZE s) b) as [|Hgt]; [done|].
  assert (b / PAGE_SIZE < ROUNDUP_PAGE PAGE_SIZE s / PAGE_SIZE) by nia.
  nia.
Qed.

(** The buffer a task computes when nothing wraps around in [size_t]. *)
Lemma task_buf_init_no_wrap _io :
  0 <= get_offset (get_loc _io) -> 0 <= get_size _io ->
  get_offset (get_loc _io) mod PAGE_SIZE + get_size _io + PAGE_SIZE <= size_max ->
  off (task_buf_init PAGE_SIZE _io) = ROUND_PAGE PAGE_SIZE (get_offset (get_loc _io))
  /\ buf_size (task_buf_init PAGE_SIZE _io)
     = ROUNDUP_PAGE PAGE_SIZE
         (get_offset (get_loc _io) mod PAGE_SIZE + get_size _io).
Proof.
  intros Ho Hs Hfit. split; [done|].
  cbn [task_buf_init buf_size].
  set (o := get_offset (get_loc _io)) in *.
  replace (o - ROUND_PAGE PAGE_SIZE o + get_size _io)
    with (o mod PAGE_SIZE + get_size _io) by (unfold ROUND_PAGE; lia).
  pose proof (Z.mod_pos_bound o PAGE_SIZE PAGE_SIZE_pos) as Hm.
  unfold to_size.
  rewrite (Z.mod_small (o mod PAGE_SIZE + get_size _io)) by lia.
  pose proof (ROUNDUP_PAGE_bounds (o mod PAGE_SIZE + get_size _io)).
  apply Z.mod_small. lia.
Qed.

End Rounding.

(** With a power-of-two page, rounding down clears the low bits, which is
    how such a macro is written with a mask. *)
Lemma ROUND_PAGE_mask k o :
  0 <= k -> ROUND_PAGE (2 ^ k) o = Z.shiftl (Z.shiftr o k) k.
Proof.
  intros Hk. unfold ROUND_PAGE.
  rewrite Z.shiftl_mul_pow2, Z.shiftr_div_pow2 by lia.
  pose proof (Z.pow_pos_nonneg 2 k).
  rewrite Z.mod_eq by lia. lia.
Qed.

(** A block task computes its buffer as a row task does. *)
Lemma block_compute_task_init_buf PAGE_SIZE _io bs order t :
  block_compute_task_init PAGE_SIZE _io bs order = Some t ->
  bct_buf t = task_buf_init PAGE_SIZE _io.
Proof.
  unfold block_compute_task_init. intros H.
  destruct (ceil_div _ _); simplify_eq/=.
  destruct order; by simplify_eq/=.
Qed.

(** Claim C7. For a positive page size and a [matrix_io] at offset [o >= 0] with
    [s >= 0] bytes, small enough that the size computation does not wrap
    around in [size_t], the request of a row task and of a block task reads
    from [o] rounded down to a page boundary, has a size that is a multiple
    of the page size, and covers the bytes [o .. o+s) with less than a page
    to spare at either end; it names the file of the [matrix_io]. *)
Theorem get_request_page_aligned PAGE_SIZE _io :
  0 < PAGE_SIZE ->
  0 <= get_offset (get_loc _io) -> 0 <= get_size _io ->
  get_offset (get_loc _io) mod PAGE_SIZE + get_size _io + PAGE_SIZE <= size_max ->
  let o := get_offset (get_loc _io) in
  let s := get_size _io in
  let r := get_request (fg_row_compute_task PAGE_SIZE _io) in
  page_aligned_request PAGE_SIZE o s r
  /\ get_file_id (req_loc r) = get_file_id (get_loc _io)
  /\ (forall bs order t,
        block_compute_task_init PAGE_SIZE _io bs order = Some t ->
        get_request (bct_buf t) = r).
Proof.
  intros HP Ho Hs Hfit o s r.
  destruct (task_buf_init_no_wrap PAGE_SIZE HP _io Ho Hs Hfit) as [Hoff Hsz].
  pose proof (ROUND_PAGE_bounds PAGE_SIZE HP o) as Hb.
  pose proof (ROUND_PAGE_aligned PAGE_SIZE HP o) as Ha.
  pose proof (ROUNDUP_PAGE_bounds PAGE_SIZE HP (o mod PAGE_SIZE + s)) as Hub.
  pose proof (ROUNDUP_PAGE_aligned PAGE_SIZE HP (o mod PAGE_SIZE + s)) as Hua.
  assert (Hr : get_offset (req_loc r) = ROUND_PAGE PAGE_SIZE o) by done.
  assert (Hrs : req_size r = ROUNDUP_PAGE PAGE_SIZE (o mod PAGE_SIZE + s))
    by (subst r; cbn [get_request req_size]; exact Hsz).
  split; [|split; [done|]].
  - unfold page_aligned_request. rewrite Hr, Hrs.
    assert (o - ROUND_PAGE PAGE_SIZE o = o mod PAGE_SIZE)
      by (unfold ROUND_PAGE; lia).
    repeat split; try done; lia.
  - intros bs order t Ht.
    by rewrite (block_compute_task_init_buf _ _ _ _ _ Ht).
Qed.

(** An instance: a 4096-byte page, 100 bytes at offset 5000 of file 7. *)
Lemma get_request_page_aligned_witness :
  let _io := {| get_loc := {| get_file_id := 7; get_offset := 5000 |};
                get_size := 100; io_num_rows := 4; io_num_cols := 4 |} in
  let r := get_request (fg_row_compute_task 4096 _io) in
  page_aligned_request 4096 5000 100 r
  /\ get_file_id (req_loc r) = 7
  /\ (forall bs order t,
        block_compute_task_init 4096 _io bs order = Some t ->
        get_request (bct_buf t) = r).
Proof.
  intros _io r.
  apply (get_request_page_aligned 4096 _io); vm_compute; congruence.
Defined.

(** ** Transposing a sparse matrix *)

Lemma sparse_matrix_transpose_involutive b :
  sparse_matrix_transpose (sparse_matrix_transpose b) = b.
Proof. by destruct b. Qed.

Lemma transpose_involutive m : transpose (transpose m) = m.
Proof.
  destruct m as [b blocks|b out_blocks in_blocks transposed|o|b bs mat t_mat];
    cbn [transpose]; rewrite ?sparse_matrix_transpose_involutive,
                             ?negb_involutive; done.
Qed.

(** Claim C9. Transposing twice gives back the matrix, so [get_num_rows] and
    [get_num_cols] return what they returned before. One transposition
    leaves a symmetric FlashGraph matrix and a [block_sparse_matrix] as they
    are; on the two asymmetric classes it exchanges the row and column
    counts, flips [transposed] so that [init_io_gens] reads the other index,
    and exchanges [mat] with [t_mat]. *)
Theorem transpose_twice_restores_shape :
  (forall m,
     get_num_rows (transpose (transpose m)) = get_num_rows m
     /\ get_num_cols (transpose (transpose m)) = get_num_cols m
     /\ transpose (transpose m) = m)
  /\ (forall b blocks,
        transpose (fg_sparse_sym_matrix b blocks) = fg_sparse_sym_matrix b blocks)
  /\ (forall o, transpose (block_sparse_matrix o) = block_sparse_matrix o)
  /\ (forall b out_blocks in_blocks transposed,
        let m := fg_sparse_asym_matrix b out_blocks in_blocks transposed in
        get_num_rows (transpose m) = get_num_cols m
        /\ get_num_cols (transpose m) = get_num_rows m
        /\ fg_asym_io_blocks (transpose m)
           = Some (if transposed then out_blocks else in_blocks))
  /\ (forall b bs mat t_mat,
        let m := block_sparse_asym_matrix b bs mat t_mat in
        get_num_rows (transpose m) = get_num_cols m
        /\ get_num_cols (transpose m) = get_num_rows m
        /\ transpose m
           = block_sparse_asym_matrix (sparse_matrix_transpose b) bs t_mat mat).
Proof.
  split; [|split; [|split; [|split]]].
  - intros m. by rewrite transpose_involutive.
  - done.
  - done.
  - intros b out_blocks in_blocks transposed m. subst m.
    repeat split. by destruct transposed.
  - done.
Qed.

(** ** The block-row offsets of the index *)

Section IndexProperties.

Variable cal_num_block_rows : block_2d_size -> nat -> nat.

(** An index that [create] returned stores exactly [get_num_entries]
    offsets, the ones it was given. *)
Lemma sparse_matrix_index_create_entries alloc_ok header l this lg :
  sparse_matrix_index_create cal_num_block_rows alloc_ok header l = (Some this, lg) ->
  offs this = l /\ get_header this = header /\ lg = []
  /\ get_num_entries cal_num_block_rows this = length (offs this).
Proof.
  unfold sparse_matrix_index_create. intros H.
  case_bool_decide as Hlen; [done|].
  destruct alloc_ok; simplify_eq/=.
  repeat split. unfold get_num_entries, get_num_block_rows. cbn.
  lia.
Qed.

Lemma get_block_row_off_out_of_range this idx :
  (get_num_entries cal_num_block_rows this <= idx)%nat ->
  get_block_row_off cal_num_block_rows this idx
  = (Some (-1), ["get_block_row_off: out of range."%string]).
Proof. intros H. unfold get_block_row_off. by rewrite bool_decide_eq_true_2. Qed.

Lemma get_block_row_off_in_range this idx :
  (idx < get_num_entries cal_num_block_rows this)%nat ->
  get_block_row_off cal_num_block_rows this idx = (offs this !! idx, []).
Proof.
  intros H. unfold get_block_row_off. rewrite bool_decide_eq_false_2; [done|lia].
Qed.

End IndexProperties.

(** Whatever the index object, an [idx] at or beyond
    [get_num_entries()] makes [get_block_row_off] log an error and return
    -1 without reading the array. In an index that [create] built, the array
    holds exactly [get_num_entries()] offsets, so every smaller [idx] reads
    inside the array and the call returns the stored offset, logging
    nothing. *)
Lemma get_block_row_off_in_bounds cal_num_block_rows alloc_ok header l this lg :
  sparse_matrix_index_create cal_num_block_rows alloc_ok header l = (Some this, lg) ->
  get_num_entries cal_num_block_rows this = length l
  /\ (forall idx,
        (length l <= idx)%nat ->
        get_block_row_off cal_num_block_rows this idx
        = (Some (-1), ["get_block_row_off: out of range."%string]))
  /\ (forall idx,
        (idx < length l)%nat ->
        exists o, l !! idx = Some o
          /\ get_block_row_off cal_num_block_rows this idx = (Some o, [])).
Proof.
  intros Hc.
  destruct (sparse_matrix_index_create_entries _ _ _ _ _ _ Hc)
    as (Hoffs & _ & _ & Hn).
  rewrite Hoffs in Hn. split; [done|split].
  - intros idx Hidx. apply get_block_row_off_out_of_range. lia.
  - intros idx Hidx.
    destruct (lookup_lt_is_Some_2 l idx Hidx) as [o Ho].
    exists o. split; [done|].
    rewrite get_block_row_off_in_range by lia. by rewrite Hoffs, Ho.
Qed.

(** An instance: a matrix of 5 rows in blocks of 2 rows has 3 block rows
    and 4 offsets. *)
Lemma get_block_row_off_in_bounds_witness :
  let cal := fun (bs : block_2d_size) (n : nat) =>
               ((n + bs_num_rows bs - 1) / bs_num_rows bs)%nat in
  let header := {| header_num_rows := 5; header_num_cols := 5;
                   get_2d_block_size := {| bs_num_rows := 2; bs_num_cols := 2 |} |} in
  let l := [0; 4096; 8192; 12288] in
  let this := {| get_header := header; offs := l |} in
  get_num_entries cal this = length l
  /\ (forall idx,
        (length l <= idx)%nat ->
        get_block_row_off cal this idx
        = (Some (-1), ["get_block_row_off: out of range."%string]))
  /\ (forall idx,
        (idx < length l)%nat ->
        exists o, l !! idx = Some o
          /\ get_block_row_off cal this idx = (Some o, [])).
Proof.
  intros cal header l this.
  apply (get_block_row_off_in_bounds cal true header l this []).
  reflexivity.
Defined.

(** An index whose array holds as many offsets as its header announces,
    however it was built, answers as one that [create] built. *)
Lemma get_block_row_off_well_formed cal_num_block_rows this idx :
  length (offs this) = get_num_entries cal_num_block_rows this ->
  ((length (offs this) <= idx)%nat ->
   get_block_row_off cal_num_block_rows this idx
   = (Some (-1), ["get_block_row_off: out of range."%string]))
  /\ ((idx < length (offs this))%nat ->
      exists o, offs this !! idx = Some o
        /\ get_block_row_off cal_num_block_rows this idx = (Some o, [])).
Proof.
  intros Hlen. split.
  - intros Hidx. apply get_block_row_off_out_of_range. lia.
  - intros Hidx.
    destruct (lookup_lt_is_Some_2 (offs this) idx Hidx) as [o Ho].
    exists o. split; [done|].
    rewrite get_block_row_off_in_range by lia. by rewrite Ho.
Qed.

(** Claim C10 at its failing inputs. [load] makes an index of any file:
    when the file holds fewer offsets than its header announces, every
    [idx] from the number of stored offsets up to the number announced
    passes the test of [get_block_row_off], nothing is logged, and the read
    [offs[idx]] falls outside the stored array. *)
Theorem get_block_row_off_reads_past_loaded_index cal_num_block_rows header l idx :
  (length l <= idx)%nat ->
  (idx < cal_num_block_rows (get_2d_block_size header) (header_num_rows header)
         + 1)%nat ->
  exists this,
    sparse_matrix_index_load (index_file_content header l) = (Some this, [])
    /\ length (offs this) = length l
    /\ (idx < get_num_entries cal_num_block_rows this)%nat
    /\ offs this !! idx = None
    /\ get_block_row_off cal_num_block_rows this idx = (None, []).
Proof.
  intros Hge Hlt. eexists. split; [reflexivity|].
  cbn [offs]. split; [done|].
  assert (Hn : (idx < get_num_entries cal_num_block_rows
                        {| get_header := header; offs := l |})%nat) by done.
  split; [done|]. split; [by apply lookup_ge_None_2|].
  rewrite get_block_row_off_in_range by done. cbn [offs].
  by rewrite lookup_ge_None_2.
Qed.

(** An instance: a header for 5 rows in blocks of 2 rows, which announces
    4 offsets, in a file that holds one; the read at [idx = 2]. *)
Lemma get_block_row_off_reads_past_loaded_index_witness :
  let cal := fun (bs : block_2d_size) (n : nat) =>
               ((n + bs_num_rows bs - 1) / bs_num_rows bs)%nat in
  let header := {| header_num_rows := 5; header_num_cols := 5;
                   get_2d_block_size := {| bs_num_rows := 2; bs_num_cols := 2 |} |} in
  exists this,
    sparse_matrix_index_load (index_file_content header [0]) = (Some this, [])
    /\ length (offs this) = 1%nat
    /\ (2 < get_num_entries cal this)%nat
    /\ offs this !! 2%nat = None
    /\ get_block_row_off cal this 2 = (None, []).
Proof.
  intros cal header.
  apply (get_block_row_off_reads_past_loaded_index cal header [0] 2).
  - cbn. lia.
  - vm_compute. lia.
Defined.

(** ** The Hilbert execution order *)

Section HilbertOrder.

Local Open Scope nat_scope.

Variable hilbert_xy2d : nat -> nat -> nat -> nat.

Global Instance coordinate_order_le_total : Total coordinate_order_le.
Proof. intros a b. unfold coordinate_order_le. lia. Qed.

Global Instance coordinate_order_le_trans : Transitive coordinate_order_le.
Proof. intros a b c. unfold coordinate_order_le. lia. Qed.

(** Ascending for [std::sort] means that no element is less, by
    [operator<], than one before it. *)
Lemma coordinate_order_le_not_lt a b :
  coordinate_order_le a b ↔ ¬ coordinate_order_lt b a.
Proof. unfold coordinate_order_le, coordinate_order_lt. lia. Qed.

(** What the C++ standard promises of [std::sort]. *)
Lemma std_sort_Permutation l : std_sort l ≡ₚ l.
Proof. apply merge_sort_Permutation. Qed.

Lemma std_sort_Sorted l : StronglySorted coordinate_order_le (std_sort l).
Proof. apply StronglySorted_merge_sort; apply _. Qed.

(** The entries pushed for row [i] index the [i]-th stretch of [n] blocks
    of the row-major vector. *)
Lemma block_idx_grid_row n i :
  block_idx n <$> grid_row hilbert_xy2d n i = seq (i * n) n.
Proof.
  unfold grid_row. rewrite <- list_fmap_compose.
  transitivity (Nat.add (i * n) <$> seq 0 n).
  - by apply list_fmap_ext.
  - rewrite fmap_add_seq. f_equal. lia.
Qed.

Lemma block_idx_grid_rows n a m :
  block_idx n <$> (seq a m ≫= grid_row hilbert_xy2d n) = seq (a * n) (m * n).
Proof.
  revert a. induction m as [|m IH]; intros a; [done|].
  cbn [seq]. rewrite bind_cons, fmap_app, block_idx_grid_row, IH.
  replace (S m * n) with (n + m * n) by lia.
  rewrite List.seq_app. do 2 f_equal. lia.
Qed.

(** Before sorting, the entries index the whole vector, each position
    once and in order. *)
Lemma block_idx_grid_orders n :
  block_idx n <$> grid_orders hilbert_xy2d n = seq 0 (n * n).
Proof. unfold grid_orders. by rewrite block_idx_grid_rows. Qed.

Lemma coo_grid_orders n :
  coo <$> grid_orders hilbert_xy2d n = grid_coordinates n.
Proof.
  unfold grid_orders, grid_coordinates.
  induction (seq 0 n) as [|i l IH] at 1 3; [done|].
  rewrite !bind_cons, fmap_app, IH. f_equal.
  unfold grid_row. by rewrite <- list_fmap_compose.
Qed.

(** The assertion [hilbert_orders.size() == n * n] of the constructor. *)
Lemma length_grid_orders n : length (grid_orders hilbert_xy2d n) = n * n.
Proof.
  rewrite <- (length_fmap (block_idx n)), block_idx_grid_orders.
  apply length_seq.
Qed.

Lemma length_hilbert_orders n :
  length (hilbert_orders_of (hilbert_exec_order hilbert_xy2d n)) = n * n.
Proof.
  cbn. rewrite (Permutation_length (std_sort_Permutation _)).
  apply length_grid_orders.
Qed.

End HilbertOrder.

(** The grid coordinates are the pairs below [n], each once. *)
Lemma elem_of_grid_coordinates n i j :
  (i, j) ∈ grid_coordinates n ↔ (i < n)%nat ∧ (j < n)%nat.
Proof.
  unfold grid_coordinates. rewrite list_elem_of_bind. split.
  - intros (i' & Hin & Hi'). apply list_elem_of_fmap in Hin as (j' & Heq & Hj').
    simplify_eq. apply elem_of_seq in Hi', Hj'. lia.
  - intros [Hi Hj]. exists i. split.
    + apply list_elem_of_fmap_2. apply elem_of_seq. lia.
    + apply elem_of_seq. lia.
Qed.

Lemma NoDup_grid_coordinates n : NoDup (grid_coordinates n).
Proof.
  unfold grid_coordinates. apply NoDup_bind.
  - intros i1 i2 [i j] _ _ H1 H2.
    apply list_elem_of_fmap in H1 as (? & ? & _).
    apply list_elem_of_fmap in H2 as (? & ? & _). congruence.
  - intros i _. apply NoDup_fmap_2; [|apply NoDup_seq].
    intros ???; congruence.
  - apply NoDup_seq.
Qed.

(** Reading every position of a vector in order and keeping the non-null
    entries gives the non-null entries of the vector. *)
Lemma omap_lookup_seq {A} (pre l : list (option A)) :
  omap (fun k => mjoin ((pre ++ l) !! k)) (seq (length pre) (length l))
  = omap id l.
Proof.
  revert pre. induction l as [|x l IH]; intros pre; [done|].
  cbn [length seq]. csimpl.
  rewrite (list_lookup_middle pre l x (length pre) eq_refl). csimpl.
  specialize (IH (pre ++ [x])).
  rewrite <- (assoc_L (++)), length_app in IH. cbn in IH.
  rewrite Nat.add_1_r in IH. by rewrite IH.
Qed.

Lemma omap_fmap_compose {A B C} (f : A -> B) (g : B -> option C) (l : list A) :
  omap g (f <$> l) = omap (g ∘ f) l.
Proof. induction l as [|x l IH]; [done|]. csimpl. by rewrite IH. Qed.

Lemma is_power_of_two_spec n :
  is_power_of_two n = true ↔ ∃ k : nat, n = (2 ^ k)%nat.
Proof.
  unfold is_power_of_two. rewrite bool_decide_eq_true. split.
  - eauto.
  - intros [k ->]. by rewrite Nat.log2_pow2 by lia.
Qed.

Lemma Forall_keyed_grid_orders hilbert_xy2d n :
  Forall (keyed_by hilbert_xy2d n) (grid_orders hilbert_xy2d n).
Proof.
  unfold grid_orders. apply Forall_forall. intros e He.
  apply list_elem_of_bind in He as (i & He & _).
  unfold grid_row in He. apply list_elem_of_fmap in He as (j & -> & _).
  done.
Qed.

(** Claim C4. For a Hilbert order of order [n] and a vector of [n * n] block
    pointers, [exec] succeeds and logs nothing; its calls of [run_on_block]
    are, as a multiset, the non-null entries of the vector, so every non-null
    block is run on exactly once; the calls are made in the order of
    [hilbert_orders], reading position [row * n + col] for each entry; and
    [hilbert_orders] lists every coordinate [(row, col)] with [row, col < n]
    exactly once, in ascending Hilbert distance [hilbert_xy2d n row col]. *)
Theorem hilbert_exec_visits_each_block_once hilbert_xy2d n
    (blocks : list (option sparse_block_2d)) :
  length blocks = (n * n)%nat ->
  let o := hilbert_exec_order hilbert_xy2d n in
  let r := exec o blocks in
  (exec_ok r = true /\ exec_log r = [])
  /\ run_on_block_calls r ≡ₚ omap id blocks
  /\ run_on_block_calls r
     = omap (fun c => mjoin (blocks !! (c.1 * n + c.2)%nat))
         (coo <$> hilbert_orders_of o)
  /\ (coo <$> hilbert_orders_of o ≡ₚ grid_coordinates n
      /\ NoDup (grid_coordinates n)
      /\ length (hilbert_orders_of o) = (n * n)%nat
      /\ forall i j, (i, j) ∈ grid_coordinates n ↔ (i < n)%nat ∧ (j < n)%nat)
  /\ (StronglySorted coordinate_order_le (hilbert_orders_of o)
      /\ Forall (keyed_by hilbert_xy2d n) (hilbert_orders_of o)).
Proof.
  intros Hlen o r.
  assert (Hperm : hilbert_orders_of o ≡ₚ grid_orders hilbert_xy2d n)
    by apply std_sort_Permutation.
  assert (Hcalls : run_on_block_calls r
            = omap (fun e => mjoin (blocks !! block_idx n e)) (hilbert_orders_of o)).
  { subst r o. cbn [exec hilbert_exec_order hilbert_orders_of].
    rewrite bool_decide_eq_false_2; [done|].
    rewrite (Permutation_length (std_sort_Permutation _)), length_grid_orders.
    intros H. by apply H. }
  split; [|split; [|split; [|split]]].
  - subst r o. cbn [exec hilbert_exec_order].
    rewrite bool_decide_eq_false_2; [done|].
    rewrite (Permutation_length (std_sort_Permutation _)), length_grid_orders.
    intros H. by apply H.
  - rewrite Hcalls, Hperm.
    change (fun e => mjoin (blocks !! block_idx n e))
      with ((fun k => mjoin (blocks !! k)) ∘ block_idx n).
    rewrite <- omap_fmap_compose, block_idx_grid_orders, <- Hlen.
    by rewrite <- (omap_lookup_seq [] blocks).
  - rewrite Hcalls. by rewrite omap_fmap_compose.
  - split; [|split; [|split]].
    + by rewrite Hperm, coo_grid_orders.
    + apply NoDup_grid_coordinates.
    + apply length_hilbert_orders.
    + apply elem_of_grid_coordinates.
  - split.
    + apply std_sort_Sorted.
    + rewrite Hperm. apply Forall_keyed_grid_orders.
Qed.

(** An instance: the 2 × 2 grid with one empty block. *)
Lemma hilbert_exec_visits_each_block_once_witness :
  let b r c := {| get_block_row_idx := r; get_block_col_idx := c |} in
  let blocks := [Some (b 0 0); None; Some (b 1 0); Some (b 1 1)]%nat in
  let o := hilbert_exec_order hilbert_xy2d_known 2 in
  let r := exec o blocks in
  (exec_ok r = true /\ exec_log r = [])
  /\ run_on_block_calls r ≡ₚ omap id blocks
  /\ run_on_block_calls r
     = omap (fun c => mjoin (blocks !! (c.1 * 2 + c.2)%nat))
         (coo <$> hilbert_orders_of o)
  /\ (coo <$> hilbert_orders_of o ≡ₚ grid_coordinates 2
      /\ NoDup (grid_coordinates 2)
      /\ length (hilbert_orders_of o) = (2 * 2)%nat
      /\ forall i j, (i, j) ∈ grid_coordinates 2 ↔ (i < 2)%nat ∧ (j < 2)%nat)
  /\ (StronglySorted coordinate_order_le (hilbert_orders_of o)
      /\ Forall (keyed_by hilbert_xy2d_known 2) (hilbert_orders_of o)).
Proof.
  intros b blocks.
  apply (hilbert_exec_visits_each_block_once hilbert_xy2d_known 2 blocks).
  reflexivity.
Defined.

(** Scenario S6: on the 4 × 4 grid the blocks are visited along the known
    Hilbert curve. *)
Example hilbert_order_4x4 :
  coo <$> hilbert_orders_of (hilbert_exec_order hilbert_xy2d_known 4)
  = [(0, 0); (1, 0); (1, 1); (0, 1); (0, 2); (0, 3); (1, 3); (1, 2);
     (2, 2); (2, 3); (3, 3); (3, 2); (3, 1); (2, 1); (2, 0); (3, 0)]%nat.
Proof. vm_compute. reflexivity. Qed.

(** A vector of another size is refused with an error. *)
Lemma hilbert_exec_wrong_size hilbert_xy2d n blocks :
  length blocks ≠ (n * n)%nat ->
  exec (hilbert_exec_order hilbert_xy2d n) blocks
  = {| exec_ok := false;
       exec_log := ["The number of blocks need to be n^2"%string];
       run_on_block_calls := [] |}.
Proof.
  intros H. cbn [exec hilbert_exec_order].
  rewrite bool_decide_eq_true_2; [done|].
  by rewrite (Permutation_length (std_sort_Permutation _)), length_grid_orders.
Qed.

(** ** Choosing and replacing the multiply order *)

Lemma is_valid_size_hilbert hilbert_xy2d n h w :
  is_valid_size (hilbert_exec_order hilbert_xy2d n) h w
  = bool_decide (n = h) && bool_decide (n = w).
Proof. done. Qed.

(** A task that is handed an order which is not valid for its strip takes
    the sequential order instead. *)
Lemma block_compute_task_init_substitutes PAGE_SIZE _io bs hilbert_xy2d n nbr :
  ceil_div (io_num_rows _io) (bs_num_rows bs) = Some nbr ->
  n ≠ nbr ->
  exists t,
    block_compute_task_init PAGE_SIZE _io bs
      (Some (hilbert_exec_order hilbert_xy2d n)) = Some t
    /\ bct_num_block_rows t = nbr
    /\ exec_order t = seq_exec_order.
Proof.
  intros Hc Hn. unfold block_compute_task_init. rewrite Hc. cbn.
  eexists. split; [reflexivity|]. cbn. split; [done|].
  by rewrite bool_decide_eq_false_2.
Qed.

Lemma exec_seq blocks :
  exec seq_exec_order blocks
  = {| exec_ok := true; exec_log := []; run_on_block_calls := omap id blocks |}.
Proof. done. Qed.

(** Provided the C library's [log2] tells powers of two from other numbers
    on the dimensions from 1 to below [2^32], [get_multiply_order] of a
    [block_sparse_matrix], and of a [block_sparse_asym_matrix] through it,
    logs an error and returns the empty pointer for every non-square grid
    and for every square grid whose dimension in that range is not a power
    of two, whatever [use_hilbert_order] says; for a power of two with the
    flag set it returns the Hilbert order of that dimension. *)
Lemma get_multiply_order_rejects log2_is_whole hilbert_xy2d use_hilbert_order
    num_block_rows num_block_cols :
  (forall n, 1 <= Z.of_nat n < 2 ^ 32 -> log2_is_whole n = is_power_of_two n) ->
  1 <= Z.of_nat num_block_rows < 2 ^ 32 ->
  let gmo := block_get_multiply_order log2_is_whole hilbert_xy2d in
  (num_block_rows ≠ num_block_cols ->
     gmo use_hilbert_order num_block_rows num_block_cols
     = (None, ["hilbert order requires a square."%string]))
  /\ (num_block_rows = num_block_cols ->
      is_power_of_two num_block_rows = false ->
      gmo use_hilbert_order num_block_rows num_block_cols
      = (None, ["hilbert order requires a dimension of 2^n"%string]))
  /\ (num_block_rows = num_block_cols ->
      is_power_of_two num_block_rows = true ->
      gmo true num_block_rows num_block_cols
      = (Some (hilbert_exec_order hilbert_xy2d num_block_rows), []))
  /\ (forall o bs mat t_mat b,
        get_multiply_order log2_is_whole hilbert_xy2d use_hilbert_order
          (block_sparse_matrix o) num_block_rows num_block_cols
        = gmo use_hilbert_order num_block_rows num_block_cols
        /\ get_multiply_order log2_is_whole hilbert_xy2d use_hilbert_order
             (block_sparse_asym_matrix b bs mat t_mat)
             num_block_rows num_block_cols
           = gmo use_hilbert_order num_block_rows num_block_cols).
Proof.
  intros Hlog Hrange gmo. subst gmo. unfold block_get_multiply_order.
  split; [|split; [|split]].
  - intros Hne. by rewrite bool_decide_eq_true_2.
  - intros Heq Hp. rewrite bool_decide_eq_false_2 by (intros H; by apply H).
    by rewrite Hlog, Hp.
  - intros Heq Hp. rewrite bool_decide_eq_false_2 by (intros H; by apply H).
    by rewrite Hlog, Hp.
  - done.
Qed.

(** A non-square grid is refused whatever [log2] says. *)
Lemma get_multiply_order_rejects_non_square log2_is_whole hilbert_xy2d
    use_hilbert_order num_block_rows num_block_cols :
  num_block_rows ≠ num_block_cols ->
  block_get_multiply_order log2_is_whole hilbert_xy2d use_hilbert_order
    num_block_rows num_block_cols
  = (None, ["hilbert order requires a square."%string]).
Proof.
  intros Hne. unfold block_get_multiply_order.
  by rewrite bool_decide_eq_true_2.
Qed.

(** Claim C5 at its failing input. The dimension 0 is no power of two, and
    the test [log2_nbr != floor(log2_nbr)] lets it through: [log2(0)] is
    minus infinity, which equals its [floor]. Asked for the order of a grid
    of 0 by 0 blocks, [get_multiply_order] of a [block_sparse_matrix], and of
    a [block_sparse_asym_matrix] through it, logs nothing and returns an
    order: with [use_hilbert_order] set, the Hilbert order of dimension 0,
    whose [exec] accepts the empty vector of blocks. *)
Theorem get_multiply_order_accepts_dimension_0 log2_is_whole hilbert_xy2d
    use_hilbert_order :
  log2_is_whole 0%nat = true ->
  is_power_of_two 0 = false
  /\ block_get_multiply_order log2_is_whole hilbert_xy2d use_hilbert_order 0 0
     = (Some (if use_hilbert_order then hilbert_exec_order hilbert_xy2d 0
              else seq_exec_order), [])
  /\ (forall o b bs mat t_mat,
        get_multiply_order log2_is_whole hilbert_xy2d true
          (block_sparse_matrix o) 0 0
        = (Some (hilbert_exec_order hilbert_xy2d 0), [])
        /\ get_multiply_order log2_is_whole hilbert_xy2d true
             (block_sparse_asym_matrix b bs mat t_mat) 0 0
           = (Some (hilbert_exec_order hilbert_xy2d 0), []))
  /\ exec (hilbert_exec_order hilbert_xy2d 0) []
     = {| exec_ok := true; exec_log := []; run_on_block_calls := [] |}.
Proof.
  intros H0. split; [done|].
  assert (Hgmo : forall use,
    block_get_multiply_order log2_is_whole hilbert_xy2d use 0 0
    = (Some (if use then hilbert_exec_order hilbert_xy2d 0
             else seq_exec_order), [])).
  { intros use. unfold block_get_multiply_order.
    rewrite bool_decide_eq_false_2 by (intros H; by apply H).
    rewrite H0. cbn [negb]. by destruct use. }
  split; [apply Hgmo|]. split; [|done].
  intros o b bs mat t_mat. cbn [get_multiply_order]. by rewrite Hgmo.
Qed.

(** An instance: the C library on the dimensions below [2^32], where
    [log2] is whole on 0 and on the powers of two. *)
Lemma get_multiply_order_accepts_dimension_0_witness :
  let log2_is_whole := fun n => bool_decide (n = 0%nat) || is_power_of_two n in
  block_get_multiply_order log2_is_whole hilbert_xy2d_known true 0 0
  = (Some (hilbert_exec_order hilbert_xy2d_known 0), [])
  /\ block_get_multiply_order log2_is_whole hilbert_xy2d_known true 3 3
     = (None, ["hilbert order requires a dimension of 2^n"%string]).
Proof.
  intros log2_is_whole. split; [|reflexivity].
  apply (get_multiply_order_accepts_dimension_0 log2_is_whole
           hilbert_xy2d_known true).
  reflexivity.
Defined.

(** ** Deleted vertices are terminal *)

Section DeletedIsTerminal.

Variable v : kcore_vertex.
Hypothesis v_deleted : deleted v = true.

Lemma deleted_run_on_message : kcore_vertex_run_on_message v = v.
Proof. unfold kcore_vertex_run_on_message, is_deleted. by rewrite v_deleted. Qed.

Lemma deleted_run CURRENT_K : kcore_vertex_run CURRENT_K v = [].
Proof.
  unfold kcore_vertex_run, is_deleted. rewrite v_deleted.
  by case_bool_decide.
Qed.

Lemma deleted_run_on_vertex CURRENT_K vertex :
  kcore_vertex_run_on_vertex CURRENT_K v vertex = (v, []).
Proof. unfold kcore_vertex_run_on_vertex, is_deleted. by rewrite v_deleted. Qed.

(** A message delivered to a deleted vertex changes nothing in the store. *)
Lemma deliver_message_deleted vs i :
  vs !! i = Some v -> deliver_message vs i = vs.
Proof.
  intros Hi. unfold deliver_message. apply list_eq. intros j.
  rewrite list_lookup_alter. case_decide; [|done].
  subst j. rewrite Hi. cbn. by rewrite deleted_run_on_message.
Qed.

(** Running a deleted vertex requests nothing, sends nothing and changes
    nothing. *)
Lemma process_vertex_deleted g CURRENT_K acc i :
  acc.1 !! i = Some v -> process_vertex g CURRENT_K acc i = acc.
Proof.
  intros Hi. unfold process_vertex. rewrite Hi. by rewrite deleted_run.
Qed.

(** The state of a deleted vertex survives whatever is delivered to, or run
    on, any vertex. *)
Lemma deliver_message_keeps vs i dst :
  vs !! i = Some v -> deliver_message vs dst !! i = Some v.
Proof.
  intros Hi. unfold deliver_message. rewrite list_lookup_alter.
  case_decide; [|done]. subst. rewrite Hi. cbn. by rewrite deleted_run_on_message.
Qed.

Lemma deliver_messages_keep msgs vs i :
  vs !! i = Some v -> foldl deliver_message vs msgs !! i = Some v.
Proof.
  revert vs. induction msgs as [|dst msgs IH]; intros vs Hi; [done|].
  cbn. apply IH. by apply deliver_message_keeps.
Qed.

Lemma complete_request_keeps g CURRENT_K vid acc rid i :
  acc.1 !! i = Some v ->
  (complete_request g CURRENT_K vid acc rid).1 !! i = Some v.
Proof.
  intros Hi. unfold complete_request.
  destruct (g !! rid) as [pv|]; [|done].
  destruct (acc.1 !! vid) as [v0|] eqn:Hvid; [|done]. cbn.
  destruct (decide (vid = i)) as [->|Hne].
  - assert (v0 = v) as -> by congruence.
    rewrite deleted_run_on_vertex. cbn.
    rewrite list_lookup_insert_eq; [done|]. by eapply lookup_lt_Some.
  - by rewrite list_lookup_insert_ne.
Qed.

Lemma complete_requests_keep g CURRENT_K vid rids acc i :
  acc.1 !! i = Some v ->
  (foldl (complete_request g CURRENT_K vid) acc rids).1 !! i = Some v.
Proof.
  revert acc. induction rids as [|rid rids IH]; intros acc Hi; [done|].
  cbn. apply IH. by apply complete_request_keeps.
Qed.

Lemma process_vertex_keeps g CURRENT_K acc vid i :
  acc.1 !! i = Some v ->
  (process_vertex g CURRENT_K acc vid).1 !! i = Some v.
Proof.
  intros Hi. unfold process_vertex.
  destruct (acc.1 !! vid); [|done]. by apply complete_requests_keep.
Qed.

Lemma process_vertices_keep g CURRENT_K vids acc i :
  acc.1 !! i = Some v ->
  (foldl (process_vertex g CURRENT_K) acc vids).1 !! i = Some v.
Proof.
  revert acc. induction vids as [|vid vids IH]; intros acc Hi; [done|].
  cbn. apply IH. by apply process_vertex_keeps.
Qed.

Lemma run_level_keeps g CURRENT_K st i :
  vertex_states st !! i = Some v ->
  vertex_states (run_level g CURRENT_K st) !! i = Some v.
Proof.
  intros Hi. unfold run_level. cbn.
  apply process_vertices_keep. cbn. by apply deliver_messages_keep.
Qed.

End DeletedIsTerminal.

(** ** Self-loops *)

Lemma multicast_delete_msg_all vertex E :
  multicast_delete_msg vertex E = neighbors vertex E.
Proof.
  unfold multicast_delete_msg, get_neigh_seq_it, get_num_edges.
  rewrite drop_0, Nat.sub_0_r. apply firstn_all.
Qed.

Lemma graph_of_edges_lookup n edges u :
  (u < n)%nat ->
  graph_of_edges n edges !! u
  = Some {| in_neighbors :=
              fst <$> filter (fun e => snd e = u /\ fst e ≠ u) edges;
            out_neighbors := snd <$> filter (fun e => fst e = u) edges |}.
Proof.
  intros Hu. unfold graph_of_edges.
  by rewrite list_lookup_fmap, lookup_seq_lt.
Qed.

(** The edges of a vertex in the graph file are the edges of the list that
    touch it, each taken once, a self-loop too. *)
Lemma graph_of_edges_in_plus_out n edges u pv :
  graph_of_edges n edges !! u = Some pv ->
  in_plus_out pv
  = Z.of_nat (length (filter (fun e => fst e = u \/ snd e = u) edges)).
Proof.
  intros Hpv.
  assert (Hu : (u < n)%nat).
  { apply lookup_lt_Some in Hpv. unfold graph_of_edges in Hpv.
    by rewrite length_fmap, length_seq in Hpv. }
  rewrite graph_of_edges_lookup in Hpv by done. simplify_eq.
  unfold in_plus_out. cbn [in_neighbors out_neighbors].
  rewrite !length_fmap. f_equal.
  induction edges as [|e edges IH]; [done|].
  rewrite !filter_cons.
  destruct (decide (fst e = u)) as [He|He].
  - rewrite decide_False by (intros [_ ?]; done).
    rewrite decide_True by auto. cbn [length]. lia.
  - destruct (decide (snd e = u)) as [Hs|Hs].
    + rewrite decide_True by done. rewrite decide_True by auto.
      cbn [length]. lia.
    + rewrite decide_False by (intros [? _]; done).
      rewrite decide_False by (intros [?|?]; done). done.
Qed.

(** A self-loop [u -> u] is among the out-edges of [u] and not among its
    in-edges. *)
Lemma graph_of_edges_self_loop n edges u pv :
  graph_of_edges n edges !! u = Some pv ->
  (u, u) ∈ edges ->
  u ∈ out_neighbors pv /\ u ∉ in_neighbors pv.
Proof.
  intros Hpv Hloop.
  assert (Hu : (u < n)%nat).
  { apply lookup_lt_Some in Hpv. unfold graph_of_edges in Hpv.
    by rewrite length_fmap, length_seq in Hpv. }
  rewrite graph_of_edges_lookup in Hpv by done. simplify_eq.
  cbn [in_neighbors out_neighbors]. split.
  - apply list_elem_of_fmap. exists (u, u). split; [done|].
    by apply list_elem_of_filter.
  - intros Hin. apply list_elem_of_fmap in Hin as (e & He & Hf).
    apply list_elem_of_filter in Hf as [[_ Hne] _]. done.
Qed.

Lemma kcore_vertex_new_degree g u pv :
  g !! u = Some pv ->
  degree (kcore_vertex_new g u) = to_vsize (in_plus_out pv).
Proof.
  intros Hu. unfold kcore_vertex_new, index_get_num_in_edges,
    index_get_num_out_edges, in_plus_out. cbn. rewrite Hu. cbn.
  f_equal. lia.
Qed.

(** Claim C8. A deleted vertex is terminal: [run_on_message] returns it
    unchanged, [run] requests nothing, and [run] with the adjacency view
    changes nothing and sends nothing; in the level loop, a message
    delivered to it leaves the store as it was, running it leaves the store
    and the outgoing messages as they were, and its state is the same after
    any level. The constructor adds the in-edges and the out-edges that the
    index gives for the vertex, in 32 bits; with the graph as the
    specification describes it, where a self-loop is listed once, the degree
    a vertex starts with is the number of edges that touch it, each counted
    once, a self-loop too. A vertex with a self-loop that [run] deletes
    sends a delete message to itself, and, being deleted, is left as it is
    by that message. *)
Theorem deleted_vertex_is_terminal v :
  deleted v = true ->
  kcore_vertex_run_on_message v = v
  /\ (forall CURRENT_K, kcore_vertex_run CURRENT_K v = [])
  /\ (forall CURRENT_K vertex,
        kcore_vertex_run_on_vertex CURRENT_K v vertex = (v, []))
  /\ (forall g CURRENT_K st i out,
        vertex_states st !! i = Some v ->
        deliver_message (vertex_states st) i = vertex_states st
        /\ process_vertex g CURRENT_K (vertex_states st, out) i
           = (vertex_states st, out)
        /\ vertex_states (run_level g CURRENT_K st) !! i = Some v)
  /\ (forall g u pv,
        g !! u = Some pv ->
        degree (kcore_vertex_new g u)
        = to_vsize (Z.of_nat (length (in_neighbors pv))
                    + Z.of_nat (length (out_neighbors pv))))
  /\ (forall n edges u pv,
        graph_of_edges n edges !! u = Some pv ->
        let w := kcore_vertex_new (graph_of_edges n edges) u in
        degree w
        = to_vsize (Z.of_nat (length (filter (fun e => fst e = u \/ snd e = u)
                                        edges)))
        /\ ((u, u) ∈ edges ->
            forall CURRENT_K,
              let r := kcore_vertex_run_on_vertex CURRENT_K w pv in
              deleted r.1 = true ->
              u ∈ r.2 /\ kcore_vertex_run_on_message r.1 = r.1)).
Proof.
  intros Hv. split; [|split; [|split; [|split; [|split]]]].
  - by apply deleted_run_on_message.
  - intros. by apply deleted_run.
  - intros. by apply deleted_run_on_vertex.
  - intros g CURRENT_K st i out Hi. split; [|split].
    + by apply (deliver_message_deleted v Hv).
    + by apply (process_vertex_deleted v Hv).
    + by apply (run_level_keeps v Hv).
  - intros g u pv Hpv. rewrite (kcore_vertex_new_degree _ _ _ Hpv).
    unfold in_plus_out. f_equal. lia.
  - intros n edges u pv Hpv w. split.
    + subst w. rewrite (kcore_vertex_new_degree _ _ _ Hpv).
      by rewrite (graph_of_edges_in_plus_out _ _ _ _ Hpv).
    + intros Hloop CURRENT_K r Hdel.
      destruct (graph_of_edges_self_loop _ _ _ _ Hpv Hloop) as [Hout _].
      split.
      * subst r. unfold kcore_vertex_run_on_vertex in *.
        change (is_deleted w) with false in *. cbn [negb] in *.
        case_bool_decide; [|done]. cbn [snd]. rewrite !multicast_delete_msg_all.
        apply elem_of_app. right. exact Hout.
      * by apply deleted_run_on_message.
Qed.

(** An instance: a deleted vertex that reached degree 1. *)
Lemma deleted_vertex_is_terminal_witness :
  let v := {| get_id := 2%nat; get_num_in_edges := 1; deleted := true;
              degree := 1 |} in
  kcore_vertex_run_on_message v = v
  /\ (forall CURRENT_K, kcore_vertex_run CURRENT_K v = []).
Proof.
  intros v.
  pose proof (deleted_vertex_is_terminal v eq_refl) as H.
  split; [apply H | apply H].
Defined.

(** ** The level loop ends *)

Lemma num_alive_cons v vs :
  num_alive (v :: vs) = (if deleted v then 0 else 1) + num_alive vs.
Proof.
  unfold num_alive, is_deleted. rewrite filter_cons.
  destruct (deleted v); case_decide; try done; cbn [length]; lia.
Qed.

Lemma num_alive_nonneg vs : 0 <= num_alive vs.
Proof. unfold num_alive. lia. Qed.

Lemma num_alive_le_length vs : num_alive vs <= Z.of_nat (length vs).
Proof.
  unfold num_alive.
  pose proof (length_filter (fun v => is_deleted v = false) vs). lia.
Qed.

(** A callback that keeps the [deleted] flag keeps the number of alive
    vertices. *)
Lemma num_alive_alter f i vs :
  (forall v, deleted (f v) = deleted v) ->
  num_alive (alter f i vs) = num_alive vs.
Proof.
  intros Hf. revert i. induction vs as [|v vs IH]; intros i; [done|].
  destruct i as [|i].
  - cbn [alter list_alter]. by rewrite !num_alive_cons, Hf.
  - change (alter f (S i) (v :: vs)) with (v :: alter f i vs).
    by rewrite !num_alive_cons, IH.
Qed.

Lemma run_on_message_deleted_flag v :
  deleted (kcore_vertex_run_on_message v) = deleted v.
Proof.
  unfold kcore_vertex_run_on_message, is_deleted.
  by destruct (deleted v) eqn:Hdel.
Qed.

Lemma num_alive_deliver_messages msgs vs :
  num_alive (foldl deliver_message vs msgs) = num_alive vs.
Proof.
  revert vs. induction msgs as [|dst msgs IH]; intros vs; [done|].
  cbn [foldl]. rewrite IH. apply num_alive_alter, run_on_message_deleted_flag.
Qed.

(** Deleting an alive vertex lowers the number of alive vertices by one. *)
Lemma num_alive_delete vs i v :
  vs !! i = Some v -> deleted v = false ->
  num_alive (<[i := _delete v]> vs) = num_alive vs - 1.
Proof.
  revert i. induction vs as [|w vs IH]; intros i Hi Hv; [done|].
  destruct i as [|i].
  - cbn in Hi. simplify_eq. cbn [insert list_insert].
    rewrite !num_alive_cons, Hv. cbn. lia.
  - change (<[S i := _delete v]> (w :: vs)) with (w :: <[i := _delete v]> vs).
    rewrite !num_alive_cons, (IH i) by done. lia.
Qed.

Lemma complete_request_progress g CURRENT_K vid n0 acc rid :
  level_progress n0 acc ->
  level_progress n0 (complete_request g CURRENT_K vid acc rid).
Proof.
  intros [Hle Hmsg]. unfold complete_request.
  destruct (g !! rid) as [pv|]; [|done].
  destruct (acc.1 !! vid) as [v|] eqn:Hvid; [|done].
  unfold kcore_vertex_run_on_vertex, is_deleted, get_degree.
  destruct (deleted v) eqn:Hdel.
  - cbn. rewrite list_insert_id, app_nil_r by done. done.
  - case_bool_decide.
    + unfold level_progress. cbn [fst snd].
      rewrite (num_alive_delete _ _ _ Hvid Hdel). split; [lia|right; lia].
    + cbn. rewrite list_insert_id, app_nil_r by done. done.
Qed.

Lemma process_vertex_progress g CURRENT_K n0 acc vid :
  level_progress n0 acc ->
  level_progress n0 (process_vertex g CURRENT_K acc vid).
Proof.
  intros Hp. unfold process_vertex. destruct (acc.1 !! vid) as [v|]; [|done].
  revert acc Hp. induction (kcore_vertex_run CURRENT_K v) as [|rid rids IH];
    intros acc Hp; [done|].
  cbn [foldl]. by apply IH, complete_request_progress.
Qed.

Lemma process_vertices_progress g CURRENT_K n0 vids acc :
  level_progress n0 acc ->
  level_progress n0 (foldl (process_vertex g CURRENT_K) acc vids).
Proof.
  revert acc. induction vids as [|vid vids IH]; intros acc Hp; [done|].
  cbn [foldl]. by apply IH, process_vertex_progress.
Qed.

(** A level either activates nothing for the next one or deletes a
    vertex. *)
Lemma run_level_progress g CURRENT_K st :
  current (run_level g CURRENT_K st) = []
  \/ num_alive (vertex_states (run_level g CURRENT_K st))
     < num_alive (vertex_states st).
Proof.
  unfold run_level. cbn [current vertex_states].
  set (vs1 := foldl deliver_message (vertex_states st) (inbox st)).
  destruct (process_vertices_progress g CURRENT_K (num_alive vs1)
              (current st) (vs1, [])) as [_ [Hnil|Hlt]].
  - split; [done|by left].
  - left. by rewrite Hnil.
  - right. subst vs1. by rewrite num_alive_deliver_messages in Hlt.
Qed.

(** The level loop returns within one level more than there are alive
    vertices. *)
Lemma wait4complete_terminates fuel g CURRENT_K st :
  num_alive (vertex_states st) < Z.of_nat fuel ->
  is_Some (wait4complete fuel g CURRENT_K st).
Proof.
  revert st. induction fuel as [|fuel IH]; intros st Hfuel.
  - pose proof (num_alive_nonneg (vertex_states st)). lia.
  - cbn [wait4complete].
    destruct (run_level_progress g CURRENT_K st) as [Hnil|Hlt].
    + by rewrite Hnil.
    + destruct (current (run_level g CURRENT_K st)); [done|].
      apply IH. lia.
Qed.

(** More fuel does not change what the level loop returns. *)
Lemma wait4complete_more_fuel fuel extra g CURRENT_K st vs :
  wait4complete fuel g CURRENT_K st = Some vs ->
  wait4complete (fuel + extra) g CURRENT_K st = Some vs.
Proof.
  revert st. induction fuel as [|fuel IH]; intros st H; [done|].
  cbn [Nat.add wait4complete] in *.
  destruct (current (run_level g CURRENT_K st)); [done|]. by apply IH.
Qed.

(** A peel always ends: one level more than there are vertices is
    enough. *)
Lemma kcore_peel_terminates g CURRENT_K vs :
  is_Some (kcore_peel (S (length vs)) g CURRENT_K vs).
Proof.
  unfold kcore_peel. apply wait4complete_terminates. unfold start. cbn.
  pose proof (num_alive_le_length vs). lia.
Qed.

(** ** The scenarios on E1 *)

(** The vertex states that the peel with [k = 3] ends with on E1. *)
Lemma E1_peel_3 extra :
  kcore_peel (3 + extra) E1 3 (create_vertex_states E1)
  = Some [ {| get_id := 0%nat; get_num_in_edges := 1; deleted := true; degree := 2 |};
           {| get_id := 1%nat; get_num_in_edges := 1; deleted := true; degree := 2 |};
           {| get_id := 2%nat; get_num_in_edges := 1; deleted := true; degree := 1 |};
           {| get_id := 3%nat; get_num_in_edges := 2; deleted := true; degree := 1 |};
           {| get_id := 4%nat; get_num_in_edges := 1; deleted := true; degree := 2 |};
           {| get_id := 5%nat; get_num_in_edges := 1; deleted := true; degree := 2 |} ].
Proof.
  change (3 + extra)%nat with (S (S (S extra))). vm_compute. reflexivity.
Qed.

(** ** The partitions of the workers *)

Lemma filter_disjoint_app {A} (P Q : A -> Prop)
    `{!forall x, Decision (P x), !forall x, Decision (Q x)} (l : list A) :
  (forall x, P x -> Q x -> False) ->
  filter P l ++ filter Q l ≡ₚ filter (fun x => P x ∨ Q x) l.
Proof.
  intros Hd. induction l as [|x l IH]; [done|].
  rewrite !filter_cons. destruct (decide (P x)), (decide (Q x)).
  - exfalso; eauto.
  - rewrite decide_True by auto. cbn. by rewrite IH.
  - rewrite decide_True by auto. rewrite <- IH.
    by rewrite Permutation_middle.
  - rewrite decide_False by tauto. done.
Qed.

Lemma filter_none {A} (P : A -> Prop) `{!forall x, Decision (P x)} (l : list A) :
  (forall x, ¬ P x) -> filter P l = [].
Proof.
  intros Hnone. induction l as [|x l IH]; [done|].
  by rewrite filter_cons_False.
Qed.

Lemma filter_all {A} (P : A -> Prop) `{!forall x, Decision (P x)} (l : list A) :
  (forall x, P x) -> filter P l = l.
Proof.
  intros Hall. induction l as [|x l IH]; [done|].
  rewrite filter_cons_True by done. by rewrite IH.
Qed.

(** The partitions of the workers [a .. a+m-1] hold the vertices whose key
    lies in that range. *)
Lemma concat_partitions_range {A} (key : A -> nat) (vs : list A) a m :
  concat ((fun i => filter (fun v => key v = i) vs) <$> seq a m)
  ≡ₚ filter (fun v => a <= key v < a + m)%nat vs.
Proof.
  revert a. induction m as [|m IH]; intros a.
  - cbn. rewrite filter_none; [done|]. intros x. lia.
  - cbn [seq fmap list_fmap concat]. rewrite IH.
    rewrite filter_disjoint_app by (intros x; lia).
    apply reflexive_eq, list_filter_iff. intros x. lia.
Qed.

(** Every vertex is in the partition of exactly one worker. *)
Lemma concat_worker_partitions nthreads vs :
  (0 < nthreads)%nat -> concat (worker_partitions nthreads vs) ≡ₚ vs.
Proof.
  intros Hn. unfold worker_partitions.
  rewrite (concat_partitions_range (fun v => get_id v mod nthreads)%nat).
  rewrite filter_all; [done|]. intros v. cbn beta.
  split; [apply Nat.le_0_l|]. rewrite Nat.add_0_l.
  apply Nat.mod_upper_bound. lia.
Qed.

(** ** What the two queries compute *)

Lemma max_of_cons x l : max_of (x :: l) = Z.max x (max_of l).
Proof. done. Qed.

Lemma max_of_nonneg l : 0 <= max_of l.
Proof. induction l; [done|]. rewrite max_of_cons. lia. Qed.

Lemma max_of_app l1 l2 : max_of (l1 ++ l2) = Z.max (max_of l1) (max_of l2).
Proof.
  induction l1 as [|x l1 IH].
  - pose proof (max_of_nonneg l2). rewrite app_nil_l.
    change (max_of []) with 0. lia.
  - rewrite <- app_comm_cons, !max_of_cons, IH. lia.
Qed.

Lemma max_of_Permutation l1 l2 : l1 ≡ₚ l2 -> max_of l1 = max_of l2.
Proof.
  intros H. unfold max_of.
  apply (foldr_permutation_proper (=) Z.max 0); [intros; lia|done].
Qed.

Lemma max_of_upper_bound l x : x ∈ l -> x <= max_of l.
Proof.
  induction 1 as [x l|x y l _ IH]; rewrite max_of_cons; lia.
Qed.

Lemma max_of_attained l : l ≠ [] -> (forall x, x ∈ l -> 0 <= x) -> max_of l ∈ l.
Proof.
  induction l as [|x l IH]; [done|]. intros _ Hpos. rewrite max_of_cons.
  destruct l as [|y l].
  - cbn. rewrite Z.max_l; [left|]. apply Hpos. left.
  - destruct (Z.max_spec x (max_of (y :: l))) as [[_ ->]|[_ ->]].
    + right. apply IH; [done|]. intros z Hz. apply Hpos. by right.
    + left.
Qed.

Section Queries.

Variable graph : graph_engine.

Lemma max_degree_query_run_max v q :
  get_max_degree (max_degree_query_run graph v q)
  = Z.max (get_max_degree q) (edges_of graph v).
Proof.
  unfold max_degree_query_run, edges_of. case_bool_decide; cbn; lia.
Qed.

Lemma max_degree_query_merge_max q1 q2 :
  get_max_degree (max_degree_query_merge graph q1 q2)
  = Z.max (get_max_degree q1) (get_max_degree q2).
Proof. unfold max_degree_query_merge. case_bool_decide; cbn; lia. Qed.

Lemma max_degree_run_fold part c :
  0 <= get_max_degree c ->
  get_max_degree (foldl (fun c v => max_degree_query_run graph v c) c part)
  = Z.max (get_max_degree c) (max_of (edges_of graph <$> part)).
Proof.
  revert c. induction part as [|v part IH]; intros c Hc.
  - cbn. lia.
  - cbn [foldl]. rewrite IH by (rewrite max_degree_query_run_max; lia).
    rewrite max_degree_query_run_max, fmap_cons, max_of_cons. lia.
Qed.

Lemma max_degree_merge_fold parts q :
  0 <= get_max_degree q ->
  get_max_degree
    (foldl (fun q part =>
              max_degree_query_merge graph q
                (foldl (fun c v => max_degree_query_run graph v c)
                   max_degree_query_new part)) q parts)
  = Z.max (get_max_degree q) (max_of (edges_of graph <$> concat parts)).
Proof.
  revert q. induction parts as [|part parts IH]; intros q Hq.
  - cbn [foldl concat fmap list_fmap]. change (max_of []) with 0. lia.
  - cbn [foldl concat].
    rewrite IH by (rewrite max_degree_query_merge_max; lia).
    rewrite max_degree_query_merge_max, max_degree_run_fold by done.
    rewrite fmap_app, max_of_app.
    pose proof (max_of_nonneg (edges_of graph <$> part)).
    change (get_max_degree max_degree_query_new) with 0. lia.
Qed.

(** [query_on_all] with a [max_degree_query] returns the largest
    [get_vertex_edges] over the vertices of all partitions. *)
Lemma query_on_all_max_degree parts :
  get_max_degree (query_on_all graph parts max_degree_query_new)
  = max_of (edges_of graph <$> concat parts).
Proof.
  unfold query_on_all. cbn [query_run query_merge query_clone
    max_degree_query_is_query]. rewrite max_degree_merge_fold by done.
  pose proof (max_of_nonneg (edges_of graph <$> concat parts)).
  change (get_max_degree max_degree_query_new) with 0. lia.
Qed.

Lemma to_size_add_l x y : to_size (to_size x + y) = to_size (x + y).
Proof. unfold to_size. by rewrite Zplus_mod_idemp_l. Qed.

Lemma to_size_add_r x y : to_size (x + to_size y) = to_size (x + y).
Proof. unfold to_size. by rewrite Zplus_mod_idemp_r. Qed.

Lemma num_deleted_cons v vs :
  num_deleted (v :: vs) = (if deleted v then 1 else 0) + num_deleted vs.
Proof.
  unfold num_deleted, is_deleted. rewrite filter_cons.
  destruct (deleted v); case_decide; try done; cbn [length]; lia.
Qed.

Lemma num_deleted_app vs1 vs2 :
  num_deleted (vs1 ++ vs2) = num_deleted vs1 + num_deleted vs2.
Proof. unfold num_deleted. rewrite filter_app, length_app. lia. Qed.

Lemma num_deleted_Permutation vs1 vs2 :
  vs1 ≡ₚ vs2 -> num_deleted vs1 = num_deleted vs2.
Proof. intros H. unfold num_deleted. by rewrite H. Qed.

Lemma count_run_fold part c x :
  get_num c = to_size x ->
  get_num (foldl (fun c v => count_vertex_query_run graph v c) c part)
  = to_size (x + num_deleted part).
Proof.
  revert c x. induction part as [|v part IH]; intros c x Hc; cbn [foldl].
  - rewrite Hc. apply (f_equal to_size). unfold num_deleted. cbn. lia.
  - rewrite num_deleted_cons. unfold count_vertex_query_run at 2, is_deleted.
    destruct (deleted v).
    + rewrite (IH _ (x + 1)).
      * apply (f_equal to_size). lia.
      * cbn. by rewrite Hc, to_size_add_l.
    + rewrite (IH _ x Hc). apply (f_equal to_size). lia.
Qed.

Lemma count_merge_fold parts q x :
  get_num q = to_size x ->
  get_num
    (foldl (fun q part =>
              count_vertex_query_merge graph q
                (foldl (fun c v => count_vertex_query_run graph v c)
                   count_vertex_query_new part)) q parts)
  = to_size (x + num_deleted (concat parts)).
Proof.
  revert q x. induction parts as [|part parts IH]; intros q x Hq; cbn [foldl concat].
  - rewrite Hq. apply (f_equal to_size). unfold num_deleted. cbn. lia.
  - rewrite (IH _ (x + num_deleted part)).
    + rewrite num_deleted_app. apply (f_equal to_size). lia.
    + cbn. rewrite (count_run_fold part count_vertex_query_new 0) by done.
      by rewrite Hq, to_size_add_l, to_size_add_r, Z.add_0_l.
Qed.

(** [query_on_all] with a [count_vertex_query] returns the number of
    deleted vertices over all partitions, as a [size_t]. *)
Lemma query_on_all_count parts :
  get_num (query_on_all graph parts count_vertex_query_new)
  = to_size (num_deleted (concat parts)).
Proof.
  unfold query_on_all. cbn. by rewrite (count_merge_fold parts _ 0).
Qed.

End Queries.

(** ** [kmax] when it is omitted *)

Lemma to_vsize_small x : 0 <= x < vsize_max -> to_vsize x = x.
Proof. intros H. unfold to_vsize. by apply Z.mod_small. Qed.

Lemma in_plus_out_nonneg pv : 0 <= in_plus_out pv.
Proof. unfold in_plus_out. lia. Qed.

(** On the engine built over a graph file, [get_vertex_edges] is the number
    of in-edges plus the number of out-edges, as long as that fits a
    [vsize_t]. *)
Lemma get_vertex_edges_create header_size nthreads g id pv :
  g !! id = Some pv ->
  in_plus_out pv < vsize_max ->
  get_vertex_edges (graph_engine_create header_size nthreads g) id
  = in_plus_out pv.
Proof.
  intros Hid Hlt. unfold get_vertex_edges, get_vertex_info, graph_engine_create.
  cbn [vertex_infos vertex_header_size]. rewrite list_lookup_fmap, Hid.
  cbn [fmap option_fmap option_map default get_ext_mem_size].
  unfold directed_vertex_ext_mem_size, sizeof_vertex_id_t.
  fold (in_plus_out pv). cbn [Datatypes.id get_ext_mem_size].
  replace (header_size + 4 * in_plus_out pv - header_size)
    with (in_plus_out pv * 4) by lia.
  rewrite Z.div_mul by lia. apply to_vsize_small.
  pose proof (in_plus_out_nonneg pv). lia.
Qed.

Lemma create_vertex_states_ids g :
  get_id <$> create_vertex_states g = seq 0 (length g).
Proof.
  unfold create_vertex_states. rewrite <- list_fmap_compose.
  rewrite <- (list_fmap_id (seq 0 (length g))) at 2.
  by apply list_fmap_ext.
Qed.

Lemma edges_of_created_states header_size nthreads g :
  Forall (fun pv => in_plus_out pv < vsize_max) g ->
  (fun v => get_vertex_edges (graph_engine_create header_size nthreads g)
              (get_id v)) <$> create_vertex_states g
  = in_plus_out <$> g.
Proof.
  intros Hg.
  change (fun v => get_vertex_edges ?e (get_id v))
    with (get_vertex_edges (graph_engine_create header_size nthreads g) ∘ get_id).
  rewrite list_fmap_compose, create_vertex_states_ids.
  apply list_eq. intros i. rewrite !list_lookup_fmap.
  destruct (g !! i) as [pv|] eqn:Hi.
  - rewrite lookup_seq_lt by (by eapply lookup_lt_Some). cbn.
    f_equal. apply get_vertex_edges_create; [done|].
    by eapply (proj1 (Forall_lookup _ _) Hg).
  - rewrite lookup_seq_ge; [done|]. by apply lookup_ge_None.
Qed.

(** Claim C3. When [main] is given [conf graph index kmin] and no [kmax], it
    takes as [kmax] the result of [query_on_all] with a [max_degree_query].
    For every engine and every partition of the vertices among the workers
    that result is the largest [get_vertex_edges] of a vertex; over a
    directed graph file whose vertices have fewer than [2^32] edges, read by
    at least one worker, it is the maximum over the vertices of in-edges plus
    out-edges: no vertex has more, some vertex has as many unless the graph
    is empty, and it is 0 for the empty graph. *)
Theorem kmax_omitted_is_max_degree header_size nthreads iters fuel g argv :
  length argv = 4%nat ->
  (0 < nthreads)%nat ->
  Forall (fun pv => in_plus_out pv < vsize_max) g ->
  exists r,
    main header_size nthreads iters fuel g argv = cli_run r
    /\ run_kmax r
       = get_max_degree
           (query_on_all (graph_engine_create header_size nthreads g)
              (worker_partitions nthreads (create_vertex_states g))
              max_degree_query_new)
    /\ (forall graph parts,
          get_max_degree (query_on_all graph parts max_degree_query_new)
          = max_of ((fun v => get_vertex_edges graph (get_id v))
                      <$> concat parts))
    /\ run_kmax r = max_of (in_plus_out <$> g)
    /\ (forall pv, pv ∈ g -> in_plus_out pv <= run_kmax r)
    /\ (g ≠ [] -> exists pv, pv ∈ g /\ in_plus_out pv = run_kmax r).
Proof.
  intros Hargc Hn Hg. unfold main. cbn zeta. rewrite Hargc.
  rewrite !(bool_decide_eq_false_2 (4 < 4)%nat) by lia.
  eexists. split; [reflexivity|]. cbn [run_kmax].
  assert (Hmax : get_max_degree
           (query_on_all (graph_engine_create header_size nthreads g)
              (worker_partitions nthreads (create_vertex_states g))
              max_degree_query_new) = max_of (in_plus_out <$> g)).
  { rewrite query_on_all_max_degree.
    rewrite (max_of_Permutation _
               ((fun v => get_vertex_edges
                            (graph_engine_create header_size nthreads g)
                            (get_id v)) <$> create_vertex_states g)).
    - by rewrite edges_of_created_states.
    - by rewrite concat_worker_partitions. }
  split; [done|]. split; [apply query_on_all_max_degree|].
  rewrite Hmax. split; [done|]. split.
  - intros pv Hpv. apply max_of_upper_bound. by apply list_elem_of_fmap_2.
  - intros Hne.
    assert (Hin : max_of (in_plus_out <$> g) ∈ in_plus_out <$> g).
    { apply max_of_attained.
      - by destruct g.
      - intros x (pv & -> & _)%list_elem_of_fmap. apply in_plus_out_nonneg. }
    apply list_elem_of_fmap in Hin as (pv & Heq & Hpv). eauto.
Qed.

(** An instance: graph E1, whose largest degree is 3 (scenario S3). *)
Lemma kmax_omitted_is_max_degree_witness :
  exists r,
    main 16 2 10 10 E1 ["conf"; "graph"; "index"; "2"]%string = cli_run r
    /\ run_kmax r = 3.
Proof.
  destruct (kmax_omitted_is_max_degree 16 2 10 10 E1
              ["conf"; "graph"; "index"; "2"]%string)
    as (r & Hr & _ & _ & Hmax & _).
  - reflexivity.
  - lia.
  - apply (bool_decide_unpack
             (Forall (fun pv => in_plus_out pv < vsize_max) E1)).
    vm_compute. exact I.
  - exists r. split; [exact Hr|]. rewrite Hmax. reflexivity.
Defined.

(** ** What the command line prints *)

(** One iteration of the loop of [main]: the count on the result line is
    the number of deleted vertices. *)
Lemma kcore_loop_step iters fuel g graph CURRENT_K kmax vs vs' lines :
  CURRENT_K <= kmax ->
  (0 < num_threads graph)%nat ->
  kcore_peel fuel g CURRENT_K vs = Some vs' ->
  kcore_loop (S iters) fuel g graph CURRENT_K kmax vs lines
  = kcore_loop iters fuel g graph (to_vsize (CURRENT_K + 1)) kmax vs'
      (lines ++ [{| line_k := CURRENT_K;
                    line_in_k_core := to_size (num_deleted vs') |}]).
Proof.
  intros Hk Hn Hpeel. cbn [kcore_loop].
  rewrite bool_decide_eq_true_2 by done. rewrite Hpeel. cbn [mbind option_bind].
  rewrite query_on_all_count.
  by rewrite (num_deleted_Permutation _ _ (concat_worker_partitions _ vs' Hn)).
Qed.

(** With at least four arguments [main] goes on to create the engine,
    whatever [kmin] is. *)
Lemma main_accepts_any_kmin header_size nthreads iters fuel g argv :
  (4 <= length argv)%nat ->
  exists r,
    main header_size nthreads iters fuel g argv = cli_run r
    /\ run_kmin r = to_vsize (atol (default ""%string (argv !! 3%nat))).
Proof.
  intros Hargc. unfold main. cbn zeta.
  rewrite bool_decide_eq_false_2 by lia. eauto.
Qed.

(** [run_kcore] refuses a [k] below 2. *)
Lemma run_kcore_rejects_small_k args o :
  run_kcore_getopt args {| opt_k := 2; opt_kmax := 0; opt_skips := true |} = Some o ->
  opt_k o < 2 ->
  run_kcore args = cli_exit (-1) ["[Error]: kmin cannot be < 2"%string].
Proof.
  intros Ho Hk. unfold run_kcore. rewrite Ho.
  by rewrite bool_decide_eq_true_2.
Qed.

(** Claim C2. On graph E1, the peel with [k = 3] ends, after three levels,
    with all six vertices deleted: none is alive, and a [count_vertex_query]
    run over the result by any positive number of workers reports 6. *)
Theorem E1_peel_3_deletes_all extra nthreads graph :
  exists vs,
    kcore_peel (3 + extra) E1 3 (create_vertex_states E1) = Some vs
    /\ length vs = 6%nat
    /\ Forall (fun v => deleted v = true) vs
    /\ num_alive vs = 0
    /\ get_num (query_on_all graph (worker_partitions (S nthreads) vs)
                  count_vertex_query_new) = 6.
Proof.
  eexists. split; [apply E1_peel_3|].
  split; [done|]. split; [repeat constructor|]. split; [done|].
  rewrite query_on_all_count.
  assert (Hn : (0 < S nthreads)%nat) by lia.
  by rewrite (num_deleted_Permutation _ _
                (concat_worker_partitions (S nthreads) _ Hn)).
Qed.

(** Claim C1 at a failing input. On E1 with [kmin = kmax = 3] the line printed
    for [k = 3] shows 6, the number of deleted vertices, while no vertex is
    alive; with [kmin = kmax = 2] it shows 0 while all six are alive. *)
Theorem main_prints_deleted_count :
  main 16 2 10 10 E1 ["conf"; "graph"; "index"; "3"; "3"]%string
  = cli_run {| run_kmin := 3; run_kmax := 3;
               run_lines := Some [{| line_k := 3; line_in_k_core := 6 |}] |}
  /\ (exists vs,
        kcore_peel 10 E1 3 (create_vertex_states E1) = Some vs
        /\ num_alive vs = 0 /\ num_deleted vs = 6)
  /\ main 16 2 10 10 E1 ["conf"; "graph"; "index"; "2"; "2"]%string
     = cli_run {| run_kmin := 2; run_kmax := 2;
                  run_lines := Some [{| line_k := 2; line_in_k_core := 0 |}] |}
  /\ (exists vs,
        kcore_peel 10 E1 2 (create_vertex_states E1) = Some vs
        /\ num_alive vs = 6 /\ num_deleted vs = 0).
Proof.
  split; [vm_compute; reflexivity|].
  split; [eexists; split; [vm_compute; reflexivity|]; split; vm_compute; reflexivity|].
  split; [vm_compute; reflexivity|].
  eexists; split; [vm_compute; reflexivity|]; split; vm_compute; reflexivity.
Qed.

(** Claim C6 at a failing input. [main] of the k-core application, given
    [kmin = 1], does not exit: it creates the engine, runs the loop from
    [k = 1] and returns. [run_kcore] of the test driver, given the same [k],
    prints the error and calls [exit(-1)]. *)
Theorem main_accepts_kmin_1 :
  main 16 2 10 10 E1 ["conf"; "graph"; "index"; "1"]%string
  = cli_run {| run_kmin := 1; run_kmax := 3;
               run_lines := Some [{| line_k := 1; line_in_k_core := 0 |};
                                  {| line_k := 2; line_in_k_core := 0 |};
                                  {| line_k := 3; line_in_k_core := 6 |}] |}
  /\ run_kcore ["-k"; "1"]%string
     = cli_exit (-1) ["[Error]: kmin cannot be < 2"%string].
Proof. split; vm_compute; reflexivity. Qed.

(** * Part II, continued: properties of the further code *)

(** ** The callbacks of a k-core vertex *)

(** X1. [run] with the adjacency view deletes the vertex exactly when it
    is alive with a degree below [CURRENT_K]; it then keeps the degree and
    sends one message to every in-neighbour followed by one to every
    out-neighbour, [get_num_edges(IN_EDGE) + get_num_edges(OUT_EDGE)] in all.
    In every other case it changes nothing and sends nothing, so a vertex
    multicasts at most once: whatever a later call is given, it sends
    nothing after a call that deleted the vertex. *)
Theorem run_on_vertex_multicasts_once CURRENT_K v vertex :
  let r := kcore_vertex_run_on_vertex CURRENT_K v vertex in
  (deleted v = false /\ degree v < CURRENT_K ->
     deleted r.1 = true /\ degree r.1 = degree v /\ get_id r.1 = get_id v
     /\ r.2 = in_neighbors vertex ++ out_neighbors vertex
     /\ length r.2
        = (get_num_edges vertex IN_EDGE + get_num_edges vertex OUT_EDGE)%nat)
  /\ (deleted v = true \/ CURRENT_K <= degree v -> r = (v, []))
  /\ (deleted r.1 = true ->
      forall CURRENT_K' vertex',
        kcore_vertex_run_on_vertex CURRENT_K' r.1 vertex' = (r.1, [])).
Proof.
  intros r. subst r. unfold kcore_vertex_run_on_vertex, is_deleted, get_degree.
  split; [|split].
  - intros [Hd Hk]. rewrite Hd, bool_decide_eq_true_2 by done.
    cbn [fst snd _delete deleted degree get_id].
    rewrite !multicast_delete_msg_all. cbn [neighbors].
    repeat split. unfold get_num_edges. cbn [neighbors]. apply length_app.
  - intros [Hd|Hk].
    + by rewrite Hd.
    + destruct (deleted v); [done|]. by rewrite bool_decide_eq_false_2 by lia.
  - intros Hd CURRENT_K' vertex'. by rewrite Hd.
Qed.

(** X2. A vertex as its constructor leaves it is kept by the activation
    filter of [main] exactly when its degree is below the filter's bound;
    the filter's sum [get_num_in_edges() + get_num_out_edges()] is
    [get_num_edges()] whatever the in-edge count is, the subtraction and the
    addition cancelling in 32 bits. The filter with bound [k] therefore
    activates exactly the fresh vertices that [run] with [CURRENT_K = k]
    deletes. *)
Theorem activate_k_filter_matches_run g min id vertex :
  let v := kcore_vertex_new g id in
  (forall w, activate_k_filter_keep g min w
             = bool_decide (compute_vertex_get_num_edges g w < min))
  /\ activate_k_filter_keep g min v = bool_decide (degree v < min)
  /\ (activate_k_filter_keep g min v = true
      <-> deleted (kcore_vertex_run_on_vertex min v vertex).1 = true).
Proof.
  intros v.
  assert (Hsum : forall w, to_vsize (get_num_in_edges w + get_num_out_edges g w)
                           = compute_vertex_get_num_edges g w).
  { intros w. unfold get_num_out_edges, to_vsize.
    rewrite Zplus_mod_idemp_r.
    replace (get_num_in_edges w
             + (compute_vertex_get_num_edges g w - get_num_in_edges w))
      with (compute_vertex_get_num_edges g w) by lia.
    unfold compute_vertex_get_num_edges, to_vsize. apply Z.mod_mod.
    unfold vsize_max. lia. }
  assert (Hkeep : forall w, activate_k_filter_keep g min w
             = bool_decide (compute_vertex_get_num_edges g w < min)).
  { intros w. unfold activate_k_filter_keep. by rewrite Hsum. }
  split; [done|].
  assert (Hv : activate_k_filter_keep g min v = bool_decide (degree v < min))
    by (rewrite Hkeep; done).
  split; [done|]. rewrite Hv.
  unfold kcore_vertex_run_on_vertex, is_deleted, get_degree.
  assert (Hd : deleted v = false) by done. rewrite Hd.
  destruct (bool_decide (degree v < min)); cbn; split; congruence.
Qed.

(** Delivering a message keeps the id and the in-edge count. *)
Lemma deliver_n_alive n v :
  deleted v = false -> 0 <= Z.of_nat n <= degree v -> degree v < vsize_max ->
  deliver_n n v
  = {| get_id := get_id v; get_num_in_edges := get_num_in_edges v;
       deleted := false; degree := degree v - Z.of_nat n |}.
Proof.
  intros Hd. unfold deliver_n. induction n as [|n IH]; intros Hn Hlt.
  - cbn. destruct v. cbn in *. subst. f_equal. lia.
  - rewrite Nat.iter_succ, IH by lia.
    unfold kcore_vertex_run_on_message, is_deleted. cbn. f_equal.
    rewrite to_vsize_small by lia. lia.
Qed.

(** X3. Messages alone never delete: after [n] deliveries to an alive
    vertex whose degree is at least [n], the vertex is still alive, has its
    id and in-edge count, and its degree is lower by [n]. With a degree of 0
    the next delivery wraps the [vsize_t] around to [2^32 - 1]. *)
Theorem messages_lower_degree n v :
  deleted v = false ->
  0 <= Z.of_nat n <= degree v ->
  degree v < vsize_max ->
  deleted (deliver_n n v) = false
  /\ degree (deliver_n n v) = degree v - Z.of_nat n
  /\ get_id (deliver_n n v) = get_id v
  /\ (degree (deliver_n n v) = 0 ->
      degree (deliver_n (S n) v) = vsize_max - 1).
Proof.
  intros Hd Hn Hlt.
  assert (HS : deliver_n (S n) v = kcore_vertex_run_on_message (deliver_n n v))
    by done.
  rewrite HS, (deliver_n_alive n v Hd Hn Hlt).
  cbn [deleted degree get_id]. repeat split. intros H0.
  unfold kcore_vertex_run_on_message, is_deleted. cbn [deleted degree].
  by rewrite H0.
Qed.

(** An instance: vertex 2 of E1, of degree 3, after two deliveries. *)
Lemma messages_lower_degree_witness :
  degree (deliver_n 2 (kcore_vertex_new E1 2)) = 1.
Proof.
  apply (messages_lower_degree 2 (kcore_vertex_new E1 2)).
  - reflexivity.
  - vm_compute. split; congruence.
  - reflexivity.
Defined.

(** ** The two queries, one worker at a time *)

Lemma max_degree_query_eq (a b : max_degree_query) :
  get_max_degree a = get_max_degree b -> a = b.
Proof. destruct a, b. cbn. by intros ->. Qed.

Lemma count_vertex_query_eq (a b : count_vertex_query) :
  get_num a = get_num b -> a = b.
Proof. destruct a, b. cbn. by intros ->. Qed.

Lemma max_degree_over_value graph l :
  get_max_degree (max_degree_over graph l) = max_of (edges_of graph <$> l).
Proof.
  unfold max_degree_over. rewrite max_degree_run_fold by done.
  change (get_max_degree max_degree_query_new) with 0.
  pose proof (max_of_nonneg (edges_of graph <$> l)). lia.
Qed.

(** X4. [max_degree_query::merge] leaves the larger of the two maxima;
    merging is commutative, associative and idempotent. A query run over a
    list of vertices holds a value no vertex of the list exceeds, which is 0
    for the empty list; running two queries over two lists and merging them
    gives the query run over the two lists one after the other, so the
    result of a parallel run does not depend on how the vertices were
    split. *)
Theorem max_degree_query_merge_laws graph :
  (forall a b,
     get_max_degree (max_degree_query_merge graph a b)
     = Z.max (get_max_degree a) (get_max_degree b))
  /\ (forall a b, max_degree_query_merge graph a b
                  = max_degree_query_merge graph b a)
  /\ (forall a b c,
        max_degree_query_merge graph (max_degree_query_merge graph a b) c
        = max_degree_query_merge graph a (max_degree_query_merge graph b c))
  /\ (forall a, max_degree_query_merge graph a a = a)
  /\ (forall l v, v ∈ l ->
        get_vertex_edges graph (get_id v)
        <= get_max_degree (max_degree_over graph l))
  /\ get_max_degree (max_degree_over graph []) = 0
  /\ (forall l1 l2,
        max_degree_query_merge graph (max_degree_over graph l1)
          (max_degree_over graph l2)
        = max_degree_over graph (l1 ++ l2)).
Proof.
  assert (Hm := max_degree_query_merge_max graph).
  split; [done|]. split; [|split; [|split; [|split; [|split]]]].
  - intros a b. apply max_degree_query_eq. rewrite !Hm. lia.
  - intros a b c. apply max_degree_query_eq. rewrite !Hm. lia.
  - intros a. apply max_degree_query_eq. rewrite !Hm. lia.
  - intros l v Hv. rewrite max_degree_over_value.
    apply max_of_upper_bound.
    change (get_vertex_edges graph (get_id v)) with (edges_of graph v).
    by apply list_elem_of_fmap_2.
  - done.
  - intros l1 l2. apply max_degree_query_eq.
    by rewrite Hm, !max_degree_over_value, fmap_app, max_of_app.
Qed.

Lemma count_over_value graph l :
  get_num (count_over graph l) = to_size (num_deleted l).
Proof.
  unfold count_over. by rewrite (count_run_fold graph l _ 0).
Qed.

(** X5. A [count_vertex_query] run over a list of vertices holds the
    number of deleted vertices of the list, not of alive ones, as a
    [size_t]; a vertex that is not deleted leaves the query as it is.
    [merge] adds the two counts in [size_t]; it is commutative and
    associative, and merging the queries run over two lists gives the query
    run over the two lists one after the other. *)
Theorem count_vertex_query_counts_deleted graph :
  (forall l, get_num (count_over graph l) = to_size (num_deleted l))
  /\ (forall l, Z.of_nat (length l) < size_max ->
        get_num (count_over graph l) = Z.of_nat (length l) - num_alive l)
  /\ (forall v q, deleted v = false -> count_vertex_query_run graph v q = q)
  /\ (forall a b, count_vertex_query_merge graph a b
                  = count_vertex_query_merge graph b a)
  /\ (forall a b c,
        count_vertex_query_merge graph (count_vertex_query_merge graph a b) c
        = count_vertex_query_merge graph a (count_vertex_query_merge graph b c))
  /\ (forall l1 l2,
        count_vertex_query_merge graph (count_over graph l1)
          (count_over graph l2)
        = count_over graph (l1 ++ l2)).
Proof.
  split; [apply count_over_value|]. split; [|split; [|split; [|split]]].
  - intros l Hl. rewrite count_over_value.
    assert (Hsum : num_deleted l + num_alive l = Z.of_nat (length l)).
    { induction l as [|v l IH]; [done|].
      rewrite num_deleted_cons, num_alive_cons. cbn [length] in *.
      destruct (deleted v); lia. }
    pose proof (num_alive_nonneg l).
    assert (0 <= num_deleted l) by (unfold num_deleted; lia).
    unfold to_size. rewrite Z.mod_small by lia. lia.
  - intros v q Hv. unfold count_vertex_query_run, is_deleted. by rewrite Hv.
  - intros a b. apply count_vertex_query_eq. cbn. f_equal. lia.
  - intros a b c. apply count_vertex_query_eq. cbn.
    rewrite to_size_add_l, to_size_add_r. f_equal. lia.
  - intros l1 l2. apply count_vertex_query_eq. cbn.
    rewrite !count_over_value, to_size_add_l, to_size_add_r.
    by rewrite num_deleted_app.
Qed.

(** ** The peel as a whole *)

Lemma fmap_get_id_alter f i (vs : list kcore_vertex) :
  (forall v, get_id (f v) = get_id v) ->
  get_id <$> alter f i vs = get_id <$> vs.
Proof.
  intros Hf. apply list_eq. intros j. rewrite !list_lookup_fmap.
  rewrite list_lookup_alter. case_decide; [|done]. subst j.
  destruct (vs !! i); cbn; [|done]. by rewrite Hf.
Qed.

Lemma fmap_get_id_insert i (vs : list kcore_vertex) v w :
  vs !! i = Some v -> get_id w = get_id v ->
  get_id <$> <[i := w]> vs = get_id <$> vs.
Proof.
  intros Hi Hw. apply list_eq. intros j. rewrite !list_lookup_fmap.
  destruct (decide (i = j)) as [<-|Hne].
  - rewrite list_lookup_insert_eq by (by eapply lookup_lt_Some).
    rewrite Hi. cbn. by rewrite Hw.
  - by rewrite list_lookup_insert_ne.
Qed.

Lemma run_on_message_id v : get_id (kcore_vertex_run_on_message v) = get_id v.
Proof.
  unfold kcore_vertex_run_on_message. by destruct (is_deleted v).
Qed.

Lemma run_on_vertex_id CURRENT_K v vertex :
  get_id (kcore_vertex_run_on_vertex CURRENT_K v vertex).1 = get_id v.
Proof.
  unfold kcore_vertex_run_on_vertex. destruct (is_deleted v); [done|].
  by case_bool_decide.
Qed.

Lemma deliver_messages_ids msgs vs :
  get_id <$> foldl deliver_message vs msgs = get_id <$> vs.
Proof.
  revert vs. induction msgs as [|dst msgs IH]; intros vs; [done|].
  cbn [foldl]. rewrite IH. apply fmap_get_id_alter, run_on_message_id.
Qed.

Lemma complete_request_ids g CURRENT_K vid acc rid :
  get_id <$> (complete_request g CURRENT_K vid acc rid).1 = get_id <$> acc.1.
Proof.
  unfold complete_request. destruct (g !! rid) as [pv|]; [|done].
  destruct (acc.1 !! vid) as [v|] eqn:Hvid; [|done]. cbn [fst].
  eapply fmap_get_id_insert; [done|]. apply run_on_vertex_id.
Qed.

Lemma process_vertex_ids g CURRENT_K acc vid :
  get_id <$> (process_vertex g CURRENT_K acc vid).1 = get_id <$> acc.1.
Proof.
  unfold process_vertex. destruct (acc.1 !! vid) as [v|]; [|done].
  revert acc. induction (kcore_vertex_run CURRENT_K v) as [|rid rids IH];
    intros acc; [done|].
  cbn [foldl]. by rewrite IH, complete_request_ids.
Qed.

Lemma process_vertices_ids g CURRENT_K vids acc :
  get_id <$> (foldl (process_vertex g CURRENT_K) acc vids).1 = get_id <$> acc.1.
Proof.
  revert acc. induction vids as [|vid vids IH]; intros acc; [done|].
  cbn [foldl]. by rewrite IH, process_vertex_ids.
Qed.

Lemma run_level_ids g CURRENT_K st :
  get_id <$> vertex_states (run_level g CURRENT_K st)
  = get_id <$> vertex_states st.
Proof.
  unfold run_level. cbn [vertex_states].
  rewrite process_vertices_ids. cbn [fst]. apply deliver_messages_ids.
Qed.

Lemma run_level_num_alive g CURRENT_K st :
  num_alive (vertex_states (run_level g CURRENT_K st))
  <= num_alive (vertex_states st).
Proof.
  unfold run_level. cbn [vertex_states].
  set (vs1 := foldl deliver_message (vertex_states st) (inbox st)).
  destruct (process_vertices_progress g CURRENT_K (num_alive vs1)
              (current st) (vs1, [])) as [Hle _].
  - split; [done|by left].
  - subst vs1. by rewrite num_alive_deliver_messages in Hle.
Qed.

Lemma wait4complete_keeps fuel g CURRENT_K st vs' :
  wait4complete fuel g CURRENT_K st = Some vs' ->
  get_id <$> vs' = get_id <$> vertex_states st
  /\ num_alive vs' <= num_alive (vertex_states st)
  /\ (forall i v, vertex_states st !! i = Some v -> deleted v = true ->
        vs' !! i = Some v).
Proof.
  revert st. induction fuel as [|fuel IH]; intros st H; [done|].
  cbn [wait4complete] in H.
  pose proof (run_level_ids g CURRENT_K st) as Hids.
  pose proof (run_level_num_alive g CURRENT_K st) as Hal.
  destruct (current (run_level g CURRENT_K st)).
  - simplify_eq. split; [done|]. split; [done|].
    intros i v Hi Hv. by apply run_level_keeps.
  - apply IH in H as (Hids' & Hal' & Hk). split; [congruence|]. split; [lia|].
    intros i v Hi Hv. apply Hk; [|done]. by apply run_level_keeps.
Qed.

Lemma kcore_peel_inv fuel g CURRENT_K vs vs' :
  kcore_peel fuel g CURRENT_K vs = Some vs' ->
  get_id <$> vs' = get_id <$> vs
  /\ length vs' = length vs
  /\ num_alive vs' <= num_alive vs
  /\ (forall i v, vs !! i = Some v -> deleted v = true -> vs' !! i = Some v).
Proof.
  unfold kcore_peel. intros H.
  apply wait4complete_keeps in H as (Hids & Hal & Hk). cbn in *.
  split; [done|]. split; [|done].
  by rewrite <- (length_fmap get_id vs'), Hids, length_fmap.
Qed.

Lemma kcore_peel_is_Some fuel g CURRENT_K vs :
  num_alive vs < Z.of_nat fuel -> is_Some (kcore_peel fuel g CURRENT_K vs).
Proof. intros H. unfold kcore_peel. by apply wait4complete_terminates. Qed.

(** X6. In the level loop as the specification describes it, a peel
    that returns leaves every vertex where it was, with its id; a vertex
    that was deleted before the peel has the very same state after it; and
    no vertex comes back to life: the number of alive vertices does not
    grow. *)
Theorem kcore_peel_keeps_deleted fuel g CURRENT_K vs vs' :
  kcore_peel fuel g CURRENT_K vs = Some vs' ->
  get_id <$> vs' = get_id <$> vs
  /\ length vs' = length vs
  /\ num_alive vs' <= num_alive vs
  /\ (forall i v, vs !! i = Some v -> deleted v = true -> vs' !! i = Some v).
Proof.
  unfold kcore_peel. intros H.
  destruct (wait4complete_keeps _ _ _ _ _ H) as (Hids & Hal & Hk).
  cbn [start vertex_states] in Hids, Hal, Hk.
  split; [exact Hids|]. split; [|split; [exact Hal|exact Hk]].
  rewrite <- (length_fmap get_id vs'), Hids. apply length_fmap.
Qed.

(** An instance: the peel of E1 with [k = 3]. *)
Lemma kcore_peel_keeps_deleted_witness :
  exists vs',
    kcore_peel 3 E1 3 (create_vertex_states E1) = Some vs'
    /\ length vs' = 6%nat.
Proof.
  destruct (kcore_peel 3 E1 3 (create_vertex_states E1)) as [vs'|] eqn:H;
    [|vm_compute in H; discriminate H].
  exists vs'. split; [reflexivity|].
  apply (kcore_peel_keeps_deleted 3 E1 3 (create_vertex_states E1) vs' H).
Defined.

(** X7. In the level loop as the specification describes it, a peel
    always ends: a level that sends a message deletes a vertex, so with one
    level more than there are alive vertices the loop returns, and more
    levels return the same states. *)
Theorem kcore_peel_ends fuel g CURRENT_K vs :
  num_alive vs < Z.of_nat fuel ->
  exists vs',
    forall extra, kcore_peel (fuel + extra) g CURRENT_K vs = Some vs'.
Proof.
  intros Hfuel. unfold kcore_peel.
  destruct (wait4complete_terminates fuel g CURRENT_K
              (start g (activate_k_filter_keep g CURRENT_K) vs)) as [vs' Hvs'].
  - done.
  - exists vs'. intros extra. by apply wait4complete_more_fuel.
Qed.

(** An instance: E1 has six alive vertices, seven levels are enough. *)
Lemma kcore_peel_ends_witness :
  exists vs',
    forall extra, kcore_peel (7 + extra) E1 3 (create_vertex_states E1) = Some vs'.
Proof.
  apply (kcore_peel_ends 7 E1 3 (create_vertex_states E1)).
  vm_compute. reflexivity.
Defined.

(** ** The loop of [main] over [CURRENT_K] *)

Lemma num_deleted_plus_alive l :
  num_deleted l + num_alive l = Z.of_nat (length l).
Proof.
  induction l as [|v l IH]; [done|].
  rewrite num_deleted_cons, num_alive_cons. cbn [length].
  destruct (deleted v); lia.
Qed.

Lemma to_size_small x : 0 <= x < size_max -> to_size x = x.
Proof. intros H. unfold to_size. by apply Z.mod_small. Qed.

Lemma kcore_loop_lines_from iters fuel g graph kmax :
  (0 < num_threads graph)%nat ->
  kmax < vsize_max - 1 ->
  forall CURRENT_K vs lines,
    0 <= CURRENT_K ->
    kmax - CURRENT_K < Z.of_nat iters ->
    (length vs < fuel)%nat ->
    Z.of_nat (length vs) < size_max ->
    exists new,
      kcore_loop iters fuel g graph CURRENT_K kmax vs lines = Some (lines ++ new)
      /\ line_k <$> new = seqZ CURRENT_K (kmax - CURRENT_K + 1)
      /\ Forall (fun c => num_deleted vs <= c <= Z.of_nat (length vs))
           (line_in_k_core <$> new)
      /\ Sorted Z.le (line_in_k_core <$> new).
Proof.
  intros Hn Hkmax.
  induction iters as [|iters IH]; intros k vs lines Hk Hit Hfuel Hsz.
  - exists []. rewrite app_nil_r.
    cbn [kcore_loop]. rewrite bool_decide_eq_false_2 by lia.
    split; [done|]. rewrite seqZ_nil by lia. by repeat split; constructor.
  - destruct (decide (k <= kmax)) as [Hle|Hgt].
    + destruct (kcore_peel_is_Some fuel g k vs) as [vs' Hpeel].
      { pose proof (num_alive_le_length vs). lia. }
      rewrite (kcore_loop_step _ _ _ _ _ _ _ vs') by done.
      destruct (kcore_peel_inv _ _ _ _ _ Hpeel) as (_ & Hlen & Hal & _).
      rewrite to_vsize_small by lia.
      pose proof (num_deleted_plus_alive vs) as Hs.
      pose proof (num_deleted_plus_alive vs') as Hs'.
      pose proof (num_alive_nonneg vs').
      assert (0 <= num_deleted vs') by (unfold num_deleted; lia).
      rewrite to_size_small by lia.
      destruct (IH (k + 1) vs'
                  (lines ++ [{| line_k := k; line_in_k_core := num_deleted vs' |}]))
        as (new & Hrun & Hks & Hall & Hsorted); [lia|lia|lia|lia|].
      exists ({| line_k := k; line_in_k_core := num_deleted vs' |} :: new).
      split; [by rewrite Hrun, <- app_assoc|].
      split.
      { rewrite (seqZ_cons k) by lia. cbn. rewrite Hks.
        f_equal. f_equal; lia. }
      split.
      { cbn. constructor; [lia|].
        eapply Forall_impl; [exact Hall|]. cbn. intros c Hc. lia. }
      cbn. constructor; [done|].
      destruct (line_in_k_core <$> new) as [|c cs]; constructor.
      apply Forall_cons_1 in Hall as [Hc _]. lia.
    + exists []. rewrite app_nil_r. cbn [kcore_loop].
      rewrite bool_decide_eq_false_2 by lia.
      split; [done|]. rewrite seqZ_nil by lia. by repeat split; constructor.
Qed.

(** X8. The [for] loop of [main], over the level loop as the
    specification describes it: for [0 <= kmin] and [kmax < 2^32 - 1] the
    loop ends and prints exactly one line for each [k] from [kmin] to [kmax]
    in ascending order (none when [kmin > kmax]); the vertex states are not
    reset between two values of [k], so the counts printed never decrease
    from one line to the next, and none exceeds the number of vertices. *)
Theorem kcore_loop_one_line_per_k iters fuel g graph kmin kmax vs :
  (0 < num_threads graph)%nat ->
  0 <= kmin ->
  kmax < vsize_max - 1 ->
  kmax - kmin < Z.of_nat iters ->
  (length vs < fuel)%nat ->
  Z.of_nat (length vs) < size_max ->
  exists lines,
    kcore_loop iters fuel g graph kmin kmax vs [] = Some lines
    /\ line_k <$> lines = seqZ kmin (kmax - kmin + 1)
    /\ Sorted Z.le (line_in_k_core <$> lines)
    /\ Forall (fun c => 0 <= c <= Z.of_nat (length vs))
         (line_in_k_core <$> lines).
Proof.
  intros Hn Hkmin Hkmax Hit Hfuel Hsz.
  destruct (kcore_loop_lines_from iters fuel g graph kmax Hn Hkmax kmin vs [])
    as (new & Hrun & Hks & Hall & Hsorted); [done..|].
  exists new. split; [done|]. split; [done|]. split; [done|].
  eapply Forall_impl; [exact Hall|]. cbn. intros c Hc.
  assert (0 <= num_deleted vs) by (unfold num_deleted; lia). lia.
Qed.

(** An instance: E1 from [k = 2] to [k = 4]. *)
Lemma kcore_loop_one_line_per_k_witness :
  exists lines,
    kcore_loop 3 7 E1 (graph_engine_create 0 2 E1) 2 4
      (create_vertex_states E1) [] = Some lines
    /\ line_k <$> lines = [2; 3; 4].
Proof.
  destruct (kcore_loop_one_line_per_k 3 7 E1 (graph_engine_create 0 2 E1) 2 4
              (create_vertex_states E1))
    as (lines & Hrun & Hks & _); [cbn; lia|lia|done|lia|cbn; lia|done|].
  exists lines. split; [exact Hrun|exact Hks].
Defined.

(** X9. [CURRENT_K] and [kmax] are [vsize_t]: with [kmax = 2^32 - 1]
    the test [CURRENT_K <= kmax] never fails, the counter wraps to 0 and the
    loop of [main] does not end, whatever bound is put on its iterations. *)
Theorem kcore_loop_endless iters fuel g graph CURRENT_K vs lines :
  0 <= CURRENT_K < vsize_max ->
  kcore_loop iters fuel g graph CURRENT_K (vsize_max - 1) vs lines = None.
Proof.
  revert CURRENT_K vs lines.
  induction iters as [|iters IH]; intros k vs lines Hk; cbn [kcore_loop];
    rewrite bool_decide_eq_true_2 by lia; [done|].
  destruct (kcore_peel fuel g k vs) as [vs'|]; [|done].
  cbn [mbind option_bind]. apply IH.
  unfold to_vsize. apply Z.mod_pos_bound. done.
Qed.

(** An instance: ten iterations from [k = 2] on E1 do not reach the end. *)
Lemma kcore_loop_endless_witness :
  kcore_loop 10 7 E1 (graph_engine_create 0 2 E1) 2 (vsize_max - 1)
    (create_vertex_states E1) [] = None.
Proof.
  apply (kcore_loop_endless 10 7 E1 (graph_engine_create 0 2 E1) 2).
  done.
Defined.

(** ** The block-row offsets a task asks for *)

Section BlockRowOffsProperties.

Variable cal_num_block_rows : block_2d_size -> nat -> nat.

Lemma block_get_block_row_offs_created header offs this lg idxs :
  sparse_matrix_index_create cal_num_block_rows true header offs = (Some this, lg) ->
  block_get_block_row_offs cal_num_block_rows this idxs
  = (Some (offset_or_minus_one offs <$> idxs),
     replicate (length (filter (fun idx => (length offs <= idx)%nat) idxs))
       "get_block_row_off: out of range."%string).
Proof.
  intros Hc.
  destruct (sparse_matrix_index_create_entries _ _ _ _ _ _ Hc)
    as (Hoffs & _ & _ & Hn).
  rewrite Hoffs in Hn.
  induction idxs as [|idx idxs IH]; [done|].
  cbn [block_get_block_row_offs]. rewrite IH. clear IH.
  rewrite filter_cons, fmap_cons.
  set (rest := offset_or_minus_one offs <$> idxs).
  unfold offset_or_minus_one.
  destruct (decide (length offs <= idx)%nat) as [Hout|Hin].
  - rewrite get_block_row_off_out_of_range by lia.
    rewrite (lookup_ge_None_2 offs idx) by lia. done.
  - rewrite get_block_row_off_in_range by lia. rewrite Hoffs.
    destruct (lookup_lt_is_Some_2 offs idx) as [o Ho]; [lia|].
    rewrite Ho. done.
Qed.

Lemma offsets_of_strip offs r nbr :
  (r + nbr < length offs)%nat ->
  offset_or_minus_one offs <$> block_row_idxs r nbr
  = take (nbr + 1) (drop r offs)
  /\ filter (fun idx => (length offs <= idx)%nat) (block_row_idxs r nbr) = [].
Proof.
  intros Hin. split.
  - apply list_eq. intros i. unfold block_row_idxs.
    rewrite <- list_fmap_compose, list_lookup_fmap.
    destruct (decide (i < nbr + 1)%nat) as [Hi|Hi].
    + rewrite lookup_seq_lt by done. cbn.
      rewrite lookup_take_lt by done. rewrite lookup_drop.
      unfold offset_or_minus_one.
      destruct (lookup_lt_is_Some_2 offs (r + i)) as [o Ho]; [lia|].
      by rewrite Ho.
    + rewrite lookup_seq_ge by lia. cbn.
      by rewrite lookup_take_ge by lia.
  - destruct (filter _ (block_row_idxs r nbr)) as [|idx l] eqn:Hf; [done|].
    assert (Hidx : idx ∈ filter (fun idx => (length offs <= idx)%nat)
                     (block_row_idxs r nbr)) by (rewrite Hf; left).
    apply list_elem_of_filter in Hidx as [Hout Hidx].
    unfold block_row_idxs in Hidx.
    apply list_elem_of_fmap in Hidx as (i & -> & Hi).
    apply elem_of_seq in Hi. lia.
Qed.

End BlockRowOffsProperties.

(** X10. On a matrix in the 2D format whose index [create] built from
    the offsets [offs], [get_block_row_offs] answers every index it is asked
    with the stored offset, or with -1 and one line in the log when the
    index is beyond the last entry, and never reads outside the array. For
    the [num_block_rows + 1] indexes the constructor of a block task asks
    for, when the strip of the task lies inside the matrix, the answer is
    the stretch of [offs] from the first block row of the strip on and
    nothing is logged. The asymmetric matrix answers from the index of [mat],
    and from the index of the transpose once it is transposed; the matrices
    in the FlashGraph format throw. *)
Theorem get_block_row_offs_of_created cal_num_block_rows header offs this lg :
  sparse_matrix_index_create cal_num_block_rows true header offs = (Some this, lg) ->
  (forall idxs,
     get_block_row_offs cal_num_block_rows (create_block this) idxs
     = block_row_offs (Some (offset_or_minus_one offs <$> idxs))
         (replicate (length (filter (fun idx => (length offs <= idx)%nat) idxs))
            "get_block_row_off: out of range."%string))
  /\ (forall r nbr,
        (r + nbr <= get_num_block_rows cal_num_block_rows this)%nat ->
        get_block_row_offs cal_num_block_rows (create_block this)
          (block_row_idxs r nbr)
        = block_row_offs (Some (take (nbr + 1) (drop r offs))) [])
  /\ (forall other idxs,
        get_block_row_offs cal_num_block_rows (create_block_asym this other) idxs
        = get_block_row_offs cal_num_block_rows (create_block this) idxs
        /\ get_block_row_offs cal_num_block_rows
             (transpose (create_block_asym other this)) idxs
           = get_block_row_offs cal_num_block_rows (create_block this) idxs)
  /\ (forall num_vertices blocks out_blocks in_blocks idxs,
        get_block_row_offs cal_num_block_rows
          (create_fg_sym num_vertices blocks) idxs
        = unsupported_exception
            "get_block_row_offs isn't supported in fg_sparse_sym_matrix"
        /\ get_block_row_offs cal_num_block_rows
             (create_fg_asym num_vertices out_blocks in_blocks) idxs
           = unsupported_exception
               "get_block_row_offs isn't supported in fg_sparse_asym_matrix").
Proof.
  intros Hc.
  destruct (sparse_matrix_index_create_entries _ _ _ _ _ _ Hc)
    as (Hoffs & _ & _ & Hn).
  rewrite Hoffs in Hn. unfold get_num_entries in Hn.
  assert (Hall : forall idxs,
     get_block_row_offs cal_num_block_rows (create_block this) idxs
     = block_row_offs (Some (offset_or_minus_one offs <$> idxs))
         (replicate (length (filter (fun idx => (length offs <= idx)%nat) idxs))
            "get_block_row_off: out of range."%string)).
  { intros idxs. cbn [get_block_row_offs create_block new_block_sparse_matrix
                      bsm_index].
    by rewrite (block_get_block_row_offs_created _ _ _ _ _ idxs Hc). }
  split; [done|]. split; [|split].
  - intros r nbr Hin. rewrite Hall.
    destruct (offsets_of_strip offs r nbr) as [-> ->]; [lia|done].
  - intros other idxs. done.
  - done.
Qed.

(** An instance: the index of a matrix of 5 rows in blocks of 2 rows, and
    the strip of the block rows 1 and 2. *)
Lemma get_block_row_offs_of_created_witness :
  let cal := fun (bs : block_2d_size) (n : nat) =>
               ((n + bs_num_rows bs - 1) / bs_num_rows bs)%nat in
  let header := {| header_num_rows := 5; header_num_cols := 5;
                   get_2d_block_size := {| bs_num_rows := 2; bs_num_cols := 2 |} |} in
  let this := {| get_header := header; offs := [0; 4096; 8192; 12288] |} in
  get_block_row_offs cal (create_block this) (block_row_idxs 1 2)
  = block_row_offs (Some [4096; 8192; 12288]) [].
Proof.
  intros cal header this.
  destruct (get_block_row_offs_of_created cal header [0; 4096; 8192; 12288]
              this [] eq_refl) as (_ & H & _).
  apply (H 1%nat 2%nat). vm_compute. lia.
Defined.

(** ** The whole constructor of a block task *)

(** A task that the constructor built has the members that its first part
    sets. *)
Lemma block_compute_task_new_members cal_num_block_rows PAGE_SIZE _io top mat
    order obj :
  block_compute_task_new cal_num_block_rows PAGE_SIZE _io top mat order
  = Some obj ->
  exists block_size,
    get_block_size mat = Some block_size
    /\ block_compute_task_init PAGE_SIZE _io block_size order
       = Some (bct_members obj).
Proof.
  unfold block_compute_task_new. intros H.
  destruct (get_block_size mat) as [bs|]; [|done].
  cbn [mbind option_bind] in H.
  destruct (block_compute_task_init PAGE_SIZE _io bs order) as [t|] eqn:Ht;
    [|done].
  cbn [mbind option_bind] in H. exists bs. split; [done|]. rewrite Ht.
  destruct (bool_decide (_ ≠ 0%nat)); [done|].
  destruct (get_block_row_offs _ _ _) as [|[l|] lg]; try done.
  destruct (l !! 0%nat); [|done].
  destruct (bool_decide (_ ≠ _)); [done|].
  injection H as <-. done.
Qed.

(** The empty pointer builds no task, and neither does a matrix in the
    FlashGraph format. *)
Lemma block_compute_task_new_no_order cal_num_block_rows PAGE_SIZE _io top mat :
  block_compute_task_new cal_num_block_rows PAGE_SIZE _io top mat None = None.
Proof.
  unfold block_compute_task_new.
  destruct (get_block_size mat) as [bs|]; [|done]. cbn [mbind option_bind].
  unfold block_compute_task_init. by destruct (ceil_div _ _).
Qed.

Lemma block_compute_task_init_Some PAGE_SIZE _io bs o nbr :
  ceil_div (io_num_rows _io) (bs_num_rows bs) = Some nbr ->
  exists t,
    block_compute_task_init PAGE_SIZE _io bs (Some o) = Some t
    /\ bct_num_block_rows t = nbr
    /\ bct_buf t = task_buf_init PAGE_SIZE _io.
Proof.
  intros Hc. unfold block_compute_task_init. rewrite Hc. cbn.
  eexists. split; [reflexivity|]. done.
Qed.

(** X25. The constructor of a block task on a [block_sparse_matrix]
    whose index [create] built from the offsets [offs], for a strip of
    [num_block_rows] block rows that starts at block row [r] inside the
    matrix, with a [matrix_io] that starts at the offset of block row [r]:
    the constructor returns a task, logs nothing, and [block_rows] holds the
    [num_block_rows + 1] offsets of the strip taken from the start of the
    page the buffer starts at, the first of them the place of the
    [matrix_io] in the buffer. The constructor returns no task when the
    order is the empty pointer, when the first row of the strip is no
    multiple of the rows of a block, when the [matrix_io] starts at another
    offset than the index gives, or when the matrix is in the FlashGraph
    format. *)
Theorem block_compute_task_new_block_rows cal_num_block_rows PAGE_SIZE header
    l this lg _io r nbr o :
  sparse_matrix_index_create cal_num_block_rows true header l = (Some this, lg) ->
  ceil_div (io_num_rows _io) (bs_num_rows (get_2d_block_size header)) = Some nbr ->
  (r + nbr <= get_num_block_rows cal_num_block_rows this)%nat ->
  let bs := get_2d_block_size header in
  let new := block_compute_task_new cal_num_block_rows PAGE_SIZE in
  let local_off x := x - ROUND_PAGE PAGE_SIZE (get_offset (get_loc _io)) in
  (l !! r = Some (get_offset (get_loc _io)) ->
   exists obj,
     new _io (r * bs_num_rows bs)%nat (create_block this) (Some o) = Some obj
     /\ block_compute_task_init PAGE_SIZE _io bs (Some o)
        = Some (bct_members obj)
     /\ block_rows obj = local_off <$> take (nbr + 1) (drop r l)
     /\ length (block_rows obj) = (nbr + 1)%nat
     /\ block_rows obj !! 0%nat = Some (local_off (get_offset (get_loc _io)))
     /\ bct_log obj = [])
  /\ (l !! r ≠ Some (get_offset (get_loc _io)) ->
      new _io (r * bs_num_rows bs)%nat (create_block this) (Some o) = None)
  /\ (forall top,
        (top mod bs_num_rows bs)%nat ≠ 0%nat ->
        new _io top (create_block this) (Some o) = None)
  /\ (forall top mat, new _io top mat None = None)
  /\ (forall top num_vertices blocks out_blocks in_blocks order,
        new _io top (create_fg_sym num_vertices blocks) order = None
        /\ new _io top (create_fg_asym num_vertices out_blocks in_blocks) order
           = None).
Proof.
  intros Hc Hnbr Hin bs new local_off.
  destruct (sparse_matrix_index_create_entries _ _ _ _ _ _ Hc)
    as (Hoffs & Hhdr & _ & Hn).
  rewrite Hoffs in Hn. unfold get_num_entries in Hn.
  assert (Hbs : get_block_size (create_block this) = Some bs)
    by (cbn; by rewrite Hhdr).
  assert (Hrows : bs_num_rows bs ≠ 0%nat).
  { intros H0. unfold ceil_div in Hnbr. fold bs in Hnbr.
    by rewrite bool_decide_eq_true_2 in Hnbr. }
  destruct (block_compute_task_init_Some PAGE_SIZE _io bs o nbr Hnbr)
    as (t & Ht & Htn & Htb).
  assert (Hget : get_block_row_offs cal_num_block_rows (create_block this)
                   (block_row_idxs r nbr)
                 = block_row_offs (Some (take (nbr + 1) (drop r l))) []).
  { cbn [get_block_row_offs create_block new_block_sparse_matrix bsm_index].
    rewrite (block_get_block_row_offs_created _ _ _ _ _ _ Hc).
    destruct (offsets_of_strip l r nbr) as [-> ->]; [lia|done]. }
  assert (Hfirst : take (nbr + 1) (drop r l) !! 0%nat = l !! r).
  { rewrite lookup_take_lt by lia. rewrite lookup_drop. f_equal. lia. }
  assert (Hstrip :
    new _io (r * bs_num_rows bs)%nat (create_block this) (Some o)
    = match l !! r with
      | None => None
      | Some first =>
          if bool_decide (get_offset (get_loc _io) ≠ first) then None
          else Some {| bct_members := t;
                       block_rows := (fun o => o - off (bct_buf t))
                                     <$> take (nbr + 1) (drop r l);
                       bct_log := [] |}
      end).
  { subst new. unfold block_compute_task_new.
    rewrite Hbs. cbn [mbind option_bind]. rewrite Ht. cbn [mbind option_bind].
    rewrite Nat.Div0.mod_mul. rewrite bool_decide_eq_false_2 by (intros H; by apply H).
    rewrite Nat.div_mul by done. rewrite Htn, Hget, Hfirst. done. }
  split; [|split; [|split; [|split]]].
  - intros Hr. rewrite Hstrip, Hr.
    rewrite bool_decide_eq_false_2 by (intros H; by apply H).
    eexists. split; [reflexivity|]. cbn [bct_members block_rows bct_log].
    assert (Hoff : off (bct_buf t)
                   = ROUND_PAGE PAGE_SIZE (get_offset (get_loc _io)))
      by (by rewrite Htb).
    rewrite Hoff. split; [done|]. split; [done|]. split; [|split; [|done]].
    + rewrite length_fmap, length_take, length_drop. lia.
    + by rewrite list_lookup_fmap, Hfirst, Hr.
  - intros Hr. rewrite Hstrip.
    destruct (l !! r) as [first|]; [|done].
    rewrite bool_decide_eq_true_2; [done|]. intros Heq. apply Hr. by rewrite Heq.
  - intros top Htop. subst new. unfold block_compute_task_new.
    rewrite Hbs. cbn [mbind option_bind]. rewrite Ht. cbn [mbind option_bind].
    by rewrite bool_decide_eq_true_2.
  - intros top mat. apply block_compute_task_new_no_order.
  - done.
Qed.

(** An instance: the strip of the block rows 1 and 2 of a matrix of 5 rows
    in blocks of 2 rows, read from offset 4096 with pages of 4096 bytes. *)
Lemma block_compute_task_new_block_rows_witness :
  let cal := fun (bs : block_2d_size) (n : nat) =>
               ((n + bs_num_rows bs - 1) / bs_num_rows bs)%nat in
  let bs := {| bs_num_rows := 2; bs_num_cols := 2 |} in
  let header := {| header_num_rows := 5; header_num_cols := 5;
                   get_2d_block_size := bs |} in
  let this := {| get_header := header; offs := [0; 5000; 8192; 12288] |} in
  let _io := {| get_loc := {| get_file_id := 7; get_offset := 5000 |};
                get_size := 7288; io_num_rows := 3; io_num_cols := 5 |} in
  exists obj,
    block_compute_task_new cal 4096 _io 2 (create_block this)
      (Some seq_exec_order) = Some obj
    /\ block_rows obj = [904; 4096; 8192].
Proof.
  intros cal bs header this _io.
  destruct (block_compute_task_new_block_rows cal 4096 header
              [0; 5000; 8192; 12288] this [] _io 1 2 seq_exec_order)
    as [H _]; [reflexivity|reflexivity|vm_compute; lia|].
  destruct (H eq_refl) as (obj & Hobj & _ & Hrows & _).
  exists obj. split; [exact Hobj|]. rewrite Hrows. reflexivity.
Defined.

(** ** The order a task holds and the super blocks it runs on *)

Lemma hilbert_exec_calls hilbert_xy2d n blocks :
  length blocks = (n * n)%nat ->
  exec_ok (exec (hilbert_exec_order hilbert_xy2d n) blocks) = true
  /\ exec_log (exec (hilbert_exec_order hilbert_xy2d n) blocks) = []
  /\ run_on_block_calls (exec (hilbert_exec_order hilbert_xy2d n) blocks)
     ≡ₚ omap id blocks.
Proof.
  intros Hlen. cbn [exec hilbert_exec_order].
  rewrite bool_decide_eq_false_2; cycle 1.
  { rewrite (Permutation_length (std_sort_Permutation _)), length_grid_orders.
    intros H. by apply H. }
  split; [done|]. split; [done|]. cbn [run_on_block_calls].
  rewrite (std_sort_Permutation (grid_orders hilbert_xy2d n)).
  change (fun o => mjoin (blocks !! block_idx n o))
    with ((fun k => mjoin (blocks !! k)) ∘ block_idx n).
  rewrite <- omap_fmap_compose, block_idx_grid_orders, <- Hlen.
  by rewrite <- (omap_lookup_seq [] blocks).
Qed.

Lemma get_multiply_order_cases log2_is_whole hilbert_xy2d use_hilbert_order
    m a b o lg :
  get_multiply_order log2_is_whole hilbert_xy2d use_hilbert_order m a b
  = (Some o, lg) ->
  o = seq_exec_order \/ o = hilbert_exec_order hilbert_xy2d a.
Proof.
  unfold get_multiply_order, block_get_multiply_order. intros H.
  destruct m; simplify_eq; auto;
    repeat (case_bool_decide || case_match); simplify_eq; auto.
Qed.

Lemma block_compute_task_init_num_block_rows PAGE_SIZE _io bs order t :
  block_compute_task_init PAGE_SIZE _io bs order = Some t ->
  ceil_div (io_num_rows _io) (bs_num_rows bs) = Some (bct_num_block_rows t).
Proof.
  unfold block_compute_task_init. intros H.
  destruct (ceil_div _ _); simplify_eq/=.
  destruct order; by simplify_eq/=.
Qed.

(** X11. [block_compute_task::run] hands [exec] vectors of
    [num_block_rows * num_block_rows] pointers and does not look at what
    [exec] returns. Whatever order [get_multiply_order] gave and whatever
    the strip of the task, the order the constructor kept does not refuse
    such a vector: [exec] returns true, logs nothing and runs on every
    non-null block of the vector exactly once. *)
Theorem task_order_accepts_super_blocks log2_is_whole hilbert_xy2d
    use_hilbert_order m a b o lg PAGE_SIZE _io bs t blocks :
  get_multiply_order log2_is_whole hilbert_xy2d use_hilbert_order m a b
  = (Some o, lg) ->
  block_compute_task_init PAGE_SIZE _io bs (Some o) = Some t ->
  length blocks = (bct_num_block_rows t * bct_num_block_rows t)%nat ->
  exec_ok (exec (exec_order t) blocks) = true
  /\ exec_log (exec (exec_order t) blocks) = []
  /\ run_on_block_calls (exec (exec_order t) blocks) ≡ₚ omap id blocks.
Proof.
  intros Ho Ht Hlen.
  unfold block_compute_task_init in Ht.
  destruct (ceil_div _ _) as [nbr|]; simplify_eq/=.
  destruct (get_multiply_order_cases _ _ _ _ _ _ _ _ Ho) as [->| ->].
  - done.
  - rewrite is_valid_size_hilbert.
    destruct (decide (a = nbr)) as [->|Hne].
    + rewrite !bool_decide_eq_true_2 by done. cbn [andb].
      by apply hilbert_exec_calls.
    + rewrite bool_decide_eq_false_2 by done. done.
Qed.

(** An instance: the Hilbert order of a 4 × 4 grid in a task over a strip
    of 3 block rows. *)
Lemma task_order_accepts_super_blocks_witness :
  let _io := {| get_loc := {| get_file_id := 7; get_offset := 0 |};
                get_size := 100; io_num_rows := 6; io_num_cols := 8 |} in
  let bs := {| bs_num_rows := 2; bs_num_cols := 2 |} in
  let index := {| get_header := {| header_num_rows := 8; header_num_cols := 8;
                                   get_2d_block_size := bs |};
                  offs := [0; 10; 20; 30; 40] |} in
  exists t,
    block_compute_task_init 4096 _io bs
      (Some (hilbert_exec_order hilbert_xy2d_known 4)) = Some t
    /\ forall blocks, length blocks = 9%nat ->
         exec_ok (exec (exec_order t) blocks) = true.
Proof.
  intros _io bs index.
  destruct (block_compute_task_init 4096 _io bs
              (Some (hilbert_exec_order hilbert_xy2d_known 4))) as [t|] eqn:Ht;
    [|vm_compute in Ht; discriminate Ht].
  exists t. split; [reflexivity|]. intros blocks Hlen.
  assert (Hn : bct_num_block_rows t = 3%nat).
  { pose proof (block_compute_task_init_num_block_rows _ _ _ _ _ Ht) as H.
    vm_compute in H. by injection H. }
  apply (task_order_accepts_super_blocks is_power_of_two hilbert_xy2d_known true
           (create_block index) 4 4 (hilbert_exec_order hilbert_xy2d_known 4) []
           4096 _io bs t blocks).
  - reflexivity.
  - exact Ht.
  - rewrite Hn. exact Hlen.
Defined.

(** ** Matrix-vector multiplication on blocks *)

Section SpmvProperties.

Context {T : Type}.
Variable zero : T.
Variable add : T -> T -> T.
Variable row_parts : sparse_block_2d -> list sparse_row_part.
Variable block_size : block_2d_size.
Variable input : nat -> T.

Hypothesis add_assoc : forall x y z, add (add x y) z = add x (add y z).
Hypothesis add_comm : forall x y, add x y = add y x.

Local Abbreviation updates :=
  (block_updates zero add row_parts block_size input).

Lemma run_on_block_updates output block :
  run_on_block zero add row_parts block_size input output block
  = foldl (apply_update add) output (updates block).
Proof.
  unfold run_on_block, block_updates.
  generalize (row_parts block). intros l. revert output.
  induction l as [|rp l IH]; intros output; [done|].
  cbn [foldl fmap list_fmap]. by rewrite IH.
Qed.

Lemma foldl_run_on_block_updates output (calls : list sparse_block_2d) :
  foldl (run_on_block zero add row_parts block_size input) output calls
  = foldl (apply_update add) output (calls ≫= updates).
Proof.
  revert output. induction calls as [|b calls IH]; intros output; [done|].
  cbn [foldl]. rewrite bind_cons, foldl_app, IH.
  by rewrite run_on_block_updates.
Qed.

Lemma apply_update_ext (o1 o2 : nat -> T) u :
  (forall k, o1 k = o2 k) ->
  forall k, apply_update add o1 u k = apply_update add o2 u k.
Proof.
  intros H k. unfold apply_update, vector_set.
  case_decide; [by rewrite H|done].
Qed.

Lemma apply_updates_ext (o1 o2 : nat -> T) us :
  (forall k, o1 k = o2 k) ->
  forall k, foldl (apply_update add) o1 us k = foldl (apply_update add) o2 us k.
Proof.
  revert o1 o2. induction us as [|u us IH]; intros o1 o2 H; [done|].
  cbn [foldl]. apply IH. by apply apply_update_ext.
Qed.

Lemma apply_update_swap (o : nat -> T) u1 u2 k :
  apply_update add (apply_update add o u1) u2 k
  = apply_update add (apply_update add o u2) u1 k.
Proof.
  unfold apply_update, vector_set.
  destruct (decide (u1.1 = u2.1)) as [He|Hne].
  - rewrite He. repeat case_decide; try done.
    rewrite !add_assoc. f_equal. apply add_comm.
  - repeat case_decide; subst; try done; congruence.
Qed.

Lemma apply_updates_Permutation us1 us2 :
  us1 ≡ₚ us2 ->
  forall (o : nat -> T) k,
    foldl (apply_update add) o us1 k = foldl (apply_update add) o us2 k.
Proof.
  induction 1 as [|u us1 us2 _ IH|u1 u2 us|us1 us2 us3 _ IH1 _ IH2];
    intros o k.
  - done.
  - cbn [foldl]. apply IH.
  - cbn [foldl]. apply apply_updates_ext. intros k'. apply apply_update_swap.
  - by rewrite IH1.
Qed.

(** The rows a list of updates does not name keep their value. *)
Lemma apply_updates_other_rows us (o : nat -> T) k :
  k ∉ us.*1 -> foldl (apply_update add) o us k = o k.
Proof.
  revert o. induction us as [|u us IH]; intros o Hk; [done|].
  cbn [foldl]. rewrite fmap_cons in Hk.
  apply not_elem_of_cons in Hk as [Hne Hk].
  rewrite IH by done. unfold apply_update, vector_set.
  by rewrite decide_False.
Qed.

Lemma spmv_exec_Permutation o1 o2 blocks output :
  run_on_block_calls (exec o1 blocks) ≡ₚ run_on_block_calls (exec o2 blocks) ->
  forall k,
    spmv_exec zero add row_parts block_size o1 blocks input output k
    = spmv_exec zero add row_parts block_size o2 blocks input output k.
Proof.
  intros Hperm k. unfold spmv_exec.
  rewrite !foldl_run_on_block_updates.
  apply apply_updates_Permutation. by rewrite Hperm.
Qed.

End SpmvProperties.

(** X12. The product of a [block_spmv_task] does not depend on the
    order of the blocks, for an element type whose [+] is associative and
    commutative: on a vector of [n * n] blocks the Hilbert order leaves in
    every entry of the output what the sequential order leaves. A row that
    no row part of a block that is run names keeps the value it had: the
    task adds to the output and does not clear it. *)
Theorem block_spmv_order_independent {T} (zero : T) (add : T -> T -> T)
    row_parts block_size hilbert_xy2d n blocks input output :
  (forall x y z, add (add x y) z = add x (add y z)) ->
  (forall x y, add x y = add y x) ->
  length blocks = (n * n)%nat ->
  (forall k,
     spmv_exec zero add row_parts block_size
       (hilbert_exec_order hilbert_xy2d n) blocks input output k
     = spmv_exec zero add row_parts block_size
         seq_exec_order blocks input output k)
  /\ (forall o k,
        k ∉ (run_on_block_calls (exec o blocks)
             ≫= block_updates zero add row_parts block_size input).*1 ->
        spmv_exec zero add row_parts block_size o blocks input output k
        = output k).
Proof.
  intros Hassoc Hcomm Hlen. split.
  - apply spmv_exec_Permutation; [done..|].
    destruct (hilbert_exec_calls hilbert_xy2d n blocks Hlen) as (_ & _ & ->).
    by rewrite exec_seq.
  - intros o k Hk. unfold spmv_exec.
    rewrite foldl_run_on_block_updates.
    by apply apply_updates_other_rows.
Qed.

(** An instance: integers, a 2 × 2 grid of blocks of 2 × 2 entries, with
    one row part in every block. *)
Lemma block_spmv_order_independent_witness :
  let b r c := {| get_block_row_idx := r; get_block_col_idx := c |} in
  let blocks := [Some (b 0 0); Some (b 0 1); None; Some (b 1 1)]%nat in
  let row_parts := fun _ : sparse_block_2d =>
    [{| get_rel_row_idx := 1; rel_col_idxs := [0; 1]%nat |}] in
  let bs := {| bs_num_rows := 2; bs_num_cols := 2 |} in
  spmv_exec 0 Z.add row_parts bs (hilbert_exec_order hilbert_xy2d_known 2)
    blocks (fun i => Z.of_nat i + 1) (fun _ => 0) 1%nat
  = spmv_exec 0 Z.add row_parts bs seq_exec_order
      blocks (fun i => Z.of_nat i + 1) (fun _ => 0) 1%nat.
Proof.
  intros b blocks row_parts bs.
  apply (block_spmv_order_independent 0 Z.add row_parts bs hilbert_xy2d_known 2
           blocks (fun i => Z.of_nat i + 1) (fun _ => 0)).
  - intros x y z. lia.
  - intros x y. lia.
  - reflexivity.
Defined.

(** ** Running a row task *)

Lemma total_size_cons x l : total_size (x :: l) = x + total_size l.
Proof. done. Qed.

Lemma total_size_nonneg l : Forall (fun s => 0 <= s) l -> 0 <= total_size l.
Proof.
  induction 1 as [|x l Hx _ IH]; [done|]. rewrite total_size_cons. lia.
Qed.

Lemma fg_row_run_loop_total vsizes buf_size :
  Forall (fun s => 0 <= s) vsizes ->
  0 <= buf_size ->
  fg_row_run_loop (length vsizes) vsizes buf_size
  = if bool_decide (total_size vsizes <= buf_size)
    then Some (buf_size - total_size vsizes) else None.
Proof.
  intros Hpos. revert buf_size.
  induction Hpos as [|vsize vsizes Hx Hpos IH]; intros buf_size Hb.
  - cbn. rewrite bool_decide_eq_true_2 by (cbn; lia). f_equal. cbn. lia.
  - cbn [length fg_row_run_loop]. rewrite total_size_cons.
    pose proof (total_size_nonneg vsizes Hpos).
    case_bool_decide as H1.
    + rewrite IH by lia. case_bool_decide; case_bool_decide; try lia; [|done].
      f_equal. lia.
    + rewrite bool_decide_eq_false_2 by lia. done.
Qed.

(** X13. [fg_row_compute_task::run] on the buffer of the task, with
    the size the task asked for and one vertex for each row: the assertions
    hold exactly when the sizes of the vertices add up to no more than
    [buf_size]; the call takes these sizes off the member [buf_size], so
    that a task that has run on vertices of a non-zero size fails the
    assertion on the size when it is run on the same request again. On a
    task as the constructor built it, vertices that fill no more than the
    bytes of its [matrix_io] always pass. *)
Theorem fg_row_task_runs_once PAGE_SIZE _io vsizes :
  0 < PAGE_SIZE ->
  0 <= get_offset (get_loc _io) -> 0 <= get_size _io ->
  get_offset (get_loc _io) mod PAGE_SIZE + get_size _io + PAGE_SIZE <= size_max ->
  length vsizes = io_num_rows _io ->
  Forall (fun s => 0 <= s) vsizes ->
  let t := fg_row_compute_task PAGE_SIZE _io in
  let size := req_size (get_request t) in
  (fg_row_compute_task_run t true size vsizes
   = if bool_decide (total_size vsizes <= size)
     then Some {| io := _io; off := off t;
                  buf_size := size - total_size vsizes |}
     else None)
  /\ (total_size vsizes <= get_size _io ->
      is_Some (fg_row_compute_task_run t true size vsizes))
  /\ (forall t' same_buf vsizes',
        fg_row_compute_task_run t true size vsizes = Some t' ->
        0 < total_size vsizes ->
        fg_row_compute_task_run t' same_buf size vsizes' = None).
Proof.
  intros HP Ho Hs Hfit Hlen Hpos t size.
  destruct (task_buf_init_no_wrap PAGE_SIZE HP _io Ho Hs Hfit) as [Hoff Hsz].
  pose proof (ROUNDUP_PAGE_bounds PAGE_SIZE HP
                (get_offset (get_loc _io) mod PAGE_SIZE + get_size _io)) as Hub.
  pose proof (Z.mod_pos_bound (get_offset (get_loc _io)) PAGE_SIZE HP) as Hmod.
  assert (Hsize : size = buf_size t) by done.
  assert (Hrun : fg_row_compute_task_run t true size vsizes
            = if bool_decide (total_size vsizes <= size)
              then Some {| io := _io; off := off t;
                           buf_size := size - total_size vsizes |}
              else None).
  { unfold fg_row_compute_task_run. cbn [negb].
    rewrite bool_decide_eq_false_2 by (rewrite Hsize; auto).
    change (io t) with _io. rewrite <- Hlen.
    rewrite fg_row_run_loop_total; [|done|].
    - rewrite <- Hsize. by case_bool_decide.
    - unfold t, fg_row_compute_task. rewrite Hsz. lia. }
  split; [done|]. split.
  - intros Hfill. rewrite Hrun, bool_decide_eq_true_2; [done|].
    rewrite Hsize. unfold t, fg_row_compute_task. rewrite Hsz. lia.
  - intros t' same_buf vsizes' Ht' Htot. rewrite Hrun in Ht'.
    case_bool_decide; simplify_eq.
    unfold fg_row_compute_task_run. destruct same_buf; [|done]. cbn [negb].
    rewrite bool_decide_eq_true_2; [done|]. cbn [buf_size]. lia.
Qed.

(** An instance: four rows of 25 bytes at offset 5000, pages of 4096
    bytes. *)
Lemma fg_row_task_runs_once_witness :
  let _io := {| get_loc := {| get_file_id := 7; get_offset := 5000 |};
                get_size := 100; io_num_rows := 4; io_num_cols := 4 |} in
  let t := fg_row_compute_task 4096 _io in
  fg_row_compute_task_run t true 4096 [25; 25; 25; 25]
  = Some {| io := _io; off := 4096; buf_size := 3996 |}.
Proof.
  intros _io t.
  destruct (fg_row_task_runs_once 4096 _io [25; 25; 25; 25]) as (H & _);
    [lia|cbn; lia|cbn; lia|vm_compute; congruence|reflexivity
    |repeat constructor; lia|].
  exact H.
Defined.

(** ** Initialising and destroying the matrix layer *)

Lemma flash_matrix_calls_counted calls :
  forall n m s,
    init_count s = Z.of_nat n ->
    io_system_up s = bool_decide (0 < n)%nat ->
    Z.of_nat (n + length calls) < size_max ->
    open_uses n calls = Some m ->
    init_count (foldl flash_matrix_step s calls) = Z.of_nat m
    /\ io_system_up (foldl flash_matrix_step s calls) = bool_decide (0 < m)%nat.
Proof.
  induction calls as [|c calls IH]; intros n m s Hc Hup Hfit Hopen.
  - cbn in *. by simplify_eq.
  - cbn [foldl]. rewrite length_cons in Hfit.
    assert (Hinit : forall safs_ok,
              (safs_ok = true \/ 0 < n)%nat ->
              init_count (init_flash_matrix safs_ok s).1 = Z.of_nat (S n)
              /\ io_system_up (init_flash_matrix safs_ok s).1 = true).
    { intros safs_ok Hok. unfold init_flash_matrix. cbn zeta. rewrite Hc.
      rewrite to_size_small by lia.
      destruct n as [|n'].
      - destruct Hok as [->|]; [|lia].
        rewrite bool_decide_eq_true_2 by done. cbn. split; [lia|done].
      - rewrite bool_decide_eq_false_2 by lia. cbn [fst init_count io_system_up].
        split; [lia|]. rewrite Hup. apply bool_decide_eq_true_2. lia. }
    destruct c as [[|]|]; cbn [open_uses] in Hopen.
    + destruct (Hinit true) as [H1 H2]; [by left|].
      apply (IH (S n)); [done| |lia|done].
      cbn [flash_matrix_step]. rewrite H2. symmetry.
      apply bool_decide_eq_true_2. lia.
    + destruct n as [|n].
      * apply (IH 0%nat); [| |lia|done];
          unfold flash_matrix_step, init_flash_matrix; cbn zeta; rewrite Hc;
          cbn; done.
      * destruct (Hinit false) as [H1 H2]; [right; lia|].
        apply (IH (S (S n))); [done| |lia|done].
        cbn [flash_matrix_step]. rewrite H2. symmetry.
        apply bool_decide_eq_true_2. lia.
    + destruct n as [|n]; [done|].
      apply (IH n); [| |lia|done];
        unfold flash_matrix_step, destroy_flash_matrix; cbn zeta; rewrite Hc;
        rewrite to_size_small by lia.
      * destruct (bool_decide (Z.of_nat (S n) = 1)); cbn; lia.
      * destruct n as [|n].
        -- rewrite bool_decide_eq_true_2 by done. cbn. done.
        -- rewrite bool_decide_eq_false_2 by lia. cbn [io_system_up].
           rewrite Hup. by rewrite !bool_decide_eq_true_2 by lia.
Qed.

(** X14. [init_flash_matrix] and [destroy_flash_matrix] count the uses
    of the matrix layer, one call after the other: as long as no
    [destroy] comes without a use open, [init_count] is the number of uses
    that are open and the I/O system is initialised exactly when that number
    is not zero; an [init] whose [safs::init_io_system] throws opens no use.
    A [destroy] with no use open wraps the counter to [2^64 - 1]; the [init]
    that follows returns without initialising the I/O system. *)
Theorem flash_matrix_uses_counted calls m :
  Z.of_nat (length calls) < size_max ->
  open_uses 0 calls = Some m ->
  let s := foldl flash_matrix_step flash_matrix_start calls in
  init_count s = Z.of_nat m
  /\ io_system_up s = bool_decide (0 < m)%nat
  /\ (m = 0%nat ->
      init_count (destroy_flash_matrix s) = size_max - 1
      /\ forall safs_ok,
           init_flash_matrix safs_ok (destroy_flash_matrix s)
           = ({| init_count := 0; io_system_up := false |}, true)).
Proof.
  intros Hfit Hopen s.
  destruct (flash_matrix_calls_counted calls 0 m flash_matrix_start)
    as [Hc Hup]; [done|done|done|done|].
  fold s in Hc, Hup. split; [done|]. split; [done|].
  intros ->. destruct s as [c up]. cbn in Hc, Hup. subst c up.
  split; [done|]. intros safs_ok. by destruct safs_ok.
Qed.

(** An instance: two nested uses, the inner one closed. *)
Lemma flash_matrix_uses_counted_witness :
  let s := foldl flash_matrix_step flash_matrix_start
             [call_init true; call_init true; call_destroy] in
  init_count s = 1 /\ io_system_up s = true.
Proof.
  intros s.
  destruct (flash_matrix_uses_counted
              [call_init true; call_init true; call_destroy] 1)
    as (Hc & Hup & _); [done|reflexivity|].
  split; [exact Hc|exact Hup].
Defined.

(** ** The options of the test driver *)

Lemma edge_str2edge_cases s :
  (s = "IN"%string /\ edge_str2edge s = cli_run IN_EDGE)
  \/ (s = "OUT"%string /\ edge_str2edge s = cli_run OUT_EDGE)
  \/ (s = "BOTH"%string /\ edge_str2edge s = cli_run BOTH_EDGES)
  \/ (s ≠ "IN"%string /\ s ≠ "OUT"%string /\ s ≠ "BOTH"%string
      /\ edge_str2edge s = cli_exit 1 ["wrong edge type"%string]).
Proof.
  unfold edge_str2edge.
  destruct (decide (s = ""%string)) as [->|Hne].
  - right. right. right. done.
  - rewrite (bool_decide_eq_false_2 (s = ""%string)) by done. cbn [negb].
    repeat case_bool_decide; subst; auto 10.
Qed.

Lemma run_diversity_getopt_spec opts o o' :
  run_diversity_getopt opts o = Some o' ->
  dv_memopt o = false -> dv_memopt o' = false.
Proof.
  revert o. induction opts as [|r opts IH]; intros o H Hm.
  - cbn in H. by simplify_eq.
  - cbn [run_diversity_getopt] in H.
    repeat case_bool_decide; [eapply IH; [exact H|done]..|done].
Qed.

Lemma filter_e_cons r opts :
  filter (fun r => opt r = "e"%char) (r :: opts)
  = if bool_decide (opt r = "e"%char)
    then r :: filter (fun r => opt r = "e"%char) opts
    else filter (fun r => opt r = "e"%char) opts.
Proof. rewrite filter_cons. by case_bool_decide; [rewrite decide_True|rewrite decide_False]. Qed.

Lemma last_edge_type_str_cons r opts s :
  default s (last (optarg <$> filter (fun r => opt r = "e"%char) (r :: opts)))
  = default (if bool_decide (opt r = "e"%char) then optarg r else s)
      (last (optarg <$> filter (fun r => opt r = "e"%char) opts)).
Proof.
  rewrite filter_e_cons. case_bool_decide; [|done].
  rewrite fmap_cons.
  destruct (optarg <$> filter _ opts) as [|x l] eqn:E; [done|].
  rewrite last_cons_cons.
  destruct (last (x :: l)) eqn:El; [done|]. by apply last_None in El.
Qed.

Lemma run_diversity_getopt_edge opts o o' :
  run_diversity_getopt opts o = Some o' ->
  dv_edge_type_str o'
  = default (dv_edge_type_str o)
      (last (optarg <$> filter (fun r => opt r = "e"%char) opts)).
Proof.
  revert o. induction opts as [|r opts IH]; intros o H.
  - cbn in H. by simplify_eq.
  - rewrite last_edge_type_str_cons. cbn [run_diversity_getopt] in H.
    case_bool_decide as He.
    + by rewrite (IH _ H).
    + case_bool_decide; [|done]. by rewrite (IH _ H).
Qed.

Lemma run_closeness_getopt_edge opts o o' :
  run_closeness_getopt opts o = Some o' ->
  cl_edge_type_str o'
  = default (cl_edge_type_str o)
      (last (optarg <$> filter (fun r => opt r = "e"%char) opts)).
Proof.
  revert o. induction opts as [|r opts IH]; intros o H.
  - cbn in H. by simplify_eq.
  - rewrite last_edge_type_str_cons. cbn [run_closeness_getopt] in H.
    case_bool_decide as Hs.
    + rewrite bool_decide_eq_false_2 by (rewrite Hs; done).
      by rewrite (IH _ H).
    + case_bool_decide; [|done]. by rewrite (IH _ H).
Qed.

Lemma run_bfs_getopt_edge opts o o' :
  run_bfs_getopt opts o = Some o' ->
  bfs_edge_type_str o'
  = default (bfs_edge_type_str o)
      (last (optarg <$> filter (fun r => opt r = "e"%char) opts)).
Proof.
  revert o. induction opts as [|r opts IH]; intros o H.
  - cbn in H. by simplify_eq.
  - rewrite last_edge_type_str_cons. cbn [run_bfs_getopt] in H.
    case_bool_decide as He.
    + by rewrite (IH _ H).
    + case_bool_decide; [|done]. by rewrite (IH _ H).
Qed.

(** X15. [run_diversity] calls [compute_diversity] only with
    [IN_EDGE] or [OUT_EDGE], the one the last [-e] names, and always with
    [memopt = false]: [-m] sets the flag to the value it already has. With
    [-e BOTH] it leaves with [exit(-1)]. *)
Theorem run_diversity_calls opts edge memopt :
  run_diversity opts = cli_run (edge, memopt) ->
  memopt = false
  /\ edge ≠ BOTH_EDGES
  /\ edge_str2edge (last_edge_type_str opts) = cli_run edge
  /\ (last_edge_type_str opts = "IN"%string
      \/ last_edge_type_str opts = "OUT"%string).
Proof.
  unfold run_diversity. intros H.
  destruct (run_diversity_getopt opts _) as [o|] eqn:Ho; [|done].
  pose proof (run_diversity_getopt_spec _ _ _ Ho eq_refl) as Hm.
  pose proof (run_diversity_getopt_edge _ _ _ Ho) as He. cbn in He.
  fold (last_edge_type_str opts) in He. rewrite He in H.
  destruct (edge_str2edge_cases (last_edge_type_str opts))
    as [[Hs E]|[[Hs E]|[[Hs E]|(_ & _ & _ & E)]]]; rewrite E in H |- *.
  - rewrite bool_decide_eq_false_2 in H by done. simplify_eq. auto.
  - rewrite bool_decide_eq_false_2 in H by done. simplify_eq. auto.
  - rewrite bool_decide_eq_true_2 in H by done. discriminate H.
  - discriminate H.
Qed.

(** An instance: [-m -e IN]. *)
Lemma run_diversity_calls_witness :
  edge_str2edge
    (last_edge_type_str [{| opt := "m"; optarg := "" |};
                         {| opt := "e"; optarg := "IN" |}])
  = cli_run IN_EDGE.
Proof.
  apply (run_diversity_calls [{| opt := "m"; optarg := "" |};
                              {| opt := "e"; optarg := "IN" |}]
           IN_EDGE false).
  reflexivity.
Defined.

(** X16. [edge_str2edge] takes ["IN"], ["OUT"] and ["BOTH"] and
    nothing else: on every other string, the empty one among them, it
    prints "wrong edge type" and leaves with [exit(1)]. The three functions
    that call it start from the empty string, so without an [-e] option
    [run_bfs], [run_closeness_centrality] and [run_diversity] never reach
    their algorithm, and the edge types they initialise [edge] with are
    never used. *)
Theorem edge_option_is_required INVALID_VERTEX_ID opts :
  (forall s,
     edge_str2edge s
     = if bool_decide (s = "IN"%string) then cli_run IN_EDGE
       else if bool_decide (s = "OUT"%string) then cli_run OUT_EDGE
       else if bool_decide (s = "BOTH"%string) then cli_run BOTH_EDGES
       else cli_exit 1 ["wrong edge type"%string])
  /\ (Forall (fun r => opt r ≠ "e"%char) opts ->
      (forall a, run_bfs opts ≠ cli_run a)
      /\ (forall a, run_closeness_centrality INVALID_VERTEX_ID opts ≠ cli_run a)
      /\ (forall a, run_diversity opts ≠ cli_run a)
      /\ (Forall (fun r => opt r = "s"%char) opts ->
          run_bfs opts = cli_exit 1 ["wrong edge type"%string]
          /\ run_closeness_centrality INVALID_VERTEX_ID opts
             = cli_exit 1 ["wrong edge type"%string])).
Proof.
  split.
  - intros s.
    destruct (edge_str2edge_cases s)
      as [[-> E]|[[-> E]|[[-> E]|(H1 & H2 & H3 & E)]]]; rewrite E; [done..|].
    by rewrite !bool_decide_eq_false_2 by done.
  - intros Hno.
    assert (Hnil : filter (fun r => opt r = "e"%char) opts = []).
    { induction Hno as [|r opts Hr _ IH]; [done|].
      by rewrite filter_cons_False. }
    assert (Hbfs : forall o, run_bfs_getopt opts
                     {| bfs_edge_type_str := ""; bfs_start_vertex := 0 |} = Some o ->
              run_bfs opts = cli_exit 1 ["wrong edge type"%string]).
    { intros o Ho. unfold run_bfs. rewrite Ho.
      rewrite (run_bfs_getopt_edge _ _ _ Ho), Hnil. done. }
    assert (Hcl : forall o, run_closeness_getopt opts
                    {| cl_id := INVALID_VERTEX_ID; cl_edge_type_str := "" |} = Some o ->
              run_closeness_centrality INVALID_VERTEX_ID opts
              = cli_exit 1 ["wrong edge type"%string]).
    { intros o Ho. unfold run_closeness_centrality. rewrite Ho.
      rewrite (run_closeness_getopt_edge _ _ _ Ho), Hnil. done. }
    split; [|split; [|split]].
    + intros a.
      destruct (run_bfs_getopt opts
                  {| bfs_edge_type_str := ""; bfs_start_vertex := 0 |})
        as [o|] eqn:Ho.
      * by rewrite (Hbfs o).
      * unfold run_bfs. by rewrite Ho.
    + intros a.
      destruct (run_closeness_getopt opts
                  {| cl_id := INVALID_VERTEX_ID; cl_edge_type_str := "" |})
        as [o|] eqn:Ho.
      * by rewrite (Hcl o).
      * unfold run_closeness_centrality. by rewrite Ho.
    + intros a. unfold run_diversity.
      destruct (run_diversity_getopt opts _) as [o|] eqn:Ho; [|done].
      rewrite (run_diversity_getopt_edge _ _ _ Ho), Hnil. done.
    + intros Hs. split.
      * assert (Hsome : forall o, is_Some (run_bfs_getopt opts o)).
        { clear -Hs. induction Hs as [|r opts Hr _ IH]; intros o; [by eexists|].
          cbn [run_bfs_getopt]. rewrite Hr.
          rewrite bool_decide_eq_false_2 by done.
          rewrite bool_decide_eq_true_2 by done. apply IH. }
        destruct (Hsome {| bfs_edge_type_str := ""; bfs_start_vertex := 0 |})
          as [o Ho].
        by apply (Hbfs o).
      * assert (Hsome : forall o, is_Some (run_closeness_getopt opts o)).
        { clear -Hs. induction Hs as [|r opts Hr _ IH]; intros o; [by eexists|].
          cbn [run_closeness_getopt]. rewrite Hr.
          rewrite bool_decide_eq_true_2 by done. apply IH. }
        destruct (Hsome {| cl_id := INVALID_VERTEX_ID; cl_edge_type_str := "" |})
          as [o Ho].
        by apply (Hcl o).
Qed.

(** An instance: [bfs -s 3]. *)
Lemma edge_option_is_required_witness :
  run_bfs [{| opt := "s"; optarg := "3" |}]
  = cli_exit 1 ["wrong edge type"%string].
Proof.
  destruct (edge_option_is_required 0 [{| opt := "s"; optarg := "3" |}])
    as [_ H].
  destruct H as (_ & _ & _ & H).
  - repeat constructor. done.
  - destruct H as [H _]; [|exact H]. repeat constructor.
Defined.

(** ** The algorithms of the test driver *)

(** X17. Every algorithm that the usage of the test driver lists in
    [supported_algs] has its branch in [main]; [main] also runs [cc],
    [diversity] and [toposort], which the table leaves out, and nothing
    else. For any other name, with at least four arguments and a graph that
    loads, [main] prints "[ERROR]: Unknown algorithm" and reaches its end: the
    process ends with status 0, as after an algorithm that ran. *)
Theorem test_algs_dispatch :
  Forall (fun alg => is_Some (dispatch alg)) supported_algs
  /\ (forall alg,
        is_Some (dispatch alg) ->
        alg ∈ supported_algs
        \/ alg ∈ ["cc"; "diversity"; "toposort"]%string)
  /\ Forall (fun alg => alg ∉ supported_algs)
        ["cc"; "diversity"; "toposort"]%string
  /\ (forall argv alg,
        (4 <= length argv)%nat ->
        argv !! 3%nat = Some alg ->
        dispatch alg = None ->
        test_algs_main argv true
        = test_algs_end None
            [("[ERROR]: Unknown algorithm '" ++ alg ++ "'!")%string] 0).
Proof.
  split; [|split; [|split]].
  - unfold supported_algs. repeat constructor; by eexists.
  - intros alg [f Hf]. unfold dispatch in Hf.
    repeat (case_bool_decide as H;
            [rewrite H; apply (bool_decide_unpack _); vm_compute; exact I
            |clear H]).
    done.
  - apply (bool_decide_unpack _). vm_compute. exact I.
  - intros argv alg Hargc Halg Hnone. unfold test_algs_main. cbn zeta.
    rewrite bool_decide_eq_false_2 by lia. rewrite Halg.
    change (default ""%string (Some alg)) with alg. cbn [negb].
    by rewrite Hnone.
Qed.

(** ** [max_val_loc] *)

Lemma max_element_from_spec l : forall best best_idx i pre,
  length pre = i ->
  (best_idx < i)%nat ->
  pre !! best_idx = Some best ->
  Forall (fun x => x <= best) pre ->
  (forall j x, (j < best_idx)%nat -> pre !! j = Some x -> x < best) ->
  let r := max_element_from best best_idx i l in
  (pre ++ l) !! r.2 = Some r.1
  /\ Forall (fun x => x <= r.1) (pre ++ l)
  /\ (forall j x, (j < r.2)%nat -> (pre ++ l) !! j = Some x -> x < r.1).
Proof.
  induction l as [|x l IH]; intros best best_idx i pre Hlen Hidx Hbest Hub Hfirst.
  - cbn. rewrite app_nil_r. done.
  - cbn [max_element_from].
    replace (pre ++ x :: l) with ((pre ++ [x]) ++ l) by by rewrite <- app_assoc.
    case_bool_decide as Hlt.
    + apply IH.
      * rewrite length_app. cbn. lia.
      * lia.
      * rewrite lookup_app_r by lia. by rewrite Hlen, Nat.sub_diag.
      * apply Forall_app. split; [|by repeat constructor].
        eapply Forall_impl; [exact Hub|]. cbn. intros; lia.
      * intros j y Hj Hy. rewrite lookup_app_l in Hy by lia.
        assert (y <= best); [|lia].
        eapply Forall_forall in Hub; [exact Hub|].
        by eapply list_elem_of_lookup_2.
    + apply IH.
      * rewrite length_app. cbn. lia.
      * lia.
      * by rewrite lookup_app_l by lia.
      * apply Forall_app. split; [done|]. repeat constructor. lia.
      * intros j y Hj Hy. rewrite lookup_app_l in Hy by lia. eauto.
Qed.

(** X18. On a vector that is not empty [max_val_loc] returns the
    largest value together with the first position that holds it: no entry
    is larger and every entry before the position is smaller. On an empty
    vector it reads through the end iterator. *)
Theorem max_val_loc_first_maximum res :
  res ≠ [] ->
  exists m idx,
    max_val_loc res = Some (m, idx)
    /\ res !! idx = Some m
    /\ Forall (fun x => x <= m) res
    /\ (forall j x, (j < idx)%nat -> res !! j = Some x -> x < m).
Proof.
  destruct res as [|x l]; [done|]. intros _. cbn [max_val_loc].
  assert (Hub : Forall (fun y => y <= x) [x]) by (repeat constructor; lia).
  assert (Hfirst : forall j y, (j < 0)%nat -> [x] !! j = Some y -> y < x)
    by (intros j y Hj; lia).
  pose proof (max_element_from_spec l x 0%nat 1%nat [x] eq_refl
                (Nat.lt_0_1) eq_refl Hub Hfirst) as (H1 & H2 & H3).
  destruct (max_element_from x 0 1 l) as [m idx]. by exists m, idx.
Qed.

(** An instance: the largest value twice. *)
Lemma max_val_loc_first_maximum_witness :
  exists m idx, max_val_loc [3; 7; 2; 7] = Some (m, idx) /\ idx = 1%nat.
Proof.
  destruct (max_val_loc_first_maximum [3; 7; 2; 7]) as (m & idx & H & _);
    [done|].
  exists m, idx. split; [exact H|].
  vm_compute in H. by injection H.
Defined.

(** ** The random permutation of the workload generators *)

Lemma insert_head_Permutation {A} (l : list A) i (x b : A) :
  l !! i = Some b -> b :: <[i := x]> l ≡ₚ x :: l.
Proof.
  revert i. induction l as [|y l IH]; intros i Hi; [done|].
  destruct i as [|i]; cbn in *.
  - simplify_eq. apply perm_swap.
  - rewrite (perm_swap y b), IH by done. apply perm_swap.
Qed.

Lemma swap_offsets_Permutation {A} (l : list A) j i :
  (j < i)%nat -> swap_offsets l j i ≡ₚ l.
Proof.
  unfold swap_offsets. intros Hji.
  destruct (l !! j) as [a|] eqn:Hj; [|done].
  destruct (l !! i) as [b|] eqn:Hi; [|done].
  revert j i Hji Hj Hi. induction l as [|y l IH]; intros j i Hji Hj Hi; [done|].
  destruct i as [|i]; [lia|]. destruct j as [|j]; cbn in *.
  - simplify_eq. by apply insert_head_Permutation.
  - f_equiv. apply IH; [lia|done..].
Qed.

Lemma swap_offsets_length {A} (l : list A) j i :
  length (swap_offsets l j i) = length l.
Proof.
  unfold swap_offsets. destruct (l !! j); [|done]. destruct (l !! i); [|done].
  by rewrite !length_insert.
Qed.

Lemma swap_offsets_fmap {A B} (f : A -> B) (l : list A) j i :
  f <$> swap_offsets l j i = swap_offsets (f <$> l) j i.
Proof.
  unfold swap_offsets. rewrite !list_lookup_fmap.
  destruct (l !! j); [|done]. destruct (l !! i); [|done]. cbn.
  by rewrite !list_fmap_insert.
Qed.

Lemma swap_offsets_lookup {A} (l : list A) j i p :
  (j < i)%nat -> (i < length l)%nat ->
  swap_offsets l j i !! p
  = if decide (p = i) then l !! j
    else if decide (p = j) then l !! i else l !! p.
Proof.
  intros Hji Hi. unfold swap_offsets.
  destruct (lookup_lt_is_Some_2 l j) as [a Ha]; [lia|].
  destruct (lookup_lt_is_Some_2 l i) as [b Hb]; [lia|].
  rewrite Ha, Hb.
  destruct (decide (p = i)) as [->|Hpi].
  - rewrite list_lookup_insert_eq by (rewrite length_insert; lia). done.
  - rewrite list_lookup_insert_ne by done.
    destruct (decide (p = j)) as [->|Hpj].
    + rewrite list_lookup_insert_eq by lia. done.
    + by rewrite list_lookup_insert_ne.
Qed.

Section RandPermute.

Variable random : nat -> Z.
Hypothesis random_nonneg : forall k, 0 <= random k.

Lemma random_index call i :
  (Z.to_nat (Z.rem (random call) (Z.of_nat (S i))) < S i)%nat.
Proof.
  pose proof (random_nonneg call).
  pose proof (Z.rem_bound_pos (random call) (Z.of_nat (S i))). lia.
Qed.

Lemma rand_permute_shuffle_Permutation {A} i call (l : list A) :
  rand_permute_shuffle random call i l ≡ₚ l.
Proof.
  revert call l. induction i as [|i IH]; intros call l; [done|].
  cbn [rand_permute_shuffle]. rewrite IH.
  apply swap_offsets_Permutation, random_index.
Qed.

Lemma rand_permute_shuffle_fmap {A B} (f : A -> B) i call (l : list A) :
  f <$> rand_permute_shuffle random call i l
  = rand_permute_shuffle random call i (f <$> l).
Proof.
  revert call l. induction i as [|i IH]; intros call l; [done|].
  cbn [rand_permute_shuffle]. by rewrite IH, swap_offsets_fmap.
Qed.

Lemma unsettled_below_step i j a :
  (j < S i)%nat -> (S i < length a)%nat ->
  unsettled_below (S i) a ->
  unsettled_below i (swap_offsets a j (S i)).
Proof.
  intros Hj Hi HJ p m. rewrite swap_offsets_lookup by done.
  destruct (decide (p = S i)) as [->|Hp].
  - intros Hm. destruct (HJ _ _ Hm) as [H1 _]. split; [lia|].
    intros _. destruct H1; lia.
  - destruct (decide (p = j)) as [->|Hpj].
    + intros Hm. destruct (HJ _ _ Hm) as [H1 _]. split; [|lia].
      intros _. destruct H1; lia.
    + intros Hm. destruct (HJ _ _ Hm) as [H1 H2]. split.
      * intros Hle. destruct H1; lia.
      * intros Hlt. apply H2. lia.
Qed.

Lemma rand_permute_shuffle_moves_all i call a :
  (1 <= i)%nat -> (i < length a)%nat ->
  unsettled_below i a ->
  forall p m, rand_permute_shuffle random call i a !! p = Some m -> m ≠ p.
Proof.
  revert call a. induction i as [|i IH]; intros call a Hi Hlen HJ; [lia|].
  cbn [rand_permute_shuffle].
  pose proof (random_index call i) as Hj.
  set (j := Z.to_nat (Z.rem (random call) (Z.of_nat (S i)))) in *.
  pose proof (unsettled_below_step i j a Hj Hlen HJ) as HJ'.
  destruct i as [|i].
  - cbn [rand_permute_shuffle]. intros p m Hm.
    destruct p as [|p].
    + rewrite swap_offsets_lookup in Hm by done.
      rewrite decide_False in Hm by done.
      assert (j = 0%nat) as -> by lia. rewrite decide_True in Hm by done.
      destruct (HJ _ _ Hm) as [H1 _]. destruct H1; lia.
    + destruct (HJ' _ _ Hm) as [_ H2]. apply H2. lia.
  - apply IH; [lia| |done]. rewrite swap_offsets_length. lia.
Qed.

Lemma unsettled_below_seq num : unsettled_below (num - 1) (seq 0 num).
Proof.
  intros p m Hm. apply lookup_seq in Hm as [-> Hp]. split; [by left|lia].
Qed.

End RandPermute.

Lemma rand_permute_Permutation random num stride :
  (forall k, 0 <= random k) ->
  rand_permute random num stride
  ≡ₚ (fun i => Z.of_nat i * stride) <$> seq 0 num.
Proof. intros Hr. by apply rand_permute_shuffle_Permutation. Qed.

Lemma rand_permute_length random num stride :
  (forall k, 0 <= random k) ->
  length (rand_permute random num stride) = num.
Proof.
  intros Hr. rewrite (Permutation_length (rand_permute_Permutation _ _ _ Hr)).
  by rewrite length_fmap, length_seq.
Qed.

(** X19. Whatever non-negative numbers [random()] returns, the array
    that [rand_permute] builds holds each of the offsets [0, stride,
    ..., (num - 1) * stride] exactly once; and for two entries or more and a
    stride that is not zero no offset stays where it started: entry [p]
    never holds [p * stride]. *)
Theorem rand_permute_permutes random num stride :
  (forall k, 0 <= random k) ->
  rand_permute random num stride
  ≡ₚ (fun i => Z.of_nat i * stride) <$> seq 0 num
  /\ length (rand_permute random num stride) = num
  /\ ((2 <= num)%nat -> stride ≠ 0 ->
      forall p o,
        rand_permute random num stride !! p = Some o ->
        o ≠ Z.of_nat p * stride).
Proof.
  intros Hr. split; [|split].
  - by apply rand_permute_Permutation.
  - by apply rand_permute_length.
  - unfold rand_permute. intros Hnum Hstride p o Ho.
    rewrite <- rand_permute_shuffle_fmap in Ho by done.
    rewrite list_lookup_fmap in Ho.
    destruct (rand_permute_shuffle random 0 (num - 1) (seq 0 num) !! p)
      as [m|] eqn:Hm; [|done].
    cbn in Ho. simplify_eq.
    assert (m ≠ p); [|nia].
    eapply (rand_permute_shuffle_moves_all random Hr (num - 1) 0 (seq 0 num));
      [lia|rewrite length_seq; lia|apply unsettled_below_seq|exact Hm].
Qed.

(** An instance: four entries of 8 bytes and a generator that always
    returns 5. *)
Lemma rand_permute_permutes_witness :
  rand_permute (fun _ => 5) 4 8 ≡ₚ [0; 8; 16; 24]
  /\ rand_permute (fun _ => 5) 4 8 = [24; 0; 8; 16].
Proof.
  split.
  - apply (rand_permute_permutes (fun _ => 5) 4 8). intros k. lia.
  - vm_compute. reflexivity.
Defined.

(** ** The generators *)

Lemma seq_workload_next_offsets n g :
  next_offsets n g
  = Some ((fun i => (sw_cur g + Z.of_nat i) * sw_entry_size g) <$> seq 0 n,
          {| sw_start := sw_start g; sw_end := sw_end g;
             sw_cur := sw_cur g + Z.of_nat n;
             sw_entry_size := sw_entry_size g |}).
Proof.
  revert g. induction n as [|n IH]; intros g.
  - cbn. destruct g. cbn. do 3 f_equal. lia.
  - cbn [next_offsets next_offset seq_workload_gen mbind option_bind].
    rewrite IH. cbn [mbind option_bind fst snd seq_workload_next_offset
                     sw_cur sw_start sw_end sw_entry_size].
    cbn [seq fmap list_fmap]. rewrite <- fmap_S_seq, <- list_fmap_compose.
    f_equal. f_equal.
    + f_equal; [f_equal; lia|].
      apply list_fmap_ext. intros _ i _. cbn. f_equal. lia.
    + f_equal. lia.
Qed.

Lemma local_rand_permute_next_offsets n g :
  0 <= lrp_idx g ->
  lrp_idx g + Z.of_nat n <= lrp_num g ->
  lrp_num g = Z.of_nat (length (lrp_permute g)) ->
  next_offsets n g
  = Some ((fun o => o + lrp_start g)
            <$> take n (drop (Z.to_nat (lrp_idx g)) (lrp_permute g)),
          {| lrp_idx := lrp_idx g + Z.of_nat n; lrp_num := lrp_num g;
             lrp_start := lrp_start g; lrp_permute := lrp_permute g |}).
Proof.
  revert g. induction n as [|n IH]; intros g Hidx Hn Hlen.
  - cbn. destruct g. cbn. do 3 f_equal. lia.
  - cbn [next_offsets next_offset local_rand_permute_workload_gen].
    unfold local_rand_permute_next_offset.
    rewrite bool_decide_eq_false_2 by lia.
    destruct (lookup_lt_is_Some_2 (lrp_permute g) (Z.to_nat (lrp_idx g)))
      as [o Ho]; [lia|].
    rewrite Ho. cbn [mbind option_bind fst snd].
    rewrite IH; cbn [lrp_idx lrp_num lrp_start lrp_permute]; [|lia..|done].
    cbn [mbind option_bind fst snd].
    replace (Z.to_nat (lrp_idx g + 1)) with (S (Z.to_nat (lrp_idx g))) by lia.
    rewrite (drop_S _ _ _ Ho). cbn [take fmap list_fmap].
    do 3 f_equal. lia.
Qed.

(** X20. A [local_rand_permute_workload] over the entries
    [start .. end - 1] returns, in its first [end - start] calls of
    [next_offset], the offset of every one of these entries exactly once:
    the offsets a [seq_workload] over the same entries returns, in another
    order. After them [has_next] is false, and [next_offset] returns -1
    and leaves the generator as it is, where a [seq_workload] goes on past
    its end. *)
Theorem local_rand_permute_visits_all random start end_ entry_size :
  (forall k, 0 <= random k) ->
  start <= end_ ->
  let n := Z.to_nat (end_ - start) in
  exists l g gs,
    next_offsets n
      (local_rand_permute_workload_new random start end_ entry_size)
    = Some (l, g)
    /\ next_offsets n (seq_workload_new start end_ entry_size)
       = Some (entry_offsets start end_ entry_size, gs)
    /\ l ≡ₚ entry_offsets start end_ entry_size
    /\ has_next g = false /\ has_next gs = false
    /\ next_offset g = Some (-1, g)
    /\ next_offset gs
       = Some (end_ * entry_size,
               {| sw_start := start; sw_end := end_; sw_cur := end_ + 1;
                  sw_entry_size := entry_size |}).
Proof.
  intros Hr Hle n.
  set (g0 := local_rand_permute_workload_new random start end_ entry_size).
  pose proof (rand_permute_length random n entry_size Hr) as Hlen.
  pose proof (rand_permute_Permutation random n entry_size Hr) as Hperm.
  assert (Hg0 : lrp_permute g0 = rand_permute random n entry_size) by done.
  eexists _, _, _.
  split; [|split; [|split; [|split; [|split; [|split]]]]].
  - apply (local_rand_permute_next_offsets n g0).
    + done.
    + cbn. lia.
    + rewrite Hg0, Hlen. cbn. lia.
  - rewrite seq_workload_next_offsets. done.
  - rewrite Hg0. cbn [lrp_idx g0 local_rand_permute_workload_new].
    change (Z.to_nat 0) with 0%nat. rewrite drop_0.
    rewrite take_ge by lia. rewrite Hperm.
    unfold entry_offsets. fold n. rewrite <- list_fmap_compose.
    cbn [lrp_start]. erewrite list_fmap_ext; [done|].
    intros _ i _. cbn. lia.
  - cbn. apply bool_decide_eq_false_2. lia.
  - cbn. apply bool_decide_eq_false_2. lia.
  - cbn [next_offset local_rand_permute_workload_gen].
    unfold local_rand_permute_next_offset. cbn [lrp_idx lrp_num].
    rewrite bool_decide_eq_true_2; [done|]. cbn. lia.
  - cbn [next_offset seq_workload_gen seq_workload_next_offset sw_cur sw_start
         sw_end sw_entry_size seq_workload_new].
    replace (start + Z.of_nat n) with end_ by lia. done.
Qed.

(** An instance: the entries 2, 3 and 4 of 8 bytes. *)
Lemma local_rand_permute_visits_all_witness :
  exists l g gs,
    next_offsets 3 (local_rand_permute_workload_new (fun _ => 5) 2 5 8)
    = Some (l, g)
    /\ next_offsets 3 (seq_workload_new 2 5 8) = Some ([16; 24; 32], gs)
    /\ l ≡ₚ [16; 24; 32].
Proof.
  destruct (local_rand_permute_visits_all (fun _ => 5) 2 5 8)
    as (l & g & gs & H1 & H2 & H3 & _); [intros k; lia|lia|].
  exists l, g, gs. split; [exact H1|]. split; [exact H2|exact H3].
Defined.

(** ** Byte order of the offsets in a workload file *)

Lemma long_bytes_bytes_long b :
  length b = 8%nat -> Forall (fun x => 0 <= x < 256) b ->
  long_bytes (bytes_long b) = b.
Proof.
  intros Hlen Hb.
  do 9 (destruct b as [|? b]; try done).
  repeat match goal with
         | H : Forall _ (_ :: _) |- _ => apply Forall_cons_1 in H as [? H]
         end.
  unfold long_bytes, bytes_long, to_long. cbn [foldr fmap list_fmap seq].
  change (2 ^ 63) with 9223372036854775808.
  change (2 ^ 64) with 18446744073709551616.
  repeat f_equal.
  all: cbn [Z.of_nat Pos.of_succ_nat Pos.succ Z.pow Z.pow_pos Pos.iter Z.mul
            Pos.mul Pos.add].
  all: Z.div_mod_to_equations; lia.
Qed.

Lemma bytes_long_long_bytes num :
  - 2 ^ 63 <= num < 2 ^ 63 -> bytes_long (long_bytes num) = num.
Proof.
  intros Hnum. unfold long_bytes, bytes_long, to_long.
  cbn [foldr fmap list_fmap seq].
  change (2 ^ 63) with 9223372036854775808 in *.
  change (2 ^ 64) with 18446744073709551616.
  cbn [Z.of_nat Pos.of_succ_nat Pos.succ Z.pow Z.pow_pos Pos.iter Z.mul
       Pos.mul Pos.add].
  Z.div_mod_to_equations. lia.
Qed.

Lemma long_bytes_range num :
  length (long_bytes num) = 8%nat
  /\ Forall (fun x => 0 <= x < 256) (long_bytes num).
Proof.
  split; [done|]. unfold long_bytes. cbn [fmap list_fmap seq].
  repeat constructor; apply Z.mod_pos_bound; lia.
Qed.

Lemma to_long_range x : - 2 ^ 63 <= to_long x < 2 ^ 63.
Proof.
  unfold to_long. pose proof (Z.mod_pos_bound (x + 2 ^ 63) (2 ^ 64)). lia.
Qed.

(** X21. [swap_bytesl] turns the eight bytes of a [long] round: the
    bytes of the result are the bytes of the argument in the opposite
    order, so that an offset a workload file holds highest byte first is
    read back as it was written; applied twice it gives the [long] it
    started from. *)
Theorem swap_bytesl_involutive num :
  - 2 ^ 63 <= num < 2 ^ 63 ->
  long_bytes (swap_bytesl num) = reverse (long_bytes num)
  /\ - 2 ^ 63 <= swap_bytesl num < 2 ^ 63
  /\ swap_bytesl (swap_bytesl num) = num.
Proof.
  intros Hnum.
  destruct (long_bytes_range num) as [Hlen Hb].
  assert (Hrev : long_bytes (swap_bytesl num) = reverse (long_bytes num)).
  { unfold swap_bytesl. apply long_bytes_bytes_long.
    - by rewrite length_reverse.
    - by apply Forall_reverse. }
  split; [done|]. split; [apply to_long_range|].
  unfold swap_bytesl at 1. rewrite Hrev, reverse_involutive.
  by apply bytes_long_long_bytes.
Qed.

(** An instance: the offset 4096 as a Java program writes it. *)
Lemma swap_bytesl_involutive_witness :
  swap_bytesl 4096 = 4503599627370496
  /\ swap_bytesl (swap_bytesl 4096) = 4096.
Proof.
  split; [vm_compute; reflexivity|].
  apply (swap_bytesl_involutive 4096). lia.
Defined.

(** ** Checking a block *)

Lemma verify_loop_sound bs parts : forall prev n m,
  verify_loop bs parts prev n = Some m ->
  Forall (fun p => (length (rel_col_idxs p) <= bs_num_cols bs)%nat) parts
  /\ m = (n + length parts)%nat
  /\ (Forall (fun p => (0 < get_rel_row_idx p)%nat) parts ->
      Sorted lt (prev :: (get_rel_row_idx <$> parts))).
Proof.
  induction parts as [|p parts IH]; intros prev n m H.
  - cbn in H. simplify_eq. split; [done|]. split; [cbn; lia|].
    intros _. by repeat constructor.
  - cbn [verify_loop] in H.
    case_bool_decide as Hnnz; [|done].
    destruct (bool_decide (0 < get_rel_row_idx p)%nat) eqn:Hpos;
      destruct (bool_decide (prev < get_rel_row_idx p)%nat) eqn:Hlt;
      cbn [andb negb] in H; try done;
      apply IH in H as (Hall & -> & Hsorted);
      (split; [by constructor|]); (split; [cbn; lia|]);
      intros Hp; apply Forall_cons_1 in Hp as [Hp0 Hp];
      rewrite fmap_cons.
    + apply bool_decide_eq_true_1 in Hlt.
      constructor; [by apply Hsorted|by constructor].
    + apply bool_decide_eq_true_1 in Hlt.
      constructor; [by apply Hsorted|by constructor].
    + apply bool_decide_eq_false_1 in Hpos. lia.
Qed.

Lemma verify_loop_complete bs parts : forall prev n,
  Forall (fun p => (length (rel_col_idxs p) <= bs_num_cols bs)%nat) parts ->
  Sorted lt (prev :: (get_rel_row_idx <$> parts)) ->
  verify_loop bs parts prev n = Some (n + length parts)%nat.
Proof.
  induction parts as [|p parts IH]; intros prev n Hall Hs.
  - cbn. f_equal. lia.
  - apply Forall_cons_1 in Hall as [Hp Hall].
    rewrite fmap_cons in Hs. apply Sorted_inv in Hs as [Hs Hhd].
    apply HdRel_inv in Hhd.
    cbn [verify_loop]. rewrite bool_decide_eq_true_2 by done.
    rewrite (bool_decide_eq_true_2 (prev < _)%nat) by done.
    rewrite andb_false_r. rewrite IH by done. f_equal. cbn. lia.
Qed.

(** X22. [sparse_block_2d::verify] passes on every block whose row
    parts come in strictly ascending order of their rows, hold no more
    entries than the block has columns and are no more than the block has
    rows. A block on which it passes keeps these two bounds; its row parts
    are in strictly ascending order as long as none after the first is row
    0, a row for which the comparison with the row before is left out. *)
Theorem verify_accepts_ascending_blocks bs parts :
  (Forall (fun p => (length (rel_col_idxs p) <= bs_num_cols bs)%nat) parts ->
   (length parts <= bs_num_rows bs)%nat ->
   Sorted lt (get_rel_row_idx <$> parts) ->
   sparse_block_2d_verify bs parts = true)
  /\ (sparse_block_2d_verify bs parts = true ->
      Forall (fun p => (length (rel_col_idxs p) <= bs_num_cols bs)%nat) parts
      /\ (length parts <= bs_num_rows bs)%nat
      /\ (Forall (fun p => (0 < get_rel_row_idx p)%nat) (tail parts) ->
          StronglySorted lt (get_rel_row_idx <$> parts)))
  /\ ((2 <= bs_num_rows bs)%nat ->
      forall r,
        sparse_block_2d_verify bs
          [{| get_rel_row_idx := r; rel_col_idxs := [] |};
           {| get_rel_row_idx := 0; rel_col_idxs := [] |}] = true).
Proof.
  split; [|split].
  - intros Hall Hlen Hs. unfold sparse_block_2d_verify.
    destruct parts as [|p parts].
    + cbn. apply bool_decide_eq_true_2. lia.
    + apply Forall_cons_1 in Hall as [Hp Hall]. rewrite fmap_cons in Hs.
      cbn [verify_loop]. rewrite bool_decide_eq_true_2 by done.
      assert (Hfirst : bool_decide (0 < get_rel_row_idx p)%nat
                       && negb (bool_decide (0 < get_rel_row_idx p)%nat) = false)
        by by destruct (bool_decide (0 < get_rel_row_idx p)%nat).
      rewrite Hfirst, verify_loop_complete by done.
      apply bool_decide_eq_true_2. cbn in Hlen. lia.
  - unfold sparse_block_2d_verify. intros H.
    destruct (verify_loop bs parts 0 0) as [m|] eqn:Hloop; [|done].
    apply bool_decide_eq_true_1 in H.
    destruct (verify_loop_sound _ _ _ _ _ Hloop) as (Hall & -> & _).
    split; [done|]. split; [lia|]. intros Htl.
    apply Sorted_StronglySorted; [intros ???; lia|].
    destruct parts as [|p parts]; [constructor|].
    cbn [verify_loop] in Hloop.
    case_bool_decide; [|done].
    destruct (bool_decide (0 < get_rel_row_idx p)%nat
              && negb (bool_decide (0 < get_rel_row_idx p)%nat)); [done|].
    destruct (verify_loop_sound _ _ _ _ _ Hloop) as (_ & _ & Hs).
    rewrite fmap_cons. by apply Hs.
  - intros Hrows r. unfold sparse_block_2d_verify. cbn [verify_loop length
      rel_col_idxs get_rel_row_idx].
    rewrite !bool_decide_eq_true_2 by lia.
    rewrite (bool_decide_eq_false_2 (0 < 0)%nat) by lia. cbn [andb].
    destruct (bool_decide (0 < r)%nat); cbn [andb negb];
      apply bool_decide_eq_true_2; lia.
Qed.

(** ** [run_kcore] of the test driver *)

Lemma run_kcore_switch_range opts : forall o o',
  run_kcore_switch opts o = Some o' ->
  0 <= opt_k o < size_max -> 0 <= opt_kmax o < size_max ->
  0 <= opt_k o' < size_max /\ 0 <= opt_kmax o' < size_max.
Proof.
  assert (Hsz : forall x, 0 <= to_size x < size_max).
  { intros x. unfold to_size. by apply Z.mod_pos_bound. }
  induction opts as [|r opts IH]; intros o o' H Hk Hm.
  - cbn in H. by simplify_eq.
  - cbn [run_kcore_switch] in H.
    destruct (bool_decide (opt r = "k"%char));
      [eapply IH; [exact H|cbn; apply Hsz|done]|].
    destruct (bool_decide (opt r = "m"%char));
      [eapply IH; [exact H|done|cbn; apply Hsz]|].
    destruct (bool_decide (opt r = "d"%char)); [|done].
    eapply IH; [exact H|done..].
Qed.

(** X23. [run_kcore] reaches [compute_kcore] only with a [k] of at
    least 2, and with 2 itself when no [-k] is given; [k] and [kmax] are
    [size_t], so a negative [-k] is not refused: it wraps to a [k] just
    below [2^64] and is passed on, and a number beyond the range of [long]
    is passed on as [LONG_MAX]. The value of [-k] may be attached to the
    option or to a group of options, an operand before the options does not
    end their scan, and an unknown option or a [-k] without a value
    aborts. *)
Theorem run_kcore_runs_from_2 args o :
  run_kcore args = cli_run o ->
  2 <= opt_k o < size_max
  /\ 0 <= opt_kmax o < size_max
  /\ run_kcore [] = cli_run {| opt_k := 2; opt_kmax := 0; opt_skips := true |}
  /\ run_kcore ["-k"; "-1"]%string
     = cli_run {| opt_k := size_max - 1; opt_kmax := 0; opt_skips := true |}
  /\ run_kcore ["-k5"]%string
     = cli_run {| opt_k := 5; opt_kmax := 0; opt_skips := true |}
  /\ run_kcore ["-dk"; "5"]%string
     = cli_run {| opt_k := 5; opt_kmax := 0; opt_skips := false |}
  /\ run_kcore ["x"; "-k"; "1"]%string
     = cli_exit (-1) ["[Error]: kmin cannot be < 2"%string]
  /\ run_kcore ["-k"; "99999999999999999999"]%string
     = cli_run {| opt_k := LONG_MAX; opt_kmax := 0; opt_skips := true |}
  /\ run_kcore ["-x"]%string = cli_abort
  /\ run_kcore ["-k"]%string = cli_abort.
Proof.
  unfold run_kcore at 1. intros H.
  destruct (run_kcore_getopt args _) as [o'|] eqn:Ho; [|done].
  case_bool_decide as Hk; [done|]. simplify_eq.
  destruct (run_kcore_switch_range _ _ _ Ho) as [Hk' Hm']; [done..|].
  split; [lia|]. split; [done|]. repeat split; vm_compute; reflexivity.
Qed.

(** An instance: [-k 3 -m 5]. *)
Lemma run_kcore_runs_from_2_witness :
  2 <= 3 < size_max /\ 0 <= 5 < size_max.
Proof.
  destruct (run_kcore_runs_from_2 ["-k"; "3"; "-m"; "5"]%string
              {| opt_k := 3; opt_kmax := 5; opt_skips := true |})
    as (H1 & H2 & _); [vm_compute; reflexivity|].
  split; [exact H1|exact H2].
Defined.

(** ** Multiplying by a vector *)

(** X24. [multiply] takes a vector exactly when its length is the
    number of columns of the matrix, and the vector it returns has as many
    entries as the matrix has rows. The product of a matrix with a vector is
    therefore a vector that the transposed matrix takes, for the matrices in
    the FlashGraph format and for the asymmetric matrix in the 2D format. A
    [block_sparse_matrix] is built as symmetric whatever its header says and
    its [transpose] does nothing: when the header is not square, the
    transposed matrix refuses the product. *)
Theorem multiply_by_transpose :
  (forall m x y lg,
     multiply m x = (Some y, lg) ->
     x = get_num_cols m /\ y = get_num_rows m /\ lg = [])
  /\ (forall num_vertices blocks out_blocks in_blocks index t_index m,
        m ∈ [create_fg_sym num_vertices blocks;
             create_fg_asym num_vertices out_blocks in_blocks;
             create_block_asym index t_index] ->
        multiply (transpose m) (get_num_rows m) = (Some (get_num_cols m), []))
  /\ (forall index,
        (multiply (transpose (create_block index))
           (get_num_rows (create_block index))).1 = None
        <-> header_num_rows (get_header index)
            ≠ header_num_cols (get_header index)).
Proof.
  split; [|split].
  - intros m x y lg H. unfold multiply in H.
    destruct (decide (x = get_num_cols m)) as [->|Hne].
    + rewrite bool_decide_eq_false_2 in H by (intros Hn; by apply Hn).
      by simplify_eq.
    + rewrite bool_decide_eq_true_2 in H by done. done.
  - intros num_vertices blocks out_blocks in_blocks index t_index m Hm.
    assert (Hcases : m = create_fg_sym num_vertices blocks
                     \/ m = create_fg_asym num_vertices out_blocks in_blocks
                     \/ m = create_block_asym index t_index).
    { apply elem_of_cons in Hm as [->|Hm]; [auto|].
      apply elem_of_cons in Hm as [->|Hm]; [auto|].
      apply elem_of_cons in Hm as [->|Hm]; [auto|].
      by apply elem_of_nil in Hm. }
    destruct Hcases as [->|[->| ->]]; unfold multiply; cbn;
      rewrite bool_decide_eq_false_2 by (intros H; by apply H); done.
  - intros index. unfold multiply. cbn.
    case_bool_decide as H; cbn; split; try done.
    + intros _ Heq. apply H. by rewrite Heq.
    + intros Hne. lia.
Qed.
